(** * ITK: N-dimensional image iteration and neighborhood operators

    A shallow embedding of the region / buffer-addressing / iterator /
    neighborhood layer used by [ObjectMorphologyImageFilter],
    [VectorGradientMagnitudeImageFilter],
    [ImageRandomNonRepeatingConstIteratorWithIndex], [NeighborhoodOperator],
    [LaplacianOperator] and [ImplicitManifoldNormalVectorFilter].

    Part I holds the definitions, Part II the lemmas and theorems, Part III
    further properties of the same code. *)

From Stdlib Require Import ZArith Lia.
From Stdlib Require Import Floats.SpecFloat.
From stdpp Require Import base list numbers strings pretty.

Local Open Scope Z_scope.

(* ===================================================================== *)
(** * Part I: definitions                                                  *)
(* ===================================================================== *)

(** ** Index / Size / Region *)

(** A coordinate is a vector of signed integers, one component per image
    axis; it is used for indices, sizes, offsets and radii alike. *)
Definition Coordinate := list Z.

(** Modelled from the spec: [itk::ImageRegion] (itkImageRegion.h is not among
    the source files): a pair of an index (origin) and a size.  The image
    dimension is the length of the two coordinates. *)
Record Region := MakeRegion { m_Index : Coordinate; m_Size : Coordinate }.

(** The per-axis view of a region: (first index, extent) for every axis. *)
Definition Axes (R : Region) : list (Z * Z) := zip (m_Index R) (m_Size R).

Definition RegionOfAxes (axes : list (Z * Z)) : Region :=
  {| m_Index := axes.*1; m_Size := axes.*2 |}.

Definition InAxis (ax : Z * Z) (x : Z) : Prop := ax.1 ≤ x < ax.1 + ax.2.

(** Modelled from the spec: [ImageRegion::IsInside(index)], containment of an
    index in the axis-aligned box of the region. *)
Definition IsInside (R : Region) (idx : Coordinate) : Prop :=
  Forall2 InAxis (Axes R) idx.

#[global] Instance InAxis_dec ax x : Decision (InAxis ax x).
Proof. unfold InAxis. apply _. Defined.

#[global] Instance IsInside_dec R idx : Decision (IsInside R idx).
Proof. unfold IsInside. apply _. Defined.

(** Modelled from the spec: [ImageRegion::GetNumberOfPixels], the product of
    the size components. *)
Definition GetNumberOfPixels (R : Region) : Z := foldr Z.mul 1 (m_Size R).

(** One axis grown by [r] on both sides. *)
Definition PadAxis (ax : Z * Z) (r : Z) : Z * Z := (ax.1 - r, ax.2 + 2 * r).

(** Modelled from the spec: [ImageRegion::PadByRadius] (itkImageRegion.h is
    not among the source files).  The region grows by [radius] on both sides
    of every axis; nothing is clamped. *)
Definition PadByRadius (R : Region) (radius : Coordinate) : Region :=
  RegionOfAxes (zip_with PadAxis (Axes R) radius).

(** The part of an axis that lies in another axis. *)
Definition CropAxis (ax other : Z * Z) : Z * Z :=
  let lo := Z.max ax.1 other.1 in
  let hi := Z.min (ax.1 + ax.2) (other.1 + other.2) in
  (lo, hi - lo).

(** Modelled from the spec: [ImageRegion::Crop] (itkImageRegion.h is not
    among the source files).  The result is the intersection of the two
    regions; the crop fails ([None], the region is left as it was) when they
    do not overlap at all. *)
Definition Crop (R other : Region) : option Region :=
  let axes := zip_with CropAxis (Axes R) (Axes other) in
  if decide (Forall (λ ax, 0 < ax.2) axes) then Some (RegionOfAxes axes) else None.

(** ** Buffer addressing *)

(** Modelled from the spec: the stride table of [ImageBase] (itkImageBase.h
    is not among the source files): stride[0] = 1 and
    stride[i] = stride[i-1] * size[i-1]. *)
Fixpoint StridesFrom (stride : Z) (size : Coordinate) : list Z :=
  match size with
  | [] => []
  | n :: size' => stride :: StridesFrom (stride * n) size'
  end.

Definition ComputeStrides (size : Coordinate) : list Z := StridesFrom 1 size.

(** The dot product of two coordinates. *)
Definition Dot (a b : list Z) : Z := foldr Z.add 0 (zip_with Z.mul a b).

(** Modelled from the spec: [ImageBase::ComputeOffset] (itkImageBase.h is not
    among the source files): the origin-relative index times the strides of
    the buffered region; no bounds check. *)
Definition ComputeOffset (B : Region) (idx : Coordinate) : Z :=
  Dot (zip_with Z.sub idx (m_Index B)) (ComputeStrides (m_Size B)).

(** The same offset in Horner form over the zipped axes, and the number of
    indices the axes span; both are only used to reason about
    [ComputeOffset] and [GetNumberOfPixels]. *)
Fixpoint RowMajor (axes : list (Z * Z)) (idx : Coordinate) : Z :=
  match axes, idx with
  | ax :: axes', x :: idx' => (x - ax.1) + ax.2 * RowMajor axes' idx'
  | _, _ => 0
  end.

Definition Volume (axes : list (Z * Z)) : Z := foldr (λ ax n, ax.2 * n) 1 axes.

(** ** ImageRandomNonRepeatingConstIteratorWithIndex *)

Module ImageRandomNonRepeatingConstIteratorWithIndex.

(** [IndexValueType] and [SizeValueType] are declared in itkIntTypes.h, which
    is not among the source files; positions, indices and sizes are
    unbounded integers here. *)

(** The loop over [dim] shared by [UpdatePosition] and [SetPriorityImage]:
    [residual = position % size[dim]], [index[dim] = residual + begin[dim]],
    [position -= residual], [position /= size[dim]].  The C++ operators
    [%] and [/] truncate ([Z.rem], [Z.quot]); a zero size makes them
    undefined, which is the [None] result. *)
Fixpoint DecodePosition (position : Z) (size beginIndex : Coordinate)
  : option Coordinate :=
  match size, beginIndex with
  | sizeInThisDimension :: size', b :: begin' =>
      if decide (sizeInThisDimension = 0) then None
      else
        let residual := position `rem` sizeInThisDimension in
        let position := position - residual in
        let position := position `quot` sizeInThisDimension in
        rest ← DecodePosition position size' begin';
        Some ((residual + b) :: rest)
  | _, _ => Some []
  end.

Record Iterator := {
  m_Region : Region;               (* region walked *)
  m_BeginIndex : Coordinate;       (* first index of m_Region *)
  m_BufferedRegion : Region;       (* m_Image->GetBufferedRegion() *)
  m_PositionIndex : Coordinate;
  m_Position : Z;                  (* offset from GetBufferPointer() *)
  m_NumberOfSamplesRequested : Z;
  m_NumberOfSamplesDone : Z;
  m_NumberOfPixelsInRegion : Z;
  m_Permutation : list Z
}.

(** The constructor, on an already shuffled permutation table (the
    RandomPermutation helper class draws it). *)
Definition Construct (buffered region : Region) (permutation : list Z) : Iterator :=
  {| m_Region := region; m_BeginIndex := m_Index region;
     m_BufferedRegion := buffered;
     m_PositionIndex := m_Index region;
     m_Position := ComputeOffset buffered (m_Index region);
     m_NumberOfSamplesRequested := 0; m_NumberOfSamplesDone := 0;
     m_NumberOfPixelsInRegion := GetNumberOfPixels region;
     m_Permutation := permutation |}.

(** [UpdatePosition]: fetch the permuted position, decode it, and take the
    buffer offset of the decoded index. *)
Definition UpdatePosition (it : Iterator) : option Iterator :=
  if decide (m_NumberOfSamplesRequested it = 0) then None
  else
    position ← m_Permutation it !!
      Z.to_nat (m_NumberOfSamplesDone it `rem` m_NumberOfSamplesRequested it);
    positionIndex ← DecodePosition position (m_Size (m_Region it)) (m_BeginIndex it);
    Some {| m_Region := m_Region it; m_BeginIndex := m_BeginIndex it;
            m_BufferedRegion := m_BufferedRegion it;
            m_PositionIndex := positionIndex;
            m_Position := ComputeOffset (m_BufferedRegion it) positionIndex;
            m_NumberOfSamplesRequested := m_NumberOfSamplesRequested it;
            m_NumberOfSamplesDone := m_NumberOfSamplesDone it;
            m_NumberOfPixelsInRegion := m_NumberOfPixelsInRegion it;
            m_Permutation := m_Permutation it |}.

(** [SetPriorityImage], up to the final shuffle: the priority handed to
    [SetPriority(pixel, ...)] for every [pixel] below the number of pixels,
    read from the priority image at the decoded index. *)
Definition SetPriorityImage {Priority : Type} (it : Iterator)
    (priorityImage : Coordinate → Priority) : option (list Priority) :=
  mapM (λ pixel : nat,
          positionIndex ← DecodePosition (Z.of_nat pixel)
                            (m_Size (m_Region it)) (m_BeginIndex it);
          Some (priorityImage positionIndex))
       (seq 0 (Z.to_nat (m_NumberOfPixelsInRegion it))).

End ImageRandomNonRepeatingConstIteratorWithIndex.


(** ** Pixel types, images and exceptions *)

(** [itk::NumericTraits<T>] with the exact comparison of itkMath.h. *)
Class NumericTraits (T : Type) := {
  ZeroValue : T;
  OneValue : T;
  NumericTraits_eq_dec :: EqDecision T;
  OneValue_ne_ZeroValue : OneValue ≠ ZeroValue
}.

Definition ExactlyEquals `{NumericTraits T} (a b : T) : bool := bool_decide (a = b).
Definition NotExactlyEquals `{NumericTraits T} (a b : T) : bool := negb (ExactlyEquals a b).

(** Modelled from the spec: what the filters use of [itk::Image] (itkImage.h
    is not among the source files): the identity of the data object, its
    three regions and the contiguous pixel buffer of the buffered region. *)
Record Image (Pixel : Type) := {
  m_ObjectId : nat;
  m_LargestPossibleRegion : Region;
  m_RequestedRegion : Region;
  m_BufferedRegion : Region;
  m_Buffer : list Pixel
}.
Arguments m_ObjectId {Pixel} _.
Arguments m_LargestPossibleRegion {Pixel} _.
Arguments m_RequestedRegion {Pixel} _.
Arguments m_BufferedRegion {Pixel} _.
Arguments m_Buffer {Pixel} _.

Section ImageAccess.
Context `{NumericTraits Pixel}.

Definition SetRequestedRegion (img : Image Pixel) (R : Region) : Image Pixel :=
  {| m_ObjectId := m_ObjectId img;
     m_LargestPossibleRegion := m_LargestPossibleRegion img;
     m_RequestedRegion := R;
     m_BufferedRegion := m_BufferedRegion img;
     m_Buffer := m_Buffer img |}.

Definition SetBuffer (img : Image Pixel) (buffer : list Pixel) : Image Pixel :=
  {| m_ObjectId := m_ObjectId img;
     m_LargestPossibleRegion := m_LargestPossibleRegion img;
     m_RequestedRegion := m_RequestedRegion img;
     m_BufferedRegion := m_BufferedRegion img;
     m_Buffer := buffer |}.

(** A read at [GetBufferPointer() + offset].  An offset outside the
    allocated buffer is outside the contract of every caller; the model
    then answers the zero value. *)
Definition ReadBuffer (img : Image Pixel) (offset : Z) : Pixel :=
  if decide (0 ≤ offset) then default ZeroValue (m_Buffer img !! Z.to_nat offset)
  else ZeroValue.

(** A write at [GetBufferPointer() + offset]; outside the allocated buffer
    the model leaves the buffer as it is. *)
Definition WriteBuffer (img : Image Pixel) (offset : Z) (v : Pixel) : Image Pixel :=
  if decide (0 ≤ offset) then SetBuffer img (<[Z.to_nat offset := v]> (m_Buffer img))
  else img.

Definition FillBuffer (img : Image Pixel) (v : Pixel) : Image Pixel :=
  SetBuffer img (replicate (length (m_Buffer img)) v).

Definition GetPixel (img : Image Pixel) (idx : Coordinate) : Pixel :=
  ReadBuffer img (ComputeOffset (m_BufferedRegion img) idx).

Definition SetPixel (img : Image Pixel) (idx : Coordinate) (v : Pixel) : Image Pixel :=
  WriteBuffer img (ComputeOffset (m_BufferedRegion img) idx) v.
End ImageAccess.

(** Exceptions of itkExceptionObject.h, with the data object that
    [InvalidRequestedRegionError] carries. *)
Inductive Exception :=
| ExceptionObject (description : string)
| InvalidRequestedRegionError (description : string) (dataObject : nat).

(** The outcome of a member function that may throw: the object state it
    leaves behind, and the exception if one was thrown. *)
Inductive Outcome (A : Type) :=
| Returned (state : A)
| Thrown (e : Exception) (state : A).
Arguments Returned {A} _.
Arguments Thrown {A} _ _.

(** ** Region iterator *)

Module ImageRegionIterator.

(** Modelled from the spec: the states of [ImageRegionConstIterator] and
    [ImageRegionIterator] (their headers are not among the source files). *)
Inductive State :=
| Uninitialized
| Positioned (index : Coordinate)
| AtEnd.

Record Iterator := { m_Region : Region; m_State : State }.

(** Modelled from the spec: [GoToBegin]: from any state to Positioned at the
    region origin.  A region with an axis without extent holds no index, so
    there is no origin to be positioned at: by the invariant of the iterator
    (a region of size S is visited at exactly prod(S) positions) the
    iterator over such a region is at its end from the beginning, and the
    loops [while (!it.IsAtEnd())] of the filters do not enter their body. *)
Definition GoToBegin (it : Iterator) : Iterator :=
  {| m_Region := m_Region it;
     m_State := if decide (Forall (λ n, 0 < n) (m_Size (m_Region it)))
                then Positioned (m_Index (m_Region it))
                else AtEnd |}.

(** A default-constructed iterator is bound to nothing. *)
Definition Default : Iterator :=
  {| m_Region := MakeRegion [] []; m_State := Uninitialized |}.

(** Construction over a region leaves the iterator at the beginning of the
    region: the filters walk a fresh iterator without calling [GoToBegin]. *)
Definition Construct (region : Region) : Iterator :=
  GoToBegin {| m_Region := region; m_State := Uninitialized |}.

(** Modelled from the spec: the next index in row-major order: +1 on the
    fastest axis; an axis that runs past its end goes back to its first
    index and carries into the next axis.  [None] when the last axis rolls
    over. *)
Fixpoint NextIndex (axes : list (Z * Z)) (idx : Coordinate) : option Coordinate :=
  match axes, idx with
  | ax :: axes', x :: idx' =>
      if decide (x + 1 < ax.1 + ax.2) then Some ((x + 1) :: idx')
      else rest ← NextIndex axes' idx'; Some (ax.1 :: rest)
  | _, _ => None
  end.

(** Modelled from the spec: [operator++]: Positioned to Positioned at the
    next index, or to AtEnd once the last axis has rolled over; advancing
    in any other state is a no-op. *)
Definition Increment (it : Iterator) : Iterator :=
  match m_State it with
  | Positioned idx =>
      {| m_Region := m_Region it;
         m_State := match NextIndex (Axes (m_Region it)) idx with
                    | Some idx' => Positioned idx'
                    | None => AtEnd
                    end |}
  | _ => it
  end.

(** Modelled from the spec: [IsAtEnd]: true only in AtEnd. *)
Definition IsAtEnd (it : Iterator) : bool :=
  match m_State it with AtEnd => true | _ => false end.

Definition GetIndex (it : Iterator) : Coordinate :=
  match m_State it with
  | Positioned idx => idx
  | _ => m_Index (m_Region it)
  end.

Definition Get `{NumericTraits Pixel} (it : Iterator) (img : Image Pixel) : Pixel :=
  GetPixel img (GetIndex it).

Definition Set_ `{NumericTraits Pixel} (it : Iterator) (img : Image Pixel) (v : Pixel)
  : Image Pixel :=
  SetPixel img (GetIndex it) v.

(** [while (!it.IsAtEnd()) { visit; ++it; }] with the indices visited; the
    loop is cut after [fuel] rounds. *)
Fixpoint Walk (fuel : nat) (it : Iterator) : list Coordinate * Iterator :=
  match fuel with
  | O => ([], it)
  | S fuel' =>
      if IsAtEnd it then ([], it)
      else let '(visited, it') := Walk fuel' (Increment it) in
           (GetIndex it :: visited, it')
  end.

End ImageRegionIterator.

(** ** Region decomposition into faces *)

Module NeighborhoodAlgorithm.

(** [itkNeighborhoodAlgorithm.h], which holds the faces calculator, is not
    among the source files; this module is written from the specification.
    The first face is the maximal part of the region that is safe for
    unchecked access with the radius: the indices whose whole window lies in
    the buffered region of the image, which is the region the neighborhood
    iterator tests containment in.  (For an image held in full the buffered
    region is the largest possible region, the one section 4.6 names.)  The
    region is therefore shrunk only on the sides on which it comes closer
    than the radius to the border of the image. *)

(** One axis [ax] of the region against the axis [b] of the buffered region:
    the first index of [ax] whose window of radius [r] starts in [b], and the
    index after the last one whose window ends in [b], both kept within
    [ax]. *)
Definition SpanBegin (ax b : Z * Z) (r : Z) : Z :=
  Z.min (ax.1 + ax.2) (Z.max ax.1 (b.1 + r)).

Definition SpanEnd (ax b : Z * Z) (r : Z) : Z :=
  Z.max (SpanBegin ax b r) (Z.min (ax.1 + ax.2) (b.1 + b.2 - r)).

(** The slab of the axis below the interior span, the interior span, and the
    slab above it; the three follow each other and make up the axis. *)
Definition LowSlab (ax b : Z * Z) (r : Z) : Z * Z :=
  (ax.1, SpanBegin ax b r - ax.1).

Definition InteriorSpan (ax b : Z * Z) (r : Z) : Z * Z :=
  (SpanBegin ax b r, SpanEnd ax b r - SpanBegin ax b r).

Definition HighSlab (ax b : Z * Z) (r : Z) : Z * Z :=
  (SpanEnd ax b r, ax.1 + ax.2 - SpanEnd ax b r).

(** Modelled from the spec: the boundary slabs, axis by axis: on the axes
    already processed the interior span, on the current axis the extent
    before and after the interior span, on the axes still to come the full
    extent of the region. *)
Fixpoint BoundarySlabs (processed axes bounds : list (Z * Z)) (radius : Coordinate)
  : list Region :=
  match axes, bounds, radius with
  | ax :: axes', b :: bounds', r :: radius' =>
      RegionOfAxes (processed ++ LowSlab ax b r :: axes') ::
      RegionOfAxes (processed ++ HighSlab ax b r :: axes') ::
      BoundarySlabs (processed ++ [InteriorSpan ax b r]) axes' bounds' radius'
  | _, _, _ => []
  end.

Fixpoint InteriorSpans (axes bounds : list (Z * Z)) (radius : Coordinate)
  : list (Z * Z) :=
  match axes, bounds, radius with
  | ax :: axes', b :: bounds', r :: radius' =>
      InteriorSpan ax b r :: InteriorSpans axes' bounds' radius'
  | _, _, _ => []
  end.

(** Modelled from the spec: the interior face: the region shrunk by the
    radius on the sides where it is closer than the radius to the border of
    the image; it is empty when that leaves no extent on some axis. *)
Definition InteriorFace {Pixel : Type} (image : Image Pixel) (R : Region)
    (radius : Coordinate) : Region :=
  RegionOfAxes (InteriorSpans (Axes R) (Axes (m_BufferedRegion image)) radius).

(** A region with an extent on every axis. *)
Definition NonEmpty (F : Region) : Prop := Forall (λ ax, 0 < ax.2) (Axes F).

#[global] Instance NonEmpty_dec (F : Region) : Decision (NonEmpty F).
Proof. unfold NonEmpty. apply _. Defined.

(** Modelled from the spec: [ImageBoundaryFacesCalculator]
    (itkNeighborhoodAlgorithm.h is not among the source files).  The interior
    face comes first, then the boundary slabs that hold an index (there may
    be none).  In the worked example of the specification, a 5x5 image with
    radius 1 decomposed in full has the 3x3 interior at (1,1) and the slabs
    1x5, 1x5, 3x1, 3x1; a region that stays away from the border of the image
    by the radius is its own interior and has no boundary face. *)
Definition ComputeFaces {Pixel : Type} (image : Image Pixel) (R : Region)
    (radius : Coordinate) : list Region :=
  InteriorFace image R radius
  :: filter NonEmpty (BoundarySlabs [] (Axes R) (Axes (m_BufferedRegion image)) radius).

(** The slab a point falls in, counted along [BoundarySlabs]: the first axis
    on which the point leaves the interior span decides, low slab before
    high slab. *)
Fixpoint SlabIndexOf (axes bounds : list (Z * Z)) (radius p : Coordinate)
  : option nat :=
  match axes, bounds, radius, p with
  | ax :: axes', b :: bounds', r :: radius', x :: p' =>
      if decide (InAxis (LowSlab ax b r) x) then Some 0%nat
      else if decide (InAxis (HighSlab ax b r) x) then Some 1%nat
      else (λ n, S (S n)) <$> SlabIndexOf axes' bounds' radius' p'
  | _, _, _, _ => None
  end.

Definition FaceIndexOf (axes bounds : list (Z * Z)) (radius p : Coordinate) : nat :=
  match SlabIndexOf axes bounds radius p with
  | None => 0
  | Some n => S n
  end.

(** An axis of the buffered region cut by [r] on both sides: the centers
    whose window of radius [r] fits in the axis. *)
Definition ShrinkAxis (ax : Z * Z) (r : Z) : Z * Z := (ax.1 + r, ax.2 - 2 * r).

End NeighborhoodAlgorithm.

(** ** Boundary conditions and the neighborhood iterator *)

Module NeighborhoodIterator.

Import ImageRegionIterator.

(** [itkNeighborhood.h], [itkConstNeighborhoodIterator.h] and the boundary
    condition headers are not among the source files; this module is written
    from the specification. *)

(** Modelled from the spec: the number of neighbors of a neighborhood, the
    product of 2r+1. *)
Definition NeighborhoodSize (radius : Coordinate) : Z :=
  foldr (λ r n, (2 * r + 1) * n) 1 radius.

(** Modelled from the spec: the offset of neighbor [k] from the center,
    row-major over the window (axis 0 fastest), each component within
    [-r, r]. *)
Fixpoint GetOffset (radius : Coordinate) (k : Z) : Coordinate :=
  match radius with
  | [] => []
  | r :: radius' =>
      let n := 2 * r + 1 in
      (k `mod` n - r) :: GetOffset radius' (k `div` n)
  end.

(** Modelled from the spec: the neighborhood offset table: one linear
    offset delta per neighbor, row-major, on the strides of the buffer. *)
Definition ComputeNeighborhoodOffsetTable (radius : Coordinate) (B : Region) : list Z :=
  (λ k : nat, Dot (GetOffset radius (Z.of_nat k)) (ComputeStrides (m_Size B)))
    <$> seq 0 (Z.to_nat (NeighborhoodSize radius)).

Section WithPixel.
Context `{NumericTraits Pixel}.

(** Modelled from the spec: the boundary-condition strategies. *)
Inductive BoundaryCondition :=
| ConstantBoundaryCondition (m_Constant : Pixel)
| ZeroFluxNeumannBoundaryCondition
| PeriodicBoundaryCondition
| MirrorBoundaryCondition.

(** A default-constructed strategy. *)
Definition DefaultBoundaryCondition : BoundaryCondition :=
  ConstantBoundaryCondition ZeroValue.

Definition SetConstant (bc : BoundaryCondition) (c : Pixel) : BoundaryCondition :=
  match bc with
  | ConstantBoundaryCondition _ => ConstantBoundaryCondition c
  | other => other
  end.

Definition ClampAxis (ax : Z * Z) (x : Z) : Z :=
  Z.max ax.1 (Z.min x (ax.1 + ax.2 - 1)).

Definition WrapAxis (ax : Z * Z) (x : Z) : Z :=
  ax.1 + (x - ax.1) `mod` ax.2.

Definition ReflectAxis (ax : Z * Z) (x : Z) : Z :=
  let m := (x - ax.1) `mod` (2 * ax.2) in
  if decide (m < ax.2) then ax.1 + m else ax.1 + (2 * ax.2 - 1 - m).

(** Modelled from the spec: the value a strategy gives for an index outside
    the buffered region: the constant, the pixel at the nearest index inside
    (zero flux), at the index wrapped modulo the size (periodic), or at the
    index reflected at the border (mirror). *)
Definition Evaluate (bc : BoundaryCondition) (img : Image Pixel) (idx : Coordinate)
  : Pixel :=
  let axes := Axes (m_BufferedRegion img) in
  match bc with
  | ConstantBoundaryCondition c => c
  | ZeroFluxNeumannBoundaryCondition => GetPixel img (zip_with ClampAxis axes idx)
  | PeriodicBoundaryCondition => GetPixel img (zip_with WrapAxis axes idx)
  | MirrorBoundaryCondition => GetPixel img (zip_with ReflectAxis axes idx)
  end.

Record Iterator := {
  m_Radius : Coordinate;
  m_Image : Image Pixel;
  m_Walker : ImageRegionIterator.Iterator;   (* face walked and position *)
  m_OffsetTable : list Z;
  m_BoundaryCondition : BoundaryCondition
}.

Definition Construct (radius : Coordinate) (img : Image Pixel) (face : Region)
  : Iterator :=
  {| m_Radius := radius; m_Image := img;
     m_Walker := ImageRegionIterator.Construct face;
     m_OffsetTable := ComputeNeighborhoodOffsetTable radius (m_BufferedRegion img);
     m_BoundaryCondition := DefaultBoundaryCondition |}.

Definition OverrideBoundaryCondition (it : Iterator) (bc : BoundaryCondition)
  : Iterator :=
  {| m_Radius := m_Radius it; m_Image := m_Image it; m_Walker := m_Walker it;
     m_OffsetTable := m_OffsetTable it; m_BoundaryCondition := bc |}.

Definition WithWalker (it : Iterator) (w : ImageRegionIterator.Iterator) : Iterator :=
  {| m_Radius := m_Radius it; m_Image := m_Image it; m_Walker := w;
     m_OffsetTable := m_OffsetTable it;
     m_BoundaryCondition := m_BoundaryCondition it |}.

Definition GoToBegin (it : Iterator) : Iterator :=
  WithWalker it (ImageRegionIterator.GoToBegin (m_Walker it)).

Definition Increment (it : Iterator) : Iterator :=
  WithWalker it (ImageRegionIterator.Increment (m_Walker it)).

Definition IsAtEnd (it : Iterator) : bool := ImageRegionIterator.IsAtEnd (m_Walker it).

(** [SetLocation]: move the center to an index. *)
Definition SetLocation (it : Iterator) (center : Coordinate) : Iterator :=
  WithWalker it {| m_Region := m_Region (m_Walker it); m_State := Positioned center |}.

Definition GetIndex (it : Iterator) : Coordinate :=
  ImageRegionIterator.GetIndex (m_Walker it).

(** Absolute image index of neighbor [k]. *)
Definition GetNeighborIndex (it : Iterator) (k : nat) : Coordinate :=
  zip_with Z.add (GetIndex it) (GetOffset (m_Radius it) (Z.of_nat k)).

(** Modelled from the spec: how an access to neighbor [k] is served: from the
    buffer, at the offset of the center plus the table entry, or by the
    strategy. *)
Inductive Access :=
| FromBuffer (offset : Z)
| FromBoundaryCondition (index : Coordinate).

Definition Resolve (it : Iterator) (k : nat) : Access :=
  let idx := GetNeighborIndex it k in
  if decide (IsInside (m_BufferedRegion (m_Image it)) idx)
  then FromBuffer (ComputeOffset (m_BufferedRegion (m_Image it)) (GetIndex it)
                   + default 0 (m_OffsetTable it !! k))
  else FromBoundaryCondition idx.

(** Modelled from the spec: [GetPixel(neighborIndex)]. *)
Definition GetPixel (it : Iterator) (k : nat) : Pixel :=
  match Resolve it k with
  | FromBuffer offset => ReadBuffer (m_Image it) offset
  | FromBoundaryCondition idx => Evaluate (m_BoundaryCondition it) (m_Image it) idx
  end.

(** Modelled from the spec: [GetPixel(neighborIndex, isInBounds)]: the
    pixel together with the flag written to the output parameter, true
    when the neighbor lies in the buffered region. *)
Definition GetPixel_IsInBounds (it : Iterator) (k : nat) : Pixel * bool :=
  let idx := GetNeighborIndex it k in
  if decide (IsInside (m_BufferedRegion (m_Image it)) idx)
  then (ReadBuffer (m_Image it)
          (ComputeOffset (m_BufferedRegion (m_Image it)) (GetIndex it)
           + default 0 (m_OffsetTable it !! k)), true)
  else (Evaluate (m_BoundaryCondition it) (m_Image it) idx, false).

Definition GetCenterPixel (it : Iterator) : Pixel :=
  GetPixel it (Z.to_nat (NeighborhoodSize (m_Radius it) `div` 2)).
End WithPixel.

Arguments BoundaryCondition Pixel : clear implicits.
Arguments Iterator Pixel : clear implicits.

End NeighborhoodIterator.

(** ** ObjectMorphologyImageFilter *)

Module ObjectMorphologyImageFilter.

Import NeighborhoodIterator.

Section WithPixel.
Context `{NumericTraits Pixel}.

(** [m_BoundaryCondition] points either at the filter's own
    [m_DefaultBoundaryCondition] or at a strategy given by the user. *)
Inductive BoundaryConditionPointer :=
| PointsToDefault
| PointsTo (bc : BoundaryCondition Pixel).

Record Filter := {
  ImageDimension : nat;
  m_KernelRadius : Coordinate;                 (* m_Kernel.GetRadius() *)
  m_ObjectValue : Pixel;
  m_UseBoundaryCondition : bool;
  m_DefaultBoundaryCondition : BoundaryCondition Pixel;
  m_BoundaryCondition : BoundaryConditionPointer;
  m_Input : option (Image Pixel);
  m_Output : Image Pixel
}.

(** The strategy [m_BoundaryCondition] points at. *)
Definition GetBoundaryCondition (f : Filter) : BoundaryCondition Pixel :=
  match m_BoundaryCondition f with
  | PointsToDefault => m_DefaultBoundaryCondition f
  | PointsTo bc => bc
  end.

(** The constructor: a default kernel, the object value one, the default
    strategy set to the zero pixel and installed.  The in-class
    initialiser of [m_UseBoundaryCondition] and the output image made by
    the base class are taken as arguments. *)
Definition Construct (dimension : nat) (useBoundaryCondition : bool)
    (output : Image Pixel) : Filter :=
  {| ImageDimension := dimension;
     m_KernelRadius := replicate dimension 0;
     m_ObjectValue := OneValue;
     m_UseBoundaryCondition := useBoundaryCondition;
     m_DefaultBoundaryCondition := SetConstant DefaultBoundaryCondition ZeroValue;
     m_BoundaryCondition := PointsToDefault;
     m_Input := None;
     m_Output := output |}.

Definition SetInput (f : Filter) (input : Image Pixel) : Filter :=
  {| ImageDimension := ImageDimension f;
     m_KernelRadius := m_KernelRadius f;
     m_ObjectValue := m_ObjectValue f;
     m_UseBoundaryCondition := m_UseBoundaryCondition f;
     m_DefaultBoundaryCondition := m_DefaultBoundaryCondition f;
     m_BoundaryCondition := m_BoundaryCondition f;
     m_Input := Some input;
     m_Output := m_Output f |}.

Definition SetOutput (f : Filter) (output : Image Pixel) : Filter :=
  {| ImageDimension := ImageDimension f;
     m_KernelRadius := m_KernelRadius f;
     m_ObjectValue := m_ObjectValue f;
     m_UseBoundaryCondition := m_UseBoundaryCondition f;
     m_DefaultBoundaryCondition := m_DefaultBoundaryCondition f;
     m_BoundaryCondition := m_BoundaryCondition f;
     m_Input := m_Input f;
     m_Output := output |}.

(** [GenerateInputRequestedRegion]; the superclass implementation, which
    runs first, is a parameter. *)
Definition GenerateInputRequestedRegion
    (Superclass_GenerateInputRequestedRegion : Filter → Filter)
    (f : Filter) : Outcome Filter :=
  let f := Superclass_GenerateInputRequestedRegion f in
  match m_Input f with
  | None => Returned f
  | Some inputPtr =>
      let inputRequestedRegion := m_RequestedRegion inputPtr in
      let inputRequestedRegion := PadByRadius inputRequestedRegion (m_KernelRadius f) in
      match Crop inputRequestedRegion (m_LargestPossibleRegion inputPtr) with
      | Some cropped =>
          Returned (SetInput f (SetRequestedRegion inputPtr cropped))
      | None =>
          let inputPtr := SetRequestedRegion inputPtr inputRequestedRegion in
          Thrown (InvalidRequestedRegionError
                    "Requested region is outside largest possible region."
                    (m_ObjectId inputPtr))
                 (SetInput f inputPtr)
      end
  end.

(** The copy loop of [BeforeThreadedGenerateData], cut after [fuel]
    rounds ([None] when the loop has not finished by then). *)
Fixpoint CopyLoop (fuel : nat) (objectValue : Pixel) (input : Image Pixel)
    (iRegIter oRegIter : ImageRegionIterator.Iterator) (output : Image Pixel)
  : option (Image Pixel) :=
  match fuel with
  | O => None
  | S fuel' =>
      if ImageRegionIterator.IsAtEnd oRegIter then Some output
      else
        let output :=
          if NotExactlyEquals (ImageRegionIterator.Get oRegIter output) objectValue
          then ImageRegionIterator.Set_ oRegIter output
                 (ImageRegionIterator.Get iRegIter input)
          else output in
        CopyLoop fuel' objectValue input
          (ImageRegionIterator.Increment iRegIter)
          (ImageRegionIterator.Increment oRegIter) output
  end.

(** [BeforeThreadedGenerateData]; a filter without input has nothing to
    read from ([None]). *)
Definition BeforeThreadedGenerateData (fuel : nat) (f : Filter) : option Filter :=
  let output :=
    if ExactlyEquals (m_ObjectValue f) ZeroValue
    then FillBuffer (m_Output f) OneValue
    else FillBuffer (m_Output f) ZeroValue in
  let requestedRegion := m_RequestedRegion output in
  input ← m_Input f;
  let iRegIter := ImageRegionIterator.Construct requestedRegion in
  let oRegIter := ImageRegionIterator.Construct requestedRegion in
  output ← CopyLoop fuel (m_ObjectValue f) input iRegIter oRegIter output;
  Some (SetOutput f output).

(** The two loops of [IsObjectPixelOnBoundary], from neighbor [i] on for
    [n] more neighbors; a hit returns at once. *)
Fixpoint AnyNeighborWithBoundaryCondition (objectValue : Pixel)
    (iNIter : Iterator Pixel) (n i : nat) : bool :=
  match n with
  | O => false
  | S n' =>
      let tf := GetPixel iNIter i in
      if NotExactlyEquals tf objectValue then true
      else AnyNeighborWithBoundaryCondition objectValue iNIter n' (S i)
  end.

Fixpoint AnyNeighborInside (objectValue : Pixel)
    (iNIter : Iterator Pixel) (n i : nat) : bool :=
  match n with
  | O => false
  | S n' =>
      let '(tf, isInside) := GetPixel_IsInBounds iNIter i in
      if NotExactlyEquals tf objectValue && isInside then true
      else AnyNeighborInside objectValue iNIter n' (S i)
  end.

Definition IsObjectPixelOnBoundary (f : Filter) (iNIter : Iterator Pixel) : bool :=
  let s := (3 ^ ImageDimension f)%nat in
  if m_UseBoundaryCondition f
  then AnyNeighborWithBoundaryCondition (m_ObjectValue f) iNIter s 0
  else AnyNeighborInside (m_ObjectValue f) iNIter s 0.
End WithPixel.

Arguments Filter Pixel : clear implicits.

End ObjectMorphologyImageFilter.

(** ** VectorGradientMagnitudeImageFilter *)

Module VectorGradientMagnitudeImageFilter.

Section WithPixel.
Context {Pixel : Type}.

Record Filter := {
  ImageDimension : nat;
  m_Input : option (Image Pixel);
  m_Output : option (Image Pixel)
}.

Definition SetInput (f : Filter) (input : Image Pixel) : Filter :=
  {| ImageDimension := ImageDimension f;
     m_Input := Some input;
     m_Output := m_Output f |}.

(** [GenerateInputRequestedRegion]: as in the morphology filter, with the
    radius filled with 1 and a check of the output pointer. *)
Definition GenerateInputRequestedRegion
    (Superclass_GenerateInputRequestedRegion : Filter → Filter)
    (f : Filter) : Outcome Filter :=
  let f := Superclass_GenerateInputRequestedRegion f in
  match m_Input f, m_Output f with
  | Some inputPtr, Some outputPtr =>
      let inputRequestedRegion := m_RequestedRegion inputPtr in
      let r1 := replicate (ImageDimension f) 1 in
      let inputRequestedRegion := PadByRadius inputRequestedRegion r1 in
      match Crop inputRequestedRegion (m_LargestPossibleRegion inputPtr) with
      | Some cropped =>
          Returned (SetInput f (SetRequestedRegion inputPtr cropped))
      | None =>
          let inputPtr := SetRequestedRegion inputPtr inputRequestedRegion in
          Thrown (InvalidRequestedRegionError
                    "Requested region is (at least partially) outside the largest possible region."
                    (m_ObjectId inputPtr))
                 (SetInput f inputPtr)
      end
  | _, _ => Returned f
  end.
End WithPixel.

Arguments Filter Pixel : clear implicits.

End VectorGradientMagnitudeImageFilter.

(** ** NeighborhoodOperator and LaplacianOperator *)

Module NeighborhoodOperator.

Record Operator := { VDimension : N; m_Direction : N }.

(** A fresh operator has direction 0. *)
Definition Construct (dimension : N) : Operator :=
  {| VDimension := dimension; m_Direction := 0 |}.

Definition SetDirection (op : Operator) (direction : N) : Outcome Operator :=
  if decide (VDimension op ≤ direction)%N
  then Thrown (ExceptionObject
                 (" Can not set direction " +:+ pretty direction
                  +:+ " greater than dimensionality of neighborhood "
                  +:+ pretty (VDimension op)))
              op
  else Returned {| VDimension := VDimension op; m_Direction := direction |}.

Definition GetDirection (op : Operator) : N := m_Direction op.

End NeighborhoodOperator.

Module LaplacianOperator.

(** Modelled from the spec: [Neighborhood::Size] and
    [Neighborhood::GetStride] (itkNeighborhood.h is not part of the sources
    at hand): a neighborhood of radius r has 2r+1 entries per axis, stored
    row-major, axis 0 fastest. *)
Definition Size (radius : Coordinate) : Z := NeighborhoodIterator.NeighborhoodSize radius.

Definition GetStride (radius : Coordinate) (axis : nat) : Z :=
  default 0 (ComputeStrides ((λ r, 2 * r + 1) <$> radius) !! axis).

Section WithScalar.
(** The coefficient type with its arithmetic: [double] in the source. *)
Context {T : Type} (zero two : T) (add mul : T → T → T) (opp : T → T).

(** One round of the loop, for axis [i / 2]. *)
Definition Step (radius : Coordinate) (w : Z) (m_DerivativeScalings : list T)
    (state : list T * T) (axis : nat) : list T * T :=
  let '(coeffP, sum) := state in
  let stride := GetStride radius axis in
  let scaling := default zero (m_DerivativeScalings !! axis) in
  let hsq := mul scaling scaling in
  let coeffP := <[Z.to_nat (w `div` 2 + stride) := hsq]> coeffP in
  let coeffP := <[Z.to_nat (w `div` 2 - stride) := hsq]> coeffP in
  (coeffP, add sum (mul two hsq)).

Definition GenerateCoefficients (m_DerivativeScalings : list T) : list T :=
  let VDimension := length m_DerivativeScalings in
  let r := replicate VDimension 1 in
  let w := Size r in
  let coeffP := replicate (Z.to_nat w) zero in
  let '(coeffP, sum) :=
    fold_left (Step r w m_DerivativeScalings) (seq 0 VDimension) (coeffP, zero) in
  <[Z.to_nat (w `div` 2) := opp sum]> coeffP.

(** The coefficients and the running sum after the first [m] rounds of
    the loop of [GenerateCoefficients]. *)
Definition LoopState (m_DerivativeScalings : list T) (m : nat) : list T * T :=
  fold_left
    (Step (replicate (length m_DerivativeScalings) 1)
          (3 ^ Z.of_nat (length m_DerivativeScalings)) m_DerivativeScalings)
    (seq 0 m)
    (replicate (Z.to_nat (3 ^ Z.of_nat (length m_DerivativeScalings))) zero, zero).

(** The sum of a coefficient vector, added up in storage order. *)
Definition SumOfCoefficients (coeff : list T) : T := fold_left add coeff zero.
End WithScalar.

(** IEEE 754 binary64, the [double] of the source. *)
Definition double := spec_float.
Definition double_add : double → double → double := SFadd 53 1024.
Definition double_mul : double → double → double := SFmul 53 1024.
Definition double_opp : double → double := SFopp.
Definition double_zero : double := S754_zero false.
Definition double_one : double := S754_finite false 4503599627370496 (-52).
Definition double_two : double := S754_finite false 4503599627370496 (-51).

Definition GenerateCoefficients_double : list double → list double :=
  GenerateCoefficients double_zero double_two double_add double_mul double_opp.

(** The same computation in exact integer arithmetic. *)
Definition GenerateCoefficients_exact : list Z → list Z :=
  GenerateCoefficients 0 2 Z.add Z.mul Z.opp.

End LaplacianOperator.

(** ** Auxiliary definitions for the statements of Part II *)

(** Pixels of type [Z]: the integer pixel types, without their bounds. *)
#[global] Instance NumericTraits_Z : NumericTraits Z :=
  {| ZeroValue := 0; OneValue := 1; NumericTraits_eq_dec := Z.eq_dec;
     OneValue_ne_ZeroValue := Z.neq_sym 0 1 (Z.lt_neq 0 1 Z.lt_0_1) |}.

Definition OutcomeMap {A B : Type} (f : A → B) (o : Outcome A) : Outcome B :=
  match o with
  | Returned a => Returned (f a)
  | Thrown e a => Thrown e (f a)
  end.

(** What [GenerateInputRequestedRegion] does to the input image [input] of a
    filter with radius [radius]; [outcome] is the input pointer after the
    call, returned or thrown. *)
Definition PadCropSpec {Pixel : Type} (input : Image Pixel) (radius : Coordinate)
    (outcome : Outcome (option (Image Pixel))) : Prop :=
  let requested := m_RequestedRegion input in
  let largest := m_LargestPossibleRegion input in
  let padded := PadByRadius requested radius in
  m_Index padded = zip_with Z.sub (m_Index requested) radius ∧
  m_Size padded = zip_with (λ s r, s + 2 * r) (m_Size requested) radius ∧
  match outcome with
  | Returned input' =>
      ∃ cropped,
        input' = Some (SetRequestedRegion input cropped) ∧
        (∀ p, IsInside cropped p ↔ IsInside padded p ∧ IsInside largest p) ∧
        (∃ p, IsInside cropped p)
  | Thrown e input' =>
      (∀ p, ¬ (IsInside padded p ∧ IsInside largest p)) ∧
      input' = Some (SetRequestedRegion input padded) ∧
      ∃ description, e = InvalidRequestedRegionError description (m_ObjectId input)
  end.

(** The three coordinates at hand have the dimension of the image. *)
Definition SameDimension (requested largest : Region) (radius : Coordinate) : Prop :=
  length (m_Index requested) = length (m_Size requested) ∧
  length radius = length (m_Size requested) ∧
  length (m_Index largest) = length (m_Size requested) ∧
  length (m_Size largest) = length (m_Size requested).

Section CopyLoopAuxiliary.
Context `{NumericTraits Pixel}.

(** The body of the copy loop at one index, and the loop over a list of
    indices. *)
Definition CopyStep (objectValue : Pixel) (input output : Image Pixel)
    (idx : Coordinate) : Image Pixel :=
  if NotExactlyEquals (GetPixel output idx) objectValue
  then SetPixel output idx (GetPixel input idx)
  else output.

Definition CopyAll (objectValue : Pixel) (input : Image Pixel)
    (visited : list Coordinate) (output : Image Pixel) : Image Pixel :=
  fold_left (CopyStep objectValue input) visited output.

(** The output buffer has the geometry of the region [B]. *)
Definition BufferOf (B : Region) (img : Image Pixel) : Prop :=
  m_BufferedRegion img = B ∧ Z.of_nat (length (m_Buffer img)) = GetNumberOfPixels B.
End CopyLoopAuxiliary.

(** What a successful call of [GenerateInputRequestedRegion] leaves: the
    input requests a region that holds every requested index lying in the
    largest possible region, and nothing outside the largest possible
    region. *)
Definition RequestGranted {Pixel : Type} (input : Image Pixel)
    (outcome : Outcome (option (Image Pixel))) : Prop :=
  ∃ granted,
    outcome = Returned (Some (SetRequestedRegion input granted)) ∧
    (∀ p, IsInside (m_RequestedRegion input) p →
          IsInside (m_LargestPossibleRegion input) p → IsInside granted p) ∧
    (∀ p, IsInside granted p → IsInside (m_LargestPossibleRegion input) p).

(** The object a call leaves behind, whether it returned or threw. *)
Definition StateAfter {A : Type} (o : Outcome A) : A :=
  match o with
  | Returned a => a
  | Thrown _ a => a
  end.

(** The operators a program obtains from a fresh operator of dimension
    [dimension] by calls of [SetDirection], the failed ones included. *)
Inductive SetDirectionReachable (dimension : N) : NeighborhoodOperator.Operator → Prop :=
| Reachable_Construct :
    SetDirectionReachable dimension (NeighborhoodOperator.Construct dimension)
| Reachable_SetDirection (op : NeighborhoodOperator.Operator) (direction : N) :
    SetDirectionReachable dimension op →
    SetDirectionReachable dimension
      (StateAfter (NeighborhoodOperator.SetDirection op direction)).

(** ** VectorGradientMagnitudeImageFilter: the weights *)

Module VectorGradientMagnitudeWeights.

Section WithReal.
(** [TRealType] with what the filter does on it: the constant 1.0, the
    tests [x < 0] and [x == 0.0], [std::sqrt(x)] and [1.0 / x]. *)
Context {TRealType : Type} (one : TRealType).
Context (is_negative is_zero : TRealType → bool).
Context (sqrt reciprocal : TRealType → TRealType).

(** The members of the filter that hold weights, with the two template
    constants that size them. *)
Record Weights := {
  ImageDimension : nat;
  VectorDimension : nat;
  m_UseImageSpacing : bool;
  m_DerivativeWeights : list TRealType;
  m_ComponentWeights : list TRealType;
  m_SqrtComponentWeights : list TRealType
}.

Definition WithDerivativeWeights (w : Weights) (weights : list TRealType) : Weights :=
  {| ImageDimension := ImageDimension w;
     VectorDimension := VectorDimension w;
     m_UseImageSpacing := m_UseImageSpacing w;
     m_DerivativeWeights := weights;
     m_ComponentWeights := m_ComponentWeights w;
     m_SqrtComponentWeights := m_SqrtComponentWeights w |}.

Definition WithSqrtComponentWeights (w : Weights) (weights : list TRealType) : Weights :=
  {| ImageDimension := ImageDimension w;
     VectorDimension := VectorDimension w;
     m_UseImageSpacing := m_UseImageSpacing w;
     m_DerivativeWeights := m_DerivativeWeights w;
     m_ComponentWeights := m_ComponentWeights w;
     m_SqrtComponentWeights := weights |}.

Definition WithUseImageSpacing (w : Weights) (f : bool) : Weights :=
  {| ImageDimension := ImageDimension w;
     VectorDimension := VectorDimension w;
     m_UseImageSpacing := f;
     m_DerivativeWeights := m_DerivativeWeights w;
     m_ComponentWeights := m_ComponentWeights w;
     m_SqrtComponentWeights := m_SqrtComponentWeights w |}.

(** [SetUseImageSpacing]. *)
Definition SetUseImageSpacing (w : Weights) (f : bool) : Weights :=
  if bool_decide (m_UseImageSpacing w = f) then w
  else
    let w :=
      if negb f && m_UseImageSpacing w
      then WithDerivativeWeights w
             (fold_left (λ weights i, <[i := one]> weights)
                        (seq 0 (ImageDimension w)) (m_DerivativeWeights w))
      else w in
    WithUseImageSpacing w f.

(** The shape of the two weight loops of [BeforeThreadedGenerateData]: for
    each index in turn, entry i of [source] is tested, and either the loop
    is left at i by an exception or entry i of [target] is set to the value
    computed from it.  The answer is the target array and the index at which
    the loop threw, if it did. *)
Fixpoint CheckedFill (bad : TRealType → bool) (value : TRealType → TRealType)
    (source : list TRealType) (indices : list nat) (target : list TRealType)
  : list TRealType * option nat :=
  match indices with
  | [] => (target, None)
  | i :: indices' =>
      let x := default one (source !! i) in
      if bad x then (target, Some i)
      else CheckedFill bad value source indices' (<[i := value x]> target)
  end.

(** [BeforeThreadedGenerateData], as far as the weights go: the square
    roots of the component weights, then the derivative weights from the
    spacing of the input ([spacing], cast to [TRealType]).  The calls that
    follow in the function (work units, the cast filter) leave the weights
    alone. *)
Definition BeforeThreadedGenerateData (spacing : list TRealType) (w : Weights)
  : Outcome Weights :=
  match CheckedFill is_negative sqrt (m_ComponentWeights w)
          (seq 0 (VectorDimension w)) (m_SqrtComponentWeights w) with
  | (weights, Some _) =>
      Thrown (ExceptionObject "Component weights must be positive numbers")
             (WithSqrtComponentWeights w weights)
  | (weights, None) =>
      let w := WithSqrtComponentWeights w weights in
      if m_UseImageSpacing w
      then
        match CheckedFill is_zero reciprocal spacing
                (seq 0 (ImageDimension w)) (m_DerivativeWeights w) with
        | (weights, Some i) =>
            Thrown (ExceptionObject
                      ("Image spacing in dimension " +:+ pretty i +:+ " is zero."))
                   (WithDerivativeWeights w weights)
        | (weights, None) => Returned (WithDerivativeWeights w weights)
        end
      else Returned w
  end.
End WithReal.

Arguments Weights TRealType : clear implicits.

(** The operations for [TRealType = double]. *)
Definition double_is_negative (x : LaplacianOperator.double) : bool :=
  SFltb x LaplacianOperator.double_zero.

Definition double_is_zero (x : LaplacianOperator.double) : bool :=
  SFeqb x LaplacianOperator.double_zero.

Definition double_sqrt : LaplacianOperator.double → LaplacianOperator.double :=
  SFsqrt 53 1024.

Definition double_reciprocal (x : LaplacianOperator.double) : LaplacianOperator.double :=
  SFdiv 53 1024 LaplacianOperator.double_one x.

End VectorGradientMagnitudeWeights.

(** ** ImplicitManifoldNormalVectorFilter *)

Module ImplicitManifoldNormalVectorFilter.

(** The constants the constructor computes: [m_Indicator[j] = 1 << j],
    [m_ManifoldRadius[j] = 1] and [m_NumVertex = 1 << ImageDimension]. *)
Definition m_Indicator (j : nat) : Z := Z.shiftl 1 (Z.of_nat j).

Definition m_ManifoldRadius (ImageDimension : nat) : Coordinate :=
  replicate ImageDimension 1.

Definition m_NumVertex (ImageDimension : nat) : Z := Z.shiftl 1 (Z.of_nat ImageDimension).

(** The condition [counter & m_Indicator[k]]. *)
Definition BitOn (counter : Z) (k : nat) : bool :=
  negb (Z.land counter (m_Indicator k) =? 0).

Section InitializeNormalBandNode.
Context (ImageDimension : nat).

(** [stride[i] = it.GetStride(i)] and [center = it.Size() / 2], for the
    iterator of radius [m_ManifoldRadius] that [SetNormalBand] passes. *)
Definition stride (i : nat) : Z :=
  LaplacianOperator.GetStride (m_ManifoldRadius ImageDimension) i.

Definition center : Z := LaplacianOperator.Size (m_ManifoldRadius ImageDimension) `div` 2.

(** The loop over k: the position of the vertex [counter]; [skip] is the
    axis the loop leaves out, if it leaves out one. *)
Definition VertexPosition (counter : Z) (skip : option nat) : Z :=
  fold_left
    (λ position k,
       if bool_decide (skip ≠ Some k) && BitOn counter k
       then position + stride k else position)
    (seq 0 ImageDimension) center.

(** The values [counter] runs through. *)
Definition Counters : list Z :=
  Z.of_nat <$> seq 0 (Z.to_nat (m_NumVertex ImageDimension)).

(** The neighbors read for [normalvector[j]], in the order of the loop:
    the position of each, and whether its pixel is added ([true]) or
    subtracted. *)
Definition NormalVectorTerms (j : nat) : list (bool * Z) :=
  (λ counter, (BitOn counter j, VertexPosition counter None)) <$> Counters.

(** The neighbors read for [m_ManifoldNormal[i][j]]. *)
Definition ManifoldNormalTerms (i j : nat) : list (bool * Z) :=
  if bool_decide (i ≠ j)
  then (λ counter, (BitOn counter j, VertexPosition counter None))
         <$> filter (λ counter, BitOn counter i = false) Counters
  else (λ counter,
          let position := VertexPosition counter (Some i) in
          if BitOn counter i then (true, position + stride i)
          else (false, position - stride i)) <$> Counters.

Section WithNodeValue.
(** [NodeValueType] and the pixels of the neighborhood at hand. *)
Context {NodeValueType : Type} (zero : NodeValueType).
Context (add sub : NodeValueType → NodeValueType → NodeValueType).
Context (GetPixel : Z → NodeValueType).

Definition Accumulate (terms : list (bool * Z)) : NodeValueType :=
  fold_left
    (λ (sum : NodeValueType) (term : bool * Z),
       if term.1 then add sum (GetPixel term.2) else sub sum (GetPixel term.2))
    terms zero.

(** [normalvector[j]] before it is normalised, and [derivative] before it
    is scaled. *)
Definition normalvector (j : nat) : NodeValueType := Accumulate (NormalVectorTerms j).

Definition derivative (i j : nat) : NodeValueType := Accumulate (ManifoldNormalTerms i j).
End WithNodeValue.
End InitializeNormalBandNode.

End ImplicitManifoldNormalVectorFilter.

(* ===================================================================== *)
(** * Part II: lemmas and theorems                                         *)
(* ===================================================================== *)

(** Splitting of conjunctions on both sides, then the usual closers. *)
Ltac split_all :=
  repeat match goal with
         | H : _ ∧ _ |- _ => destruct H
         | |- _ ∧ _ => split
         end;
  try (assumption || discriminate || contradiction || tauto || congruence).

(** ** Row-major addressing *)

Section RowMajorAddressing.
Import ImageRandomNonRepeatingConstIteratorWithIndex.


Lemma Dot_StridesFrom (s : Z) (ix sz idx : Coordinate) :
  Dot (zip_with Z.sub idx ix) (StridesFrom s sz) = s * RowMajor (zip ix sz) idx.
Proof.
  revert s ix idx. induction sz as [|n sz IH]; intros s ix idx.
  - destruct ix, idx; simpl; unfold Dot; simpl; try lia.
    all: rewrite ?zip_with_nil_r; simpl; lia.
  - destruct ix as [|i ix], idx as [|x idx]; simpl; unfold Dot; simpl; try lia.
    fold (Dot (zip_with Z.sub idx ix) (StridesFrom (s * n) sz)).
    rewrite IH. lia.
Qed.

Lemma ComputeOffset_RowMajor (B : Region) (idx : Coordinate) :
  ComputeOffset B idx = RowMajor (Axes B) idx.
Proof.
  unfold ComputeOffset, ComputeStrides, Axes. rewrite Dot_StridesFrom. lia.
Qed.

Lemma Volume_zip (ix sz : Coordinate) :
  length ix = length sz → Volume (zip ix sz) = foldr Z.mul 1 sz.
Proof.
  revert ix. induction sz as [|n sz IH]; intros [|i ix] Hlen; simpl in *; try lia.
  unfold Volume in *. simpl. rewrite IH; lia.
Qed.

Lemma RowMajor_range (axes : list (Z * Z)) (idx : Coordinate) :
  Forall2 InAxis axes idx → 0 ≤ RowMajor axes idx < Volume axes.
Proof.
  induction 1 as [|ax x axes idx Hx _ IH]; unfold Volume; simpl; [lia|].
  fold (Volume axes). unfold InAxis in Hx. nia.
Qed.

Lemma DecodePosition_RowMajor (ix sz idx : Coordinate) :
  Forall2 InAxis (zip ix sz) idx →
  length ix = length sz →
  DecodePosition (RowMajor (zip ix sz) idx) sz ix = Some idx.
Proof.
  revert ix idx. induction sz as [|n sz IH]; intros [|i ix] idx Hin Hlen;
    simpl in *; try lia.
  - by inversion Hin.
  - inversion Hin as [|ax x axes idx' Hx Hrest]; subst. simpl.
    unfold InAxis in Hx. simpl in Hx.
    pose proof (RowMajor_range _ _ Hrest) as Hr.
    set (k := RowMajor (zip ix sz) idx') in *.
    assert (Hrem : ((x - i) + n * k) `rem` n = x - i).
    { rewrite Z.rem_mod_nonneg by nia.
      replace (x - i + n * k) with ((x - i) + k * n) by lia.
      rewrite Z_mod_plus_full. apply Z.mod_small. lia. }
    destruct (decide (n = 0)) as [->|Hn]; [lia|].
    rewrite Hrem.
    replace (x - i + n * k - (x - i)) with (k * n) by lia.
    rewrite Z.quot_mul by done.
    unfold k. rewrite IH by (done || lia). simpl. f_equal. f_equal. lia.
Qed.

Lemma DecodePosition_defined (sz : Coordinate) :
  Forall (λ n, n ≠ 0) sz →
  ∀ (position : Z) (ix : Coordinate), is_Some (DecodePosition position sz ix).
Proof.
  induction 1 as [|n sz Hn _ IH]; intros position [|i ix]; simpl; try by eexists.
  rewrite decide_False by done.
  destruct (IH ((position - position `rem` n) `quot` n) ix) as [rest ->].
  by eexists.
Qed.

Lemma Sizes_of_inhabited (ix sz idx : Coordinate) :
  length ix = length sz → Forall2 InAxis (zip ix sz) idx →
  Forall (λ n, n ≠ 0) sz.
Proof.
  revert ix idx. induction sz as [|n sz IH]; intros [|i ix] idx Hlen Hin;
    simpl in *; try lia; [constructor|].
  inversion Hin as [|? x ? q Hx Hq]; subst. unfold InAxis in Hx. simpl in Hx.
  constructor; [lia|]. apply (IH ix q); [lia|done].
Qed.

(** C3. Round trip of the buffer addressing: for every index inside the
    buffered region, decoding its row-major offset with the residual / divide
    loop of [UpdatePosition] and [SetPriorityImage] (modulo and division by
    the per-axis sizes, axis 0 first, adding the begin index) gives the index
    back; so [UpdatePosition] lands on that index when the permutation
    yields its offset, and [SetPriorityImage] runs through and reads the
    priority image at that index for the pixel numbered by its offset. *)
Theorem ComputeIndex_ComputeOffset_roundtrip (B : Region) (idx : Coordinate) :
  length (m_Index B) = length (m_Size B) →
  IsInside B idx →
  DecodePosition (ComputeOffset B idx) (m_Size B) (m_Index B) = Some idx ∧
  (∀ it : Iterator,
     m_Region it = B → m_BeginIndex it = m_Index B →
     m_NumberOfSamplesRequested it ≠ 0 →
     m_Permutation it
       !! Z.to_nat (m_NumberOfSamplesDone it `rem` m_NumberOfSamplesRequested it)
     = Some (ComputeOffset B idx) →
     ∃ it', UpdatePosition it = Some it' ∧
            m_PositionIndex it' = idx ∧
            m_Position it' = ComputeOffset (m_BufferedRegion it) idx) ∧
  (∀ (Priority : Type) (priorityImage : Coordinate → Priority) (it : Iterator),
     m_Region it = B → m_BeginIndex it = m_Index B →
     m_NumberOfPixelsInRegion it = GetNumberOfPixels B →
     ∃ priorities : list Priority,
       SetPriorityImage it priorityImage = Some priorities ∧
       priorities !! Z.to_nat (ComputeOffset B idx) = Some (priorityImage idx)).
Proof.
  intros Hlen Hin.
  assert (Hdec : DecodePosition (ComputeOffset B idx) (m_Size B) (m_Index B) = Some idx).
  { rewrite ComputeOffset_RowMajor. by apply DecodePosition_RowMajor. }
  split; [done|split].
  - intros it HR Hbegin Hreq Hperm. unfold UpdatePosition.
    destruct (decide (m_NumberOfSamplesRequested it = 0)); [done|].
    rewrite Hperm. simpl. rewrite HR, Hbegin, Hdec. simpl. eauto.
  - intros Priority priorityImage it HR Hbegin HN.
    pose proof (Sizes_of_inhabited _ _ _ Hlen Hin) as Hsizes.
    assert (Hsome : is_Some (SetPriorityImage it priorityImage)).
    { unfold SetPriorityImage. apply mapM_is_Some, Forall_forall.
      intros pixel _. unfold compose. rewrite HR, Hbegin.
      destruct (DecodePosition_defined _ Hsizes (Z.of_nat pixel) (m_Index B))
        as [positionIndex ->].
      by eexists. }
    destruct Hsome as [priorities Hset]. exists priorities. split; [done|].
    unfold SetPriorityImage in Hset. apply mapM_Some in Hset.
    pose proof (RowMajor_range _ _ Hin) as Hrange.
    rewrite <- ComputeOffset_RowMajor in Hrange.
    assert (HV : Volume (Axes B) = GetNumberOfPixels B).
    { unfold Axes, GetNumberOfPixels. by rewrite Volume_zip. }
    set (n := Z.to_nat (ComputeOffset B idx)) in *.
    assert (Hseq : seq 0 (Z.to_nat (m_NumberOfPixelsInRegion it)) !! n = Some n).
    { rewrite lookup_seq. split; [done|]. unfold n. lia. }
    destruct (Forall2_lookup_l _ _ _ _ _ Hset Hseq) as (y & Hy & Hfy).
    rewrite Hy. rewrite HR, Hbegin in Hfy.
    replace (Z.of_nat n) with (ComputeOffset B idx) in Hfy by (unfold n; lia).
    rewrite Hdec in Hfy. simpl in Hfy. congruence.
Qed.

(** C3 at work on the index (3,5) of the 4 x 3 region at (2,4), whose offset
    is 5: the decoding, and [SetPriorityImage] over that region with the
    index itself as priority. *)
Lemma ComputeIndex_ComputeOffset_roundtrip_witness :
  let B := MakeRegion [2; 4] [4; 3] in
  let it := Construct (MakeRegion [0; 0] [10; 10]) B [] in
  ComputeOffset B [3; 5] = 5 ∧
  DecodePosition (ComputeOffset B [3; 5]) [4; 3] [2; 4] = Some [3; 5] ∧
  ∃ priorities : list Coordinate,
    SetPriorityImage it (λ index, index) = Some priorities ∧
    priorities !! Z.to_nat (ComputeOffset B [3; 5]) = Some [3; 5].
Proof.
  intros B it. split; [reflexivity|].
  assert (Hin : IsInside B [3; 5]).
  { unfold IsInside, InAxis. simpl. repeat constructor; simpl; lia. }
  split.
  - apply (ComputeIndex_ComputeOffset_roundtrip B [3; 5] eq_refl Hin).
  - apply (proj2 (proj2 (ComputeIndex_ComputeOffset_roundtrip B [3; 5] eq_refl Hin))
             Coordinate (λ index, index) it); reflexivity.
Defined.

End RowMajorAddressing.

(** ** Region iterator *)

Section RegionIteratorProofs.
Import ImageRegionIterator.

Lemma Axes_origin_inside (ix sz : Coordinate) :
  length ix = length sz → Forall (λ n, 0 < n) sz →
  Forall2 InAxis (zip ix sz) ix.
Proof.
  revert ix. induction sz as [|n sz IH]; intros [|i ix] Hlen Hpos;
    simpl in *; try lia; [constructor|].
  inversion Hpos; subst. constructor; [unfold InAxis; simpl; lia|].
  apply IH; [lia|done].
Qed.

Lemma RowMajor_origin (ix sz : Coordinate) : RowMajor (zip ix sz) ix = 0.
Proof.
  revert sz. induction ix as [|i ix IH]; intros [|n sz]; simpl; try lia.
  rewrite IH. lia.
Qed.

Lemma Volume_pos (axes : list (Z * Z)) (idx : Coordinate) :
  Forall2 InAxis axes idx → 0 < Volume axes.
Proof. intros Hin. pose proof (RowMajor_range _ _ Hin). lia. Qed.

(** One step of the iterator raises the row-major offset by exactly one and
    stays in the region; the last axis rolls over at the last offset only. *)
Lemma NextIndex_spec (axes : list (Z * Z)) (idx : Coordinate) :
  Forall2 InAxis axes idx →
  match NextIndex axes idx with
  | Some idx' => Forall2 InAxis axes idx' ∧ RowMajor axes idx' = RowMajor axes idx + 1
  | None => RowMajor axes idx = Volume axes - 1
  end.
Proof.
  induction 1 as [|ax x axes idx Hx Hrest IH]; simpl; [done|].
  unfold InAxis in Hx.
  destruct (decide (x + 1 < ax.1 + ax.2)) as [Hlt|Hge].
  - split; [constructor; [unfold InAxis; lia|done]|simpl; lia].
  - destruct (NextIndex axes idx) as [rest|]; simpl.
    + destruct IH as [Hin Hrm]. split.
      * constructor; [unfold InAxis; lia|done].
      * simpl. rewrite Hrm. nia.
    + unfold Volume. simpl. fold (Volume axes). rewrite IH. nia.
Qed.

Lemma Walk_AtEnd (fuel : nat) (R : Region) :
  Walk fuel {| m_Region := R; m_State := AtEnd |}
  = ([], {| m_Region := R; m_State := AtEnd |}).
Proof. by destruct fuel. Qed.

Lemma Walk_Positioned (fuel : nat) (R : Region) (idx : Coordinate) :
  Walk (S fuel) {| m_Region := R; m_State := Positioned idx |}
  = let '(visited, it') :=
      Walk fuel {| m_Region := R;
                   m_State := match NextIndex (Axes R) idx with
                              | Some idx' => Positioned idx'
                              | None => AtEnd
                              end |} in
    (idx :: visited, it').
Proof. done. Qed.

(** The walk from an index, for an iterator that steps as on [axes]: it
    ends, after the positions from the index to the last one of [axes]. *)
Lemma Walk_from_stepping (R : Region) (axes : list (Z * Z)) (n : nat) :
  (∀ idx, Forall2 InAxis axes idx → NextIndex (Axes R) idx = NextIndex axes idx) →
  ∀ idx, Forall2 InAxis axes idx →
    Volume axes - RowMajor axes idx = Z.of_nat (S n) →
    ∃ visited,
      (∀ fuel, (S n < fuel)%nat →
         Walk fuel {| m_Region := R; m_State := Positioned idx |}
         = (visited, {| m_Region := R; m_State := AtEnd |})) ∧
      length visited = S n ∧
      (∀ j a, visited !! j = Some a →
         Forall2 InAxis axes a ∧
         RowMajor axes a = RowMajor axes idx + Z.of_nat j) ∧
      (∀ j a b, visited !! j = Some a → visited !! S j = Some b →
         NextIndex (Axes R) a = Some b).
Proof.
  intros Hstep.
  induction n as [|n IH]; intros idx Hin Hleft.
  - exists [idx]. pose proof (NextIndex_spec _ _ Hin) as Hnext.
    rewrite <- Hstep in Hnext by done.
    destruct (NextIndex (Axes R) idx) as [idx'|] eqn:Hn.
    { destruct Hnext as [Hin' Hrm]. pose proof (RowMajor_range _ _ Hin'). lia. }
    split; [|split; [done|split]].
    + intros [|fuel] Hfuel; [lia|].
      by rewrite Walk_Positioned, Hn, Walk_AtEnd.
    + intros [|j] a Ha; simpl in Ha; [|done].
      injection Ha as <-. split; [done|lia].
    + intros [|j] a b Ha Hb; simpl in *; done.
  - pose proof (NextIndex_spec _ _ Hin) as Hnext.
    rewrite <- Hstep in Hnext by done.
    destruct (NextIndex (Axes R) idx) as [idx'|] eqn:Hn; [|lia].
    destruct Hnext as [Hin' Hrm].
    destruct (IH idx' Hin') as (visited & Hwalk & Hlen & Hvis & Hcons); [lia|].
    assert (Hhead : visited !! 0%nat = Some idx').
    { specialize (Hwalk (S (S (S n))) ltac:(lia)).
      rewrite Walk_Positioned in Hwalk.
      destruct (Walk (S (S n)) _) as [l it'] in Hwalk.
      by injection Hwalk as <- _. }
    exists (idx :: visited). split; [|split; [simpl; lia|split]].
    + intros [|fuel] Hfuel; [lia|].
      rewrite Walk_Positioned, Hn, Hwalk by lia. done.
    + intros [|j] a Ha; simpl in Ha.
      * injection Ha as <-. split; [done|lia].
      * destruct (Hvis j a Ha) as [Ha1 Ha2]. split; [done|lia].
    + intros [|j] a b Ha Hb; simpl in *.
      * injection Ha as <-. congruence.
      * by eapply Hcons.
Qed.

Lemma Walk_from (R : Region) (n : nat) :
  ∀ idx, Forall2 InAxis (Axes R) idx →
    Volume (Axes R) - RowMajor (Axes R) idx = Z.of_nat (S n) →
    ∃ visited,
      (∀ fuel, (S n < fuel)%nat →
         Walk fuel {| m_Region := R; m_State := Positioned idx |}
         = (visited, {| m_Region := R; m_State := AtEnd |})) ∧
      length visited = S n ∧
      (∀ j a, visited !! j = Some a →
         Forall2 InAxis (Axes R) a ∧
         RowMajor (Axes R) a = RowMajor (Axes R) idx + Z.of_nat j) ∧
      (∀ j a b, visited !! j = Some a → visited !! S j = Some b →
         NextIndex (Axes R) a = Some b).
Proof. by apply Walk_from_stepping. Qed.

Lemma Construct_positive (R : Region) :
  Forall (λ n, 0 < n) (m_Size R) →
  Construct R = {| m_Region := R; m_State := Positioned (m_Index R) |}.
Proof. intros Hpos. unfold Construct, GoToBegin. simpl. by rewrite decide_True. Qed.

Lemma Construct_empty (R : Region) :
  ¬ Forall (λ n, 0 < n) (m_Size R) →
  Construct R = {| m_Region := R; m_State := AtEnd |}.
Proof. intros Hpos. unfold Construct, GoToBegin. simpl. by rewrite decide_False. Qed.

Lemma GoToBegin_Construct (R : Region) : GoToBegin (Construct R) = Construct R.
Proof. done. Qed.

(** A region with an axis without extent holds no index and no pixel. *)
Lemma NoIndex_of_empty_size (ix sz : Coordinate) :
  length ix = length sz → ¬ Forall (λ n, 0 < n) sz →
  ∀ p, ¬ Forall2 InAxis (zip ix sz) p.
Proof.
  revert ix. induction sz as [|n sz IH]; intros [|i ix] Hlen Hsome p Hp;
    simpl in *; try lia.
  - apply Hsome. constructor.
  - inversion Hp as [|? x ? q Hx Hq]; subst. unfold InAxis in Hx. simpl in Hx.
    apply (IH ix ltac:(lia)) with (p := q); [|done].
    intros Hall. apply Hsome. constructor; [lia|done].
Qed.

Lemma NoPixel_of_empty_size (sz : Coordinate) :
  Forall (λ n, 0 ≤ n) sz → ¬ Forall (λ n, 0 < n) sz → foldr Z.mul 1 sz = 0.
Proof.
  induction 1 as [|n sz Hn _ IH]; intros Hsome; simpl.
  - destruct Hsome. constructor.
  - destruct (decide (n = 0)) as [->|Hne]; [lia|].
    rewrite IH; [lia|]. intros Hall. apply Hsome. constructor; [lia|done].
Qed.

(** The walk over any region ends. *)
Lemma Walk_terminates (R : Region) :
  length (m_Index R) = length (m_Size R) →
  ∃ (fuel0 : nat) (visited : list Coordinate),
    ∀ fuel, (fuel0 ≤ fuel)%nat →
      Walk fuel (Construct R) = (visited, {| m_Region := R; m_State := AtEnd |}).
Proof.
  intros Hlen.
  destruct (decide (Forall (λ n, 0 < n) (m_Size R))) as [Hpos|Hempty].
  - pose proof (Axes_origin_inside _ _ Hlen Hpos) as Hin. fold (Axes R) in Hin.
    pose proof (RowMajor_range _ _ Hin) as Hrange.
    destruct (Walk_from R (Z.to_nat (Volume (Axes R) - RowMajor (Axes R) (m_Index R)) - 1)
                (m_Index R) Hin) as (visited & Hwalk & _); [lia|].
    eexists _, visited. intros fuel Hfuel. rewrite Construct_positive by done.
    apply Hwalk. exact Hfuel.
  - exists 0%nat, []. intros fuel _. rewrite Construct_empty by done.
    apply Walk_AtEnd.
Qed.

Lemma NoDup_of_injective_measure {A : Type} (f : A → Z) (l : list A) :
  (∀ j a, l !! j = Some a → f a = Z.of_nat j) → NoDup l.
Proof.
  intros Hf. apply NoDup_alt. intros i j a Hi Hj.
  apply Hf in Hi, Hj. lia.
Qed.

(** C2. For every region (index and size of one dimension, no size
    negative), the walk from [GoToBegin] until [IsAtEnd] ends, and visits
    exactly [GetNumberOfPixels] positions, none for a region with an axis
    without extent, each within the region and each once, in strictly
    increasing row-major order: the n-th position visited has row-major
    offset n, and each position is the [NextIndex] of the one before (+1 on
    the fastest axis, with carry into the higher axes on rollover). *)
Theorem RegionIterator_visits_row_major (R : Region) :
  length (m_Index R) = length (m_Size R) →
  Forall (λ n, 0 ≤ n) (m_Size R) →
  ∃ visited,
    (∀ fuel, (Z.to_nat (GetNumberOfPixels R) < fuel)%nat →
       let run := Walk fuel (GoToBegin (Construct R)) in
       run.1 = visited ∧ IsAtEnd run.2 = true) ∧
    Z.of_nat (length visited) = GetNumberOfPixels R ∧
    (∀ n idx, visited !! n = Some idx →
       IsInside R idx ∧ ComputeOffset R idx = Z.of_nat n) ∧
    NoDup visited ∧
    (∀ n a b, visited !! n = Some a → visited !! S n = Some b →
       NextIndex (Axes R) a = Some b).
Proof.
  intros Hlen Hnonneg. rewrite GoToBegin_Construct.
  destruct (decide (Forall (λ n, 0 < n) (m_Size R))) as [Hpos|Hempty].
  - pose proof (Axes_origin_inside _ _ Hlen Hpos) as Hin. fold (Axes R) in Hin.
    pose proof (RowMajor_range _ _ Hin) as Hrange.
    pose proof (RowMajor_origin (m_Index R) (m_Size R)) as H0. fold (Axes R) in H0.
    assert (HN : GetNumberOfPixels R = Volume (Axes R)).
    { unfold GetNumberOfPixels, Axes. by rewrite Volume_zip. }
    destruct (Walk_from R (Z.to_nat (Volume (Axes R)) - 1) (m_Index R) Hin)
      as (visited & Hwalk & Hlength & Hvis & Hcons); [lia|].
    exists visited. split; [|split; [|split; [|split]]].
    + intros fuel Hfuel. rewrite Construct_positive by done.
      rewrite Hwalk by lia. done.
    + lia.
    + intros n idx Hn. destruct (Hvis n idx Hn) as [Ha Hb].
      split; [done|]. rewrite ComputeOffset_RowMajor. lia.
    + apply (NoDup_of_injective_measure (RowMajor (Axes R))).
      intros j a Ha. destruct (Hvis j a Ha). lia.
    + done.
  - exists []. split; [|split; [|split; [|split]]].
    + intros fuel Hfuel. rewrite Construct_empty by done.
      by rewrite Walk_AtEnd.
    + unfold GetNumberOfPixels. by rewrite NoPixel_of_empty_size.
    + intros n idx Hn. done.
    + constructor.
    + intros n a b Ha. done.
Qed.

(** C2 at work: the 2 x 3 region at (1,1) is walked in row-major order, and
    the region of size 2 x 0 at (3,4) is not entered. *)
Lemma RegionIterator_visits_row_major_witness :
  Walk 7 (GoToBegin (Construct (MakeRegion [1; 1] [2; 3])))
  = ([[1; 1]; [2; 1]; [1; 2]; [2; 2]; [1; 3]; [2; 3]],
     {| m_Region := MakeRegion [1; 1] [2; 3]; m_State := AtEnd |}) ∧
  Walk 1 (GoToBegin (Construct (MakeRegion [3; 4] [2; 0])))
  = ([], {| m_Region := MakeRegion [3; 4] [2; 0]; m_State := AtEnd |}) ∧
  (∃ visited,
     (∀ fuel, (6 < fuel)%nat →
        let run := Walk fuel (GoToBegin (Construct (MakeRegion [1; 1] [2; 3]))) in
        run.1 = visited ∧ IsAtEnd run.2 = true) ∧
     Z.of_nat (length visited) = 6 ∧
     (∀ n idx, visited !! n = Some idx →
        IsInside (MakeRegion [1; 1] [2; 3]) idx ∧
        ComputeOffset (MakeRegion [1; 1] [2; 3]) idx = Z.of_nat n) ∧
     NoDup visited ∧
     (∀ n a b, visited !! n = Some a → visited !! S n = Some b →
        NextIndex (Axes (MakeRegion [1; 1] [2; 3])) a = Some b)) ∧
  (∃ visited,
     (∀ fuel, (0 < fuel)%nat →
        let run := Walk fuel (GoToBegin (Construct (MakeRegion [3; 4] [2; 0]))) in
        run.1 = visited ∧ IsAtEnd run.2 = true) ∧
     Z.of_nat (length visited) = 0 ∧
     (∀ n idx, visited !! n = Some idx →
        IsInside (MakeRegion [3; 4] [2; 0]) idx ∧
        ComputeOffset (MakeRegion [3; 4] [2; 0]) idx = Z.of_nat n) ∧
     NoDup visited ∧
     (∀ n a b, visited !! n = Some a → visited !! S n = Some b →
        NextIndex (Axes (MakeRegion [3; 4] [2; 0])) a = Some b)).
Proof.
  split; [reflexivity|]. split; [reflexivity|]. split.
  - apply (RegionIterator_visits_row_major (MakeRegion [1; 1] [2; 3])).
    + reflexivity.
    + repeat constructor; lia.
  - apply (RegionIterator_visits_row_major (MakeRegion [3; 4] [2; 0])).
    + reflexivity.
    + repeat constructor; lia.
Defined.

End RegionIteratorProofs.

(** ** Region decomposition into faces *)

Section FacesProofs.
Import NeighborhoodAlgorithm.

Lemma Axes_RegionOfAxes (axes : list (Z * Z)) : Axes (RegionOfAxes axes) = axes.
Proof. unfold Axes, RegionOfAxes. simpl. apply zip_fst_snd. Qed.

Lemma IsInside_RegionOfAxes (axes : list (Z * Z)) (p : Coordinate) :
  IsInside (RegionOfAxes axes) p ↔ Forall2 InAxis axes p.
Proof. unfold IsInside. by rewrite Axes_RegionOfAxes. Qed.

Lemma axis_split (ax b : Z * Z) (r x : Z) :
  (InAxis (LowSlab ax b r) x → InAxis ax x ∧ ¬ InAxis (HighSlab ax b r) x) ∧
  (InAxis (HighSlab ax b r) x → InAxis ax x) ∧
  (InAxis (InteriorSpan ax b r) x ↔
     InAxis ax x ∧ ¬ InAxis (LowSlab ax b r) x ∧ ¬ InAxis (HighSlab ax b r) x) ∧
  (InAxis (InteriorSpan ax b r) x ↔ InAxis ax x ∧ InAxis (ShrinkAxis b r) x).
Proof.
  unfold InAxis, LowSlab, HighSlab, InteriorSpan, ShrinkAxis, SpanEnd, SpanBegin.
  simpl. lia.
Qed.

Lemma Forall2_app_same_length {A B : Type} (P : A → B → Prop)
    (l1 l2 : list A) (k1 k2 : list B) :
  length l1 = length k1 →
  Forall2 P (l1 ++ l2) (k1 ++ k2) ↔ Forall2 P l1 k1 ∧ Forall2 P l2 k2.
Proof.
  intros Hlen. split; [by apply Forall2_app_inv|].
  intros [H1 H2]. by apply Forall2_app.
Qed.

Lemma BoundarySlabs_dim (axes : list (Z * Z)) :
  ∀ (bounds : list (Z * Z)) (radius : Coordinate) (processed : list (Z * Z))
    (n : nat) (F : Region),
    BoundarySlabs processed axes bounds radius !! n = Some F →
    length (Axes F) = (length processed + length axes)%nat.
Proof.
  induction axes as [|ax axes IH]; intros [|b bounds] [|r radius] processed n F HF;
    simpl in *; try done.
  destruct n as [|[|n]]; simpl in HF.
  - injection HF as <-. rewrite Axes_RegionOfAxes, length_app. done.
  - injection HF as <-. rewrite Axes_RegionOfAxes, length_app. done.
  - apply IH in HF. rewrite length_app in HF. simpl in HF. lia.
Qed.

Lemma BoundarySlabs_lookup (axes : list (Z * Z)) :
  ∀ (bounds : list (Z * Z)) (radius : Coordinate) (processed : list (Z * Z))
    (pre p : Coordinate) (n : nat) (F : Region),
    length processed = length pre →
    BoundarySlabs processed axes bounds radius !! n = Some F →
    (IsInside F (pre ++ p) ↔
       Forall2 InAxis processed pre ∧ Forall2 InAxis axes p ∧
       SlabIndexOf axes bounds radius p = Some n).
Proof.
  induction axes as [|ax axes IH];
    intros [|b bounds] [|r radius] processed pre p n F Hpre HF; simpl in *; try done.
  destruct p as [|x p].
  { split; [|intros (_ & Hp & _); inversion Hp].
    intros Hin. exfalso. apply Forall2_length in Hin.
    apply (BoundarySlabs_dim (ax :: axes) (b :: bounds) (r :: radius)) in HF.
    rewrite length_app in Hin. simpl in HF, Hin. lia. }
  destruct (axis_split ax b r x) as (Hlow & Hhigh & Hint & _).
  destruct n as [|[|n]]; simpl in HF.
  - injection HF as <-. rewrite IsInside_RegionOfAxes.
    rewrite Forall2_app_same_length by done.
    rewrite !Forall2_cons_iff.
    destruct (decide (InAxis (LowSlab ax b r) x)) as [Hl|Hl];
      [|destruct (decide (InAxis (HighSlab ax b r) x));
        [|destruct (SlabIndexOf axes bounds radius p); simpl]];
      split; intros; split_all.
  - injection HF as <-. rewrite IsInside_RegionOfAxes.
    rewrite Forall2_app_same_length by done.
    rewrite !Forall2_cons_iff.
    destruct (decide (InAxis (LowSlab ax b r) x)) as [Hl|Hl];
      [|destruct (decide (InAxis (HighSlab ax b r) x));
        [|destruct (SlabIndexOf axes bounds radius p); simpl]];
      split; intros; split_all.
  - replace (pre ++ x :: p) with ((pre ++ [x]) ++ p) by (by rewrite <- app_assoc).
    rewrite (IH bounds radius (processed ++ [InteriorSpan ax b r]) (pre ++ [x]) p n F);
      [| rewrite !length_app; simpl; lia | done].
    rewrite Forall2_app_same_length by done.
    rewrite !Forall2_cons_iff.
    destruct (decide (InAxis (LowSlab ax b r) x)) as [Hl|Hl];
      [|destruct (decide (InAxis (HighSlab ax b r) x));
        [|destruct (SlabIndexOf axes bounds radius p); simpl]];
      split; intros; split_all; try constructor.
Qed.

Lemma BoundarySlabs_defined (axes : list (Z * Z)) :
  ∀ (bounds : list (Z * Z)) (radius : Coordinate) (processed : list (Z * Z))
    (p : Coordinate) (n : nat),
    SlabIndexOf axes bounds radius p = Some n →
    is_Some (BoundarySlabs processed axes bounds radius !! n).
Proof.
  induction axes as [|ax axes IH];
    intros [|b bounds] [|r radius] processed [|x p] n Hn; simpl in *; try done.
  destruct (decide (InAxis (LowSlab ax b r) x)); [injection Hn as <-; by eexists|].
  destruct (decide (InAxis (HighSlab ax b r) x)); [injection Hn as <-; by eexists|].
  destruct (SlabIndexOf axes bounds radius p) as [m|] eqn:Hm; simpl in Hn; [|done].
  injection Hn as <-. simpl. by eapply IH.
Qed.

(** The interior spans hold the indices of the region that no slab takes. *)
Lemma InteriorSpans_inside (axes : list (Z * Z)) :
  ∀ (bounds : list (Z * Z)) (radius p : Coordinate),
    length bounds = length axes → length radius = length axes →
    (Forall2 InAxis (InteriorSpans axes bounds radius) p ↔
       Forall2 InAxis axes p ∧ SlabIndexOf axes bounds radius p = None).
Proof.
  induction axes as [|ax axes IH]; intros [|b bounds] [|r radius] p Hb Hr;
    simpl in *; try lia.
  - split; [intros Hp; by inversion Hp|intros [Hp _]; by inversion Hp].
  - destruct p as [|x p].
    { split; [intros Hp; inversion Hp|intros [Hp _]; inversion Hp]. }
    destruct (axis_split ax b r x) as (Hlow & Hhigh & Hint & _).
    rewrite !Forall2_cons_iff, IH by lia.
    destruct (decide (InAxis (LowSlab ax b r) x)) as [Hl|Hl];
      [|destruct (decide (InAxis (HighSlab ax b r) x));
        [|destruct (SlabIndexOf axes bounds radius p); simpl]];
      split; intros; split_all.
Qed.

(** They are the indices of the region whose window fits in the bounds. *)
Lemma InteriorSpans_shrunk (axes : list (Z * Z)) :
  ∀ (bounds : list (Z * Z)) (radius p : Coordinate),
    length bounds = length axes → length radius = length axes →
    (Forall2 InAxis (InteriorSpans axes bounds radius) p ↔
       Forall2 InAxis axes p ∧ Forall2 InAxis (zip_with ShrinkAxis bounds radius) p).
Proof.
  induction axes as [|ax axes IH]; intros [|b bounds] [|r radius] p Hb Hr;
    simpl in *; try lia.
  - split; [intros Hp; by inversion Hp|intros [Hp _]; by inversion Hp].
  - destruct p as [|x p].
    { split; [intros Hp; inversion Hp|intros [Hp _]; inversion Hp]. }
    destruct (axis_split ax b r x) as (_ & _ & _ & Hshrink).
    rewrite !Forall2_cons_iff, IH by lia.
    split; intros; split_all.
Qed.

Lemma NoIndex_of_empty_axis (axes : list (Z * Z)) :
  Exists (λ ax, ax.2 ≤ 0) axes → ∀ p, ¬ Forall2 InAxis axes p.
Proof.
  induction 1 as [ax axes Hax|ax axes _ IH]; intros p Hp;
    inversion Hp as [|? x ? q Hx Hq]; subst.
  - unfold InAxis in Hx. lia.
  - by eapply IH.
Qed.

Lemma Window_inside (axes : list (Z * Z)) :
  ∀ (radius c o : Coordinate),
    length axes = length radius →
    Forall2 InAxis (zip_with ShrinkAxis axes radius) c →
    Forall2 (λ r o, - r ≤ o ≤ r) radius o →
    Forall2 InAxis axes (zip_with Z.add c o).
Proof.
  induction axes as [|ax axes IH]; intros [|r radius] c o Hlen Hc Ho;
    simpl in *; try lia.
  - inversion Hc; subst. constructor.
  - inversion Hc as [|? x ? c' Hx Hc']; subst.
    inversion Ho as [|? y ? o' Hy Ho']; subst. simpl.
    constructor; [|apply (IH radius); (lia || done)].
    unfold InAxis, ShrinkAxis in *. simpl in *. lia.
Qed.

(** An index lies in the shrunk axes exactly when every index within the
    radius of it lies in the axes. *)
Lemma Shrunk_window (axes : list (Z * Z)) :
  ∀ (radius p : Coordinate),
    length axes = length radius → length p = length radius →
    Forall (λ r, 0 ≤ r) radius →
    (Forall2 InAxis (zip_with ShrinkAxis axes radius) p ↔
       ∀ o, Forall2 (λ r d, - r ≤ d ≤ r) radius o →
            Forall2 InAxis axes (zip_with Z.add p o)).
Proof.
  intros radius p Hlen Hp Hrad. split.
  - intros Hin o Ho. by apply (Window_inside axes radius).
  - intros Hall.
    assert (Hlow : Forall2 (λ r d, - r ≤ d ≤ r) radius (Z.opp <$> radius)).
    { apply Forall2_fmap_r, Forall_Forall2_diag.
      eapply Forall_impl; [exact Hrad|]. simpl. lia. }
    assert (Hhigh : Forall2 (λ r d, - r ≤ d ≤ r) radius radius).
    { apply Forall_Forall2_diag. eapply Forall_impl; [exact Hrad|]. simpl. lia. }
    pose proof (Hall _ Hlow) as H1. pose proof (Hall _ Hhigh) as H2.
    clear Hall Hlow Hhigh Hrad. revert radius p Hlen Hp H1 H2.
    induction axes as [|ax axes IH]; intros [|r radius] [|x p] Hlen Hp H1 H2;
      simpl in *; try lia; [constructor|].
    inversion H1 as [|? ? ? ? Hx1 Hq1]; subst.
    inversion H2 as [|? ? ? ? Hx2 Hq2]; subst.
    constructor; [|apply IH; (lia || done)].
    unfold InAxis, ShrinkAxis in *. simpl. lia.
Qed.

Lemma InteriorSpans_empty_iff (axes : list (Z * Z)) :
  ∀ (bounds : list (Z * Z)) (radius : Coordinate),
    length bounds = length axes → length radius = length axes →
    ((∀ p, ¬ Forall2 InAxis (InteriorSpans axes bounds radius) p) ↔
       ∃ (i : nat) (ax b : Z * Z) (r : Z),
         axes !! i = Some ax ∧ bounds !! i = Some b ∧ radius !! i = Some r ∧
         Z.min (ax.1 + ax.2) (b.1 + b.2 - r) ≤ Z.max ax.1 (b.1 + r)).
Proof.
  induction axes as [|ax axes IH]; intros [|b bounds] [|r radius] Hb Hr;
    simpl in *; try lia.
  - split; [intros Hp; destruct (Hp []); constructor|].
    intros (j & ? & ? & ? & Hj & _). done.
  - split.
    + intros Hempty.
      destruct (decide (Z.min (ax.1 + ax.2) (b.1 + b.2 - r) ≤ Z.max ax.1 (b.1 + r)))
        as [Hs|Hs].
      { exists 0%nat, ax, b, r. done. }
      destruct (IH bounds radius ltac:(lia) ltac:(lia)) as [Hex _].
      destruct Hex as (j & ax' & b' & r' & Hj); [|by exists (S j), ax', b', r'].
      intros p Hp. apply (Hempty (Z.max ax.1 (b.1 + r) :: p)).
      constructor; [|done].
      unfold InAxis, InteriorSpan, SpanEnd, SpanBegin. simpl. lia.
    + intros (j & ax' & b' & r' & Hax & Hbb & Hrr & Hle) p Hp.
      inversion Hp as [|? x ? q Hx Hq]; subst.
      destruct j as [|j]; simpl in *.
      * injection Hax as <-. injection Hbb as <-. injection Hrr as <-.
        unfold InAxis, InteriorSpan, SpanEnd, SpanBegin in Hx. simpl in Hx. lia.
      * destruct (IH bounds radius ltac:(lia) ltac:(lia)) as [_ Hex].
        apply (Hex ltac:(by exists j, ax', b', r') q Hq).
Qed.

(** Every slab, emitted or not, and the interior face hold exactly the
    indices of the region that [FaceIndexOf] sends to their place. *)
Lemma AllFaces_lookup {Pixel : Type} (image : Image Pixel) (R : Region)
    (radius p : Coordinate) (n : nat) (F : Region) :
  length (Axes (m_BufferedRegion image)) = length (Axes R) →
  length radius = length (Axes R) →
  (InteriorFace image R radius
   :: BoundarySlabs [] (Axes R) (Axes (m_BufferedRegion image)) radius) !! n = Some F →
  (IsInside F p ↔
   IsInside R p ∧ FaceIndexOf (Axes R) (Axes (m_BufferedRegion image)) radius p = n).
Proof.
  intros Hb Hlen HF. unfold FaceIndexOf in *.
  destruct n as [|n]; simpl in HF.
  - injection HF as <-. unfold InteriorFace.
    rewrite IsInside_RegionOfAxes, InteriorSpans_inside by done.
    unfold IsInside.
    destruct (SlabIndexOf (Axes R) _ radius p); split; intros; split_all.
  - pose proof (BoundarySlabs_lookup (Axes R) _ radius [] [] p n F eq_refl HF) as Hlk.
    simpl in Hlk. rewrite Hlk. unfold IsInside.
    destruct (SlabIndexOf (Axes R) _ radius p); split; intros; split_all.
    constructor.
Qed.

Lemma NonEmpty_of_inhabited (F : Region) (p : Coordinate) : IsInside F p → NonEmpty F.
Proof.
  unfold IsInside, NonEmpty. induction 1 as [|ax x axes q Hx _ IH]; constructor;
    [|done].
  unfold InAxis in Hx. lia.
Qed.

(** A property of any two entries at different places of a list holds of
    any two entries at different places of a sublist. *)
Lemma Pairwise_sublist {A : Type} (D : A → A → Prop) (l1 l2 : list A) :
  l1 `sublist_of` l2 →
  (∀ i j x y, i ≠ j → l2 !! i = Some x → l2 !! j = Some y → D x y) →
  ∀ i j x y, i ≠ j → l1 !! i = Some x → l1 !! j = Some y → D x y.
Proof.
  induction 1 as [|z l1 l2 Hsub IH|z l1 l2 Hsub IH]; intros Hall i j x y Hij Hx Hy.
  - done.
  - assert (Htail : ∀ i j x y, i ≠ j → l2 !! i = Some x → l2 !! j = Some y → D x y).
    { intros i' j' x' y' Hne Hx' Hy'. apply (Hall (S i') (S j')); (done || lia). }
    destruct i as [|i], j as [|j]; simpl in *; try done.
    + injection Hx as <-.
      assert (Hin : y ∈ l2).
      { eapply elem_of_sublist; [|exact Hsub]. by eapply list_elem_of_lookup_2. }
      apply list_elem_of_lookup in Hin as [j' Hj'].
      by apply (Hall 0%nat (S j')).
    + injection Hy as <-.
      assert (Hin : x ∈ l2).
      { eapply elem_of_sublist; [|exact Hsub]. by eapply list_elem_of_lookup_2. }
      apply list_elem_of_lookup in Hin as [i' Hi'].
      by apply (Hall (S i') 0%nat).
    + apply (IH Htail i j); (done || lia).
  - apply (IH (λ i' j' x' y' Hne Hx' Hy',
                 Hall (S i') (S j') x' y' ltac:(lia) Hx' Hy') i j); done.
Qed.

Lemma Axes_length (R : Region) :
  length (m_Index R) = length (m_Size R) → length (Axes R) = length (m_Size R).
Proof. intros Hlen. unfold Axes. rewrite length_zip. lia. Qed.

Lemma Axes_lookup (R : Region) (i : nat) (ax : Z * Z) :
  Axes R !! i = Some ax ↔ m_Index R !! i = Some ax.1 ∧ m_Size R !! i = Some ax.2.
Proof.
  unfold Axes. destruct ax as [o n]. simpl.
  rewrite lookup_zip_with_Some. split.
  - intros (x & y & [= -> ->] & Hx & Hy). done.
  - intros [Hx Hy]. by exists o, n.
Qed.

(** C1 (as stated, refuted).  Emptiness of the interior face is not the same
    as every extent being at most 2r.  The 1 x 5 image decomposed in full
    with radius 1 has an empty interior although the extent 5 of axis 1
    exceeds twice the radius; and the 2 x 2 region at (4,4) of a 10 x 10
    image has every extent at most twice the radius 1 although it is its
    own interior. *)
Lemma ComputeFaces_interior_empty_counterexample :
  (let image : Image Z :=
     {| m_ObjectId := 0; m_LargestPossibleRegion := MakeRegion [0; 0] [1; 5];
        m_RequestedRegion := MakeRegion [0; 0] [1; 5];
        m_BufferedRegion := MakeRegion [0; 0] [1; 5];
        m_Buffer := replicate 5 0 |} in
   let R := MakeRegion [0; 0] [1; 5] in
   let radius := [1; 1] in
   head (ComputeFaces image R radius) = Some (MakeRegion [1; 1] [0; 3]) ∧
   ¬ ((∀ interior, head (ComputeFaces image R radius) = Some interior →
         ∀ p, ¬ IsInside interior p)
      ↔ (∀ (i : nat) (s r : Z),
           m_Size R !! i = Some s → radius !! i = Some r → s ≤ 2 * r))) ∧
  (let image : Image Z :=
     {| m_ObjectId := 0; m_LargestPossibleRegion := MakeRegion [0; 0] [10; 10];
        m_RequestedRegion := MakeRegion [0; 0] [10; 10];
        m_BufferedRegion := MakeRegion [0; 0] [10; 10];
        m_Buffer := replicate 100 0 |} in
   let R := MakeRegion [4; 4] [2; 2] in
   let radius := [1; 1] in
   head (ComputeFaces image R radius) = Some R ∧
   ¬ ((∀ interior, head (ComputeFaces image R radius) = Some interior →
         ∀ p, ¬ IsInside interior p)
      ↔ (∀ (i : nat) (s r : Z),
           m_Size R !! i = Some s → radius !! i = Some r → s ≤ 2 * r))).
Proof.
  split.
  - intros image R radius. split; [reflexivity|]. intros [Hto _].
    assert (Hle : (5 : Z) ≤ 2 * 1); [|lia].
    apply (Hto) with (i := 1%nat); [|done|done].
    intros interior Hhead p Hin.
    change (head (ComputeFaces image R radius))
      with (Some (MakeRegion [1; 1] [0; 3])) in Hhead.
    injection Hhead as <-.
    inversion Hin as [|? x ? q Hx Hq]; subst.
    unfold InAxis in Hx. simpl in Hx. lia.
  - intros image R radius. split; [reflexivity|]. intros [_ Hfrom].
    apply (Hfrom) with (interior := R) (p := [4; 4]); [|reflexivity|].
    + intros [|[|i]] s r Hs Hr; simpl in *; [| |done];
        injection Hs as <-; injection Hr as <-; lia.
    + unfold IsInside, InAxis. simpl. repeat constructor; simpl; lia.
Qed.

(** C1 (amended). For every image, region R and radius r, the faces of
    [ComputeFaces] are pairwise disjoint and their union is exactly R (same
    pixel set); the first face of the list is the interior face, which holds
    exactly the indices of R that have every index within the radius in the
    buffered region of the image; it is empty iff on some axis no index of R
    has its window in the buffered region, which for the decomposition of
    the whole buffered region means: iff some axis extent is at most 2r. *)
Theorem ComputeFaces_partition {Pixel : Type} (image : Image Pixel) (R : Region)
    (radius : Coordinate) :
  let B := m_BufferedRegion image in
  SameDimension R B radius →
  Forall (λ r, 0 ≤ r) radius →
  let faces := ComputeFaces image R radius in
  (∀ p, IsInside R p ↔ ∃ F, F ∈ faces ∧ IsInside F p) ∧
  (∀ (i j : nat) (F G : Region) p,
     i ≠ j → faces !! i = Some F → faces !! j = Some G →
     IsInside F p → ¬ IsInside G p) ∧
  (∃ interior, head faces = Some interior ∧
     (∀ p, IsInside interior p ↔
           IsInside R p ∧
           ∀ o, Forall2 (λ r d, - r ≤ d ≤ r) radius o →
                IsInside B (zip_with Z.add p o)) ∧
     ((∀ p, ¬ IsInside interior p) ↔
      ∃ (i : nat) (ax b : Z * Z) (r : Z),
        Axes R !! i = Some ax ∧ Axes B !! i = Some b ∧ radius !! i = Some r ∧
        Z.min (ax.1 + ax.2) (b.1 + b.2 - r) ≤ Z.max ax.1 (b.1 + r)) ∧
     (R = B →
      ((∀ p, ¬ IsInside interior p) ↔
       ∃ (i : nat) (s r : Z),
         m_Size R !! i = Some s ∧ radius !! i = Some r ∧ s ≤ 2 * r))).
Proof.
  intros B (Hix & Hrad & Hbix & Hbsz) Hpos faces.
  assert (Hlen : length radius = length (Axes R)) by (rewrite Axes_length; lia).
  assert (Hblen : length (Axes B) = length (Axes R)).
  { rewrite !Axes_length; lia. }
  assert (Hempty : (∀ p, ¬ IsInside (InteriorFace image R radius) p) ↔
            ∃ (i : nat) (ax b : Z * Z) (r : Z),
              Axes R !! i = Some ax ∧ Axes B !! i = Some b ∧ radius !! i = Some r ∧
              Z.min (ax.1 + ax.2) (b.1 + b.2 - r) ≤ Z.max ax.1 (b.1 + r)).
  { rewrite <- (InteriorSpans_empty_iff (Axes R) (Axes B) radius Hblen Hlen).
    split; intros Hno p Hp; apply (Hno p); unfold InteriorFace in *;
      by apply IsInside_RegionOfAxes. }
  set (all := InteriorFace image R radius
              :: BoundarySlabs [] (Axes R) (Axes B) radius).
  assert (Hsub : faces `sublist_of` all).
  { apply sublist_skip, sublist_filter. }
  split; [|split].
  - intros p. split.
    + intros Hin.
      destruct (SlabIndexOf (Axes R) (Axes B) radius p) as [n|] eqn:Hn.
      * destruct (BoundarySlabs_defined (Axes R) (Axes B) radius [] p n Hn) as [F HF].
        assert (HinF : IsInside F p).
        { apply (AllFaces_lookup image R radius p (S n) F Hblen Hlen HF).
          unfold FaceIndexOf. fold B. by rewrite Hn. }
        exists F. split; [|done]. right. apply list_elem_of_filter.
        split; [by eapply NonEmpty_of_inhabited|by eapply list_elem_of_lookup_2].
      * exists (InteriorFace image R radius). split; [apply list_elem_of_here|].
        apply (AllFaces_lookup image R radius p 0 _ Hblen Hlen eq_refl).
        unfold FaceIndexOf. fold B. by rewrite Hn.
    + intros (F & HF & Hin).
      assert (HFall : F ∈ all) by (by eapply elem_of_sublist).
      apply list_elem_of_lookup in HFall as [n HF'].
      apply (proj1 (AllFaces_lookup image R radius p n F Hblen Hlen HF') Hin).
  - intros i j F G p Hij HF HG.
    apply (Pairwise_sublist (λ F G, IsInside F p → ¬ IsInside G p) faces all Hsub)
      with (i := i) (j := j); [|done|done|done].
    intros i' j' F' G' Hne HF' HG' HinF HinG.
    apply (AllFaces_lookup image R radius p i' F' Hblen Hlen HF') in HinF as [_ Hi].
    apply (AllFaces_lookup image R radius p j' G' Hblen Hlen HG') in HinG as [_ Hj].
    congruence.
  - exists (InteriorFace image R radius). split; [done|split; [|split]].
    + intros p. unfold InteriorFace.
      rewrite IsInside_RegionOfAxes, InteriorSpans_shrunk by done.
      fold B. unfold IsInside. split.
      * intros [HinR Hshrunk]. split; [done|].
        apply Shrunk_window; [lia| |done|done].
        apply Forall2_length in HinR. lia.
      * intros [HinR Hall]. split; [done|].
        apply Shrunk_window; [lia| |done|done].
        apply Forall2_length in HinR. lia.
    + exact Hempty.
    + intros HRB. rewrite Hempty. split.
      * intros (i & ax & b & r & Hax & Hb & Hr & Hle).
        rewrite <- HRB in Hb. rewrite Hax in Hb. injection Hb as <-.
        apply Axes_lookup in Hax as [_ Hs].
        exists i, ax.2, r. split; [done|split; [done|]].
        rewrite Forall_lookup in Hpos. specialize (Hpos i r Hr). simpl in Hpos. lia.
      * intros (i & s & r & Hs & Hr & Hle).
        destruct (lookup_lt_is_Some_2 (Axes R) i) as [ax Hax].
        { apply lookup_lt_Some in Hs. rewrite Axes_length; done. }
        exists i, ax, ax, r. split; [done|]. split; [by rewrite <- HRB|].
        split; [done|].
        apply Axes_lookup in Hax as [_ Hs']. rewrite Hs in Hs'. injection Hs' as ->.
        rewrite Forall_lookup in Hpos. specialize (Hpos i r Hr). simpl in Hpos. lia.
Qed.

(** The amended C1 at work: the 5 x 5 image with radius 1 decomposed in
    full, and the 2 x 2 region at (4,4) of a 10 x 10 image, which is its own
    interior and has no boundary face. *)
Lemma ComputeFaces_partition_witness :
  let image : Image Z :=
    {| m_ObjectId := 0; m_LargestPossibleRegion := MakeRegion [0; 0] [5; 5];
       m_RequestedRegion := MakeRegion [0; 0] [5; 5];
       m_BufferedRegion := MakeRegion [0; 0] [5; 5];
       m_Buffer := replicate 25 0 |} in
  let large : Image Z :=
    {| m_ObjectId := 1; m_LargestPossibleRegion := MakeRegion [0; 0] [10; 10];
       m_RequestedRegion := MakeRegion [0; 0] [10; 10];
       m_BufferedRegion := MakeRegion [0; 0] [10; 10];
       m_Buffer := replicate 100 0 |} in
  let faces := ComputeFaces image (MakeRegion [0; 0] [5; 5]) [1; 1] in
  let inner := ComputeFaces large (MakeRegion [4; 4] [2; 2]) [1; 1] in
  faces = [MakeRegion [1; 1] [3; 3];
           MakeRegion [0; 0] [1; 5]; MakeRegion [4; 0] [1; 5];
           MakeRegion [1; 0] [3; 1]; MakeRegion [1; 4] [3; 1]] ∧
  (∀ p, IsInside (MakeRegion [0; 0] [5; 5]) p ↔ ∃ F, F ∈ faces ∧ IsInside F p) ∧
  inner = [MakeRegion [4; 4] [2; 2]] ∧
  (∀ p, IsInside (MakeRegion [4; 4] [2; 2]) p ↔ ∃ F, F ∈ inner ∧ IsInside F p).
Proof.
  intros image large faces inner. split; [reflexivity|]. split.
  - apply (ComputeFaces_partition image (MakeRegion [0; 0] [5; 5]) [1; 1]).
    + repeat split.
    + repeat constructor; lia.
  - split; [reflexivity|].
    apply (ComputeFaces_partition large (MakeRegion [4; 4] [2; 2]) [1; 1]).
    + repeat split.
    + repeat constructor; lia.
Defined.

End FacesProofs.

(** ** Requested regions of the filters *)

Section RequestedRegionProofs.

Lemma PadByRadius_fields (R : Region) (radius : Coordinate) :
  length (m_Index R) = length (m_Size R) →
  length radius = length (m_Size R) →
  m_Index (PadByRadius R radius) = zip_with Z.sub (m_Index R) radius ∧
  m_Size (PadByRadius R radius) = zip_with (λ s r, s + 2 * r) (m_Size R) radius.
Proof.
  unfold PadByRadius, Axes, RegionOfAxes. simpl.
  generalize (m_Index R) (m_Size R). intros ix sz. revert ix radius.
  induction sz as [|s sz IH]; intros [|i ix] [|r radius] Hix Hrad;
    simpl in *; try lia; [done|].
  destruct (IH ix radius ltac:(lia) ltac:(lia)) as [IH1 IH2].
  split; f_equal; [exact IH1|exact IH2].
Qed.

Lemma CropAxes_inside (A B : list (Z * Z)) :
  length A = length B →
  ∀ p, Forall2 InAxis (zip_with CropAxis A B) p ↔
       Forall2 InAxis A p ∧ Forall2 InAxis B p.
Proof.
  revert B. induction A as [|a A IH]; intros [|b B] Hlen p; simpl in *; try lia.
  - split; [intros Hp; by inversion Hp|by intros [Hp _]].
  - destruct p as [|x p].
    { split; [intros Hp; inversion Hp|intros [Hp _]; inversion Hp]. }
    rewrite !Forall2_cons_iff, IH by lia.
    unfold InAxis, CropAxis. simpl. split; intros; split_all; lia.
Qed.

Lemma Axes_first_inside (axes : list (Z * Z)) :
  Forall (λ ax, 0 < ax.2) axes → Forall2 InAxis axes (axes.*1).
Proof.
  induction 1 as [|ax axes Hax _ IH]; simpl; constructor; [|done].
  unfold InAxis. lia.
Qed.

Lemma Crop_spec (A B : Region) :
  length (Axes A) = length (Axes B) →
  match Crop A B with
  | Some C => (∀ p, IsInside C p ↔ IsInside A p ∧ IsInside B p) ∧ ∃ p, IsInside C p
  | None => ∀ p, ¬ (IsInside A p ∧ IsInside B p)
  end.
Proof.
  intros Hlen. unfold Crop.
  destruct (decide (Forall (λ ax, 0 < ax.2) (zip_with CropAxis (Axes A) (Axes B))))
    as [Hall|Hsome].
  - split.
    + intros p. rewrite IsInside_RegionOfAxes. by apply CropAxes_inside.
    + eexists. rewrite IsInside_RegionOfAxes. by apply Axes_first_inside.
  - intros p Hp. apply (CropAxes_inside _ _ Hlen) in Hp. revert Hp.
    apply NoIndex_of_empty_axis.
    apply not_Forall_Exists in Hsome; [|apply _].
    eapply Exists_impl; [exact Hsome|]. simpl. lia.
Qed.

Lemma PadCrop_outcome {Pixel : Type} (input : Image Pixel) (radius : Coordinate)
    (description : string) :
  SameDimension (m_RequestedRegion input) (m_LargestPossibleRegion input) radius →
  PadCropSpec input radius
    match Crop (PadByRadius (m_RequestedRegion input) radius)
               (m_LargestPossibleRegion input) with
    | Some cropped => Returned (Some (SetRequestedRegion input cropped))
    | None =>
        Thrown (InvalidRequestedRegionError description
                  (m_ObjectId (SetRequestedRegion input
                                 (PadByRadius (m_RequestedRegion input) radius))))
               (Some (SetRequestedRegion input
                        (PadByRadius (m_RequestedRegion input) radius)))
    end.
Proof.
  intros (Hix & Hrad & Hlix & Hlsz). unfold PadCropSpec.
  destruct (PadByRadius_fields _ radius Hix Hrad) as [Hpix Hpsz].
  split; [done|split; [done|]].
  assert (Hlen : length (Axes (PadByRadius (m_RequestedRegion input) radius))
                 = length (Axes (m_LargestPossibleRegion input))).
  { unfold Axes. rewrite !length_zip, Hpix, Hpsz, !length_zip_with. lia. }
  pose proof (Crop_spec _ _ Hlen) as Hcrop.
  destruct (Crop _ _) as [cropped|].
  - exists cropped. by destruct Hcrop.
  - split; [done|split; [done|by eexists]].
Qed.

(** C4. [GenerateInputRequestedRegion] of both filters pads the input
    requested region by the radius on both sides of every axis, without
    clamping, and crops it against the largest possible region of the input.
    When the crop succeeds the call returns and the input requests the
    cropped region, which is the non-empty intersection; when the padded
    region does not meet the largest possible region the call throws
    [InvalidRequestedRegionError] naming the input image, on which the
    uncropped padded region has been stored: the request is never silently
    cut to an empty region. *)
Theorem GenerateInputRequestedRegion_pad_crop_or_throw :
  (∀ (Pixel : Type) (traits : NumericTraits Pixel)
     (Superclass : ObjectMorphologyImageFilter.Filter Pixel
                   → ObjectMorphologyImageFilter.Filter Pixel)
     (f : ObjectMorphologyImageFilter.Filter Pixel) (input : Image Pixel),
     ObjectMorphologyImageFilter.m_Input (Superclass f) = Some input →
     SameDimension (m_RequestedRegion input) (m_LargestPossibleRegion input)
       (ObjectMorphologyImageFilter.m_KernelRadius (Superclass f)) →
     PadCropSpec input (ObjectMorphologyImageFilter.m_KernelRadius (Superclass f))
       (OutcomeMap ObjectMorphologyImageFilter.m_Input
          (ObjectMorphologyImageFilter.GenerateInputRequestedRegion Superclass f))) ∧
  (∀ (Pixel : Type)
     (Superclass : VectorGradientMagnitudeImageFilter.Filter Pixel
                   → VectorGradientMagnitudeImageFilter.Filter Pixel)
     (f : VectorGradientMagnitudeImageFilter.Filter Pixel) (input output : Image Pixel),
     VectorGradientMagnitudeImageFilter.m_Input (Superclass f) = Some input →
     VectorGradientMagnitudeImageFilter.m_Output (Superclass f) = Some output →
     SameDimension (m_RequestedRegion input) (m_LargestPossibleRegion input)
       (replicate (VectorGradientMagnitudeImageFilter.ImageDimension (Superclass f)) 1) →
     PadCropSpec input
       (replicate (VectorGradientMagnitudeImageFilter.ImageDimension (Superclass f)) 1)
       (OutcomeMap VectorGradientMagnitudeImageFilter.m_Input
          (VectorGradientMagnitudeImageFilter.GenerateInputRequestedRegion Superclass f))).
Proof.
  split.
  - intros Pixel traits Superclass f input Hinput Hdim.
    unfold ObjectMorphologyImageFilter.GenerateInputRequestedRegion.
    rewrite Hinput.
    pose proof (PadCrop_outcome input _
                  "Requested region is outside largest possible region." Hdim) as Hspec.
    destruct (Crop _ _); exact Hspec.
  - intros Pixel Superclass f input output Hinput Houtput Hdim.
    unfold VectorGradientMagnitudeImageFilter.GenerateInputRequestedRegion.
    rewrite Hinput, Houtput.
    pose proof (PadCrop_outcome input _
                  "Requested region is (at least partially) outside the largest possible region."
                  Hdim) as Hspec.
    destruct (Crop _ _); exact Hspec.
Qed.

(** C4 at work on a 5 x 5 image with identity 7.  The gradient filter, asked
    for the 2 x 2 corner at (0,0), pads it to the 4 x 4 region at (-1,-1) and
    requests the crop, the 3 x 3 corner.  The morphology filter with a kernel
    of radius (1,2), asked for the 2 x 2 region at (10,10), pads it to the
    4 x 6 region at (9,8), which misses the image: it throws, naming image 7,
    and leaves the padded region on the input. *)
Lemma GenerateInputRequestedRegion_pad_crop_or_throw_witness :
  let image (requested : Region) : Image Z :=
    {| m_ObjectId := 7; m_LargestPossibleRegion := MakeRegion [0; 0] [5; 5];
       m_RequestedRegion := requested;
       m_BufferedRegion := MakeRegion [0; 0] [5; 5];
       m_Buffer := replicate 25 0 |} in
  let corner := image (MakeRegion [0; 0] [2; 2]) in
  let outside := image (MakeRegion [10; 10] [2; 2]) in
  let gradient : VectorGradientMagnitudeImageFilter.Filter Z :=
    {| VectorGradientMagnitudeImageFilter.ImageDimension := 2;
       VectorGradientMagnitudeImageFilter.m_Input := Some corner;
       VectorGradientMagnitudeImageFilter.m_Output := Some corner |} in
  let morphology : ObjectMorphologyImageFilter.Filter Z :=
    {| ObjectMorphologyImageFilter.ImageDimension := 2;
       ObjectMorphologyImageFilter.m_KernelRadius := [1; 2];
       ObjectMorphologyImageFilter.m_ObjectValue := 1;
       ObjectMorphologyImageFilter.m_UseBoundaryCondition := false;
       ObjectMorphologyImageFilter.m_DefaultBoundaryCondition :=
         NeighborhoodIterator.ConstantBoundaryCondition 0;
       ObjectMorphologyImageFilter.m_BoundaryCondition :=
         ObjectMorphologyImageFilter.PointsToDefault;
       ObjectMorphologyImageFilter.m_Input := Some outside;
       ObjectMorphologyImageFilter.m_Output := outside |} in
  let returned :=
    OutcomeMap VectorGradientMagnitudeImageFilter.m_Input
      (VectorGradientMagnitudeImageFilter.GenerateInputRequestedRegion id gradient) in
  let thrown :=
    OutcomeMap ObjectMorphologyImageFilter.m_Input
      (ObjectMorphologyImageFilter.GenerateInputRequestedRegion id morphology) in
  PadByRadius (MakeRegion [0; 0] [2; 2]) [1; 1] = MakeRegion [-1; -1] [4; 4] ∧
  returned = Returned (Some (image (MakeRegion [0; 0] [3; 3]))) ∧
  PadCropSpec corner [1; 1] returned ∧
  thrown
  = Thrown (InvalidRequestedRegionError
              "Requested region is outside largest possible region." 7)
           (Some (image (MakeRegion [9; 8] [4; 6]))) ∧
  PadCropSpec outside [1; 2] thrown.
Proof.
  intros image corner outside gradient morphology returned thrown.
  split; [reflexivity|]. split; [reflexivity|]. split; [|split; [reflexivity|]].
  - apply (proj2 GenerateInputRequestedRegion_pad_crop_or_throw Z id gradient
             corner corner).
    + reflexivity.
    + reflexivity.
    + repeat split.
  - apply (proj1 GenerateInputRequestedRegion_pad_crop_or_throw Z _ id morphology
             outside).
    + reflexivity.
    + repeat split.
Defined.

End RequestedRegionProofs.

(** ** Neighborhood access *)

Section NeighborhoodProofs.
Context `{NumericTraits Pixel}.

Lemma GetOffset_range (radius : Coordinate) :
  Forall (λ r, 0 ≤ r) radius →
  ∀ k, Forall2 (λ r o, - r ≤ o ≤ r) radius (NeighborhoodIterator.GetOffset radius k).
Proof.
  induction 1 as [|r radius Hr _ IH]; intros k; simpl; constructor; [|done].
  pose proof (Z.mod_pos_bound k (2 * r + 1) ltac:(lia)). lia.
Qed.

Lemma Dot_cons (a b : Z) (l m : list Z) : Dot (a :: l) (b :: m) = a * b + Dot l m.
Proof. done. Qed.

Lemma Dot_offset_linear (sz : Coordinate) :
  ∀ (s : Z) (ix c o : Coordinate),
    length c = length sz → length o = length sz → length ix = length sz →
    Dot (zip_with Z.sub (zip_with Z.add c o) ix) (StridesFrom s sz)
    = Dot (zip_with Z.sub c ix) (StridesFrom s sz) + Dot o (StridesFrom s sz).
Proof.
  induction sz as [|n sz IH]; intros s [|i ix] [|x c] [|y o] Hc Ho Hix;
    simpl in *; try lia; [done|].
  rewrite !Dot_cons, IH by lia. lia.
Qed.

Lemma ComputeOffset_neighbor (B : Region) (c o : Coordinate) :
  length (m_Index B) = length (m_Size B) →
  length c = length (m_Size B) → length o = length (m_Size B) →
  ComputeOffset B (zip_with Z.add c o)
  = ComputeOffset B c + Dot o (ComputeStrides (m_Size B)).
Proof. intros. unfold ComputeOffset, ComputeStrides. by apply Dot_offset_linear. Qed.

Lemma OffsetTable_lookup (radius : Coordinate) (B : Region) (k : nat) :
  Z.of_nat k < NeighborhoodIterator.NeighborhoodSize radius →
  NeighborhoodIterator.ComputeNeighborhoodOffsetTable radius B !! k
  = Some (Dot (NeighborhoodIterator.GetOffset radius (Z.of_nat k))
              (ComputeStrides (m_Size B))).
Proof.
  intros Hk. unfold NeighborhoodIterator.ComputeNeighborhoodOffsetTable.
  rewrite list_lookup_fmap.
  replace (seq 0 _ !! k) with (Some k); [done|].
  symmetry. apply lookup_seq. lia.
Qed.

Lemma IsInside_length (R : Region) (p : Coordinate) :
  length (m_Index R) = length (m_Size R) → IsInside R p →
  length p = length (m_Size R).
Proof.
  intros Hlen Hin. apply Forall2_length in Hin.
  rewrite Axes_length in Hin by done. lia.
Qed.

Lemma ComputeOffset_range (B : Region) (p : Coordinate) :
  length (m_Index B) = length (m_Size B) → IsInside B p →
  0 ≤ ComputeOffset B p < GetNumberOfPixels B.
Proof.
  intros Hlen Hin. rewrite ComputeOffset_RowMajor.
  unfold GetNumberOfPixels. rewrite <- (Volume_zip (m_Index B)) by done.
  by apply RowMajor_range.
Qed.

Lemma GetOffset_length (radius : Coordinate) (k : Z) :
  length (NeighborhoodIterator.GetOffset radius k) = length radius.
Proof. revert k. induction radius as [|r radius IH]; intros k; simpl; by f_equal. Qed.

(** C5. At every index of the interior face of the decomposition of a
    region, every neighbor within the radius is served from the buffer, at
    the offset of its absolute image index: [GetPixel] equals the direct read
    there, whatever boundary condition is installed, and the boundary
    condition is not consulted. *)
Theorem Interior_GetPixel_is_direct_read (img : Image Pixel) (R : Region)
    (radius center : Coordinate) (bc : NeighborhoodIterator.BoundaryCondition Pixel)
    (k : nat) (interior : Region) :
  SameDimension R (m_BufferedRegion img) radius →
  Forall (λ r, 0 ≤ r) radius →
  head (NeighborhoodAlgorithm.ComputeFaces img R radius) = Some interior →
  IsInside interior center →
  Z.of_nat k < NeighborhoodIterator.NeighborhoodSize radius →
  let it := NeighborhoodIterator.SetLocation
              (NeighborhoodIterator.OverrideBoundaryCondition
                 (NeighborhoodIterator.Construct radius img interior) bc) center in
  let idx := NeighborhoodIterator.GetNeighborIndex it k in
  idx = zip_with Z.add center (NeighborhoodIterator.GetOffset radius (Z.of_nat k)) ∧
  IsInside (m_BufferedRegion img) idx ∧
  0 ≤ ComputeOffset (m_BufferedRegion img) idx
    < GetNumberOfPixels (m_BufferedRegion img) ∧
  NeighborhoodIterator.Resolve it k
  = NeighborhoodIterator.FromBuffer (ComputeOffset (m_BufferedRegion img) idx) ∧
  NeighborhoodIterator.GetPixel it k = GetPixel img idx.
Proof.
  intros (Hix & Hrad & Hbix & Hbsz) Hpos Hhead Hcenter Hk it idx.
  injection Hhead as <-.
  assert (HB : length (m_Index (m_BufferedRegion img))
               = length (m_Size (m_BufferedRegion img))) by lia.
  assert (Hlen : length radius = length (Axes R)) by (rewrite Axes_length; lia).
  assert (Hblen : length (Axes (m_BufferedRegion img)) = length (Axes R)).
  { rewrite !Axes_length; lia. }
  unfold NeighborhoodAlgorithm.InteriorFace in Hcenter.
  rewrite IsInside_RegionOfAxes, InteriorSpans_shrunk in Hcenter by done.
  destruct Hcenter as [HcR Hcenter].
  assert (Hidx : idx = zip_with Z.add center
                         (NeighborhoodIterator.GetOffset radius (Z.of_nat k))) by done.
  assert (HinB : IsInside (m_BufferedRegion img) idx).
  { rewrite Hidx. unfold IsInside.
    apply (Window_inside (Axes (m_BufferedRegion img)) radius);
      [lia|exact Hcenter|by apply GetOffset_range]. }
  assert (Hclen : length center = length (m_Size R)).
  { apply Forall2_length in HcR. rewrite Axes_length in HcR by done. lia. }
  assert (Hres : NeighborhoodIterator.Resolve it k
                 = NeighborhoodIterator.FromBuffer
                     (ComputeOffset (m_BufferedRegion img) idx)).
  { unfold NeighborhoodIterator.Resolve. fold idx.
    destruct (decide (IsInside _ idx)) as [_|Hout]; [|done].
    f_equal. simpl. rewrite OffsetTable_lookup by done. simpl.
    rewrite Hidx. rewrite ComputeOffset_neighbor; [done|done|lia|].
    rewrite GetOffset_length. lia. }
  split; [done|split; [done|split; [by apply ComputeOffset_range|split; [done|]]]].
  unfold NeighborhoodIterator.GetPixel. by rewrite Hres.
Qed.

(** Every offset within the radius is the offset of a neighbor. *)
Lemma GetOffset_surjective (radius : Coordinate) :
  ∀ o, Forall2 (λ r d, - r ≤ d ≤ r) radius o →
    ∃ k, 0 ≤ k < NeighborhoodIterator.NeighborhoodSize radius ∧
         NeighborhoodIterator.GetOffset radius k = o.
Proof.
  induction radius as [|r radius IH]; intros o Ho;
    inversion Ho as [|? d ? o' Hd Ho']; subst.
  - exists 0. done.
  - destruct (IH o' Ho') as (k' & Hk' & Hoff).
    exists ((d + r) + k' * (2 * r + 1)).
    cbn [NeighborhoodIterator.NeighborhoodSize NeighborhoodIterator.GetOffset foldr].
    fold (NeighborhoodIterator.NeighborhoodSize radius).
    rewrite Z_mod_plus_full, Z_div_plus_full by lia.
    rewrite Z.mod_small, Z.div_small by lia.
    split; [nia|]. rewrite Z.add_0_l, Hoff. f_equal. lia.
Qed.

(** An index whose window does not fit in the axes has an index within the
    radius that lies outside the axes. *)
Lemma Outside_neighbor (axes : list (Z * Z)) :
  ∀ (radius p : Coordinate),
    length axes = length radius → length p = length radius →
    Forall (λ r, 0 ≤ r) radius →
    ¬ Forall2 InAxis (zip_with NeighborhoodAlgorithm.ShrinkAxis axes radius) p →
    ∃ o, Forall2 (λ r d, - r ≤ d ≤ r) radius o ∧
         ¬ Forall2 InAxis axes (zip_with Z.add p o).
Proof.
  induction axes as [|ax axes IH]; intros [|r radius] [|x p] Hlen Hp Hrad Hout;
    simpl in *; try lia.
  { destruct Hout. constructor. }
  inversion Hrad as [|? ? Hr Hrad']; subst.
  assert (Hdiag : Forall2 (λ r d, - r ≤ d ≤ r) radius radius).
  { apply Forall_Forall2_diag. eapply Forall_impl; [exact Hrad'|]. simpl. lia. }
  destruct (decide (InAxis (NeighborhoodAlgorithm.ShrinkAxis ax r) x)) as [Hx|Hx].
  - destruct (IH radius p ltac:(lia) ltac:(lia) Hrad') as (o & Ho & Hno).
    { intros Hrest. apply Hout. by constructor. }
    exists (0 :: o). split; [constructor; [lia|done]|].
    simpl. intros Hin. inversion Hin; subst. done.
  - unfold InAxis, NeighborhoodAlgorithm.ShrinkAxis in Hx. simpl in Hx.
    destruct (decide (ax.1 + r ≤ x)) as [Hlow|Hlow].
    + exists (r :: radius). split; [constructor; [lia|done]|].
      simpl. intros Hin. inversion Hin as [|? ? ? ? Hhead]; subst.
      unfold InAxis in Hhead. lia.
    + exists (- r :: radius). split; [constructor; [lia|done]|].
      simpl. intros Hin. inversion Hin as [|? ? ? ? Hhead]; subst.
      unfold InAxis in Hhead. lia.
Qed.

(** C6. With the strategy Constant(c), [GetPixel] of a neighbor whose
    absolute index lies outside the buffered region is exactly c, and it is
    the strategy that serves it.  This holds for the strategy an iterator
    is given by [OverrideBoundaryCondition] after [SetConstant(c)], whatever
    constant it held before; an iterator that was given none serves the zero
    value of the pixel type, its default-constructed strategy being Constant
    with that value; and so does the iterator the morphology filter builds
    over its input with the strategy its constructor prepares with
    [SetConstant(PixelType{})].  On a boundary face the strategy is indeed
    at work: at every index of every face after the first, some neighbor
    within the radius lies outside the buffered region and reads c. *)
Theorem Constant_boundary_condition_GetPixel :
  (∀ (it : NeighborhoodIterator.Iterator Pixel) (k : nat) (c : Pixel),
     NeighborhoodIterator.m_BoundaryCondition it
     = NeighborhoodIterator.ConstantBoundaryCondition c →
     ¬ IsInside (m_BufferedRegion (NeighborhoodIterator.m_Image it))
         (NeighborhoodIterator.GetNeighborIndex it k) →
     NeighborhoodIterator.GetPixel it k = c ∧
     NeighborhoodIterator.Resolve it k
     = NeighborhoodIterator.FromBoundaryCondition
         (NeighborhoodIterator.GetNeighborIndex it k)) ∧
  (∀ (it : NeighborhoodIterator.Iterator Pixel) (k : nat) (c0 c : Pixel),
     ¬ IsInside (m_BufferedRegion (NeighborhoodIterator.m_Image it))
         (NeighborhoodIterator.GetNeighborIndex it k) →
     NeighborhoodIterator.GetPixel
       (NeighborhoodIterator.OverrideBoundaryCondition it
          (NeighborhoodIterator.SetConstant
             (NeighborhoodIterator.ConstantBoundaryCondition c0) c)) k = c) ∧
  (∀ (radius : Coordinate) (img : Image Pixel) (face : Region)
     (center : Coordinate) (k : nat),
     let it := NeighborhoodIterator.SetLocation
                 (NeighborhoodIterator.Construct radius img face) center in
     ¬ IsInside (m_BufferedRegion img) (NeighborhoodIterator.GetNeighborIndex it k) →
     NeighborhoodIterator.GetPixel it k = ZeroValue) ∧
  (∀ (dimension : nat) (useBoundaryCondition : bool) (output input : Image Pixel)
     (face : Region) (center : Coordinate) (k : nat),
     let f := ObjectMorphologyImageFilter.SetInput
                (ObjectMorphologyImageFilter.Construct
                   dimension useBoundaryCondition output) input in
     let it := NeighborhoodIterator.SetLocation
                 (NeighborhoodIterator.OverrideBoundaryCondition
                    (NeighborhoodIterator.Construct (replicate dimension 1) input face)
                    (ObjectMorphologyImageFilter.GetBoundaryCondition f)) center in
     ¬ IsInside (m_BufferedRegion input) (NeighborhoodIterator.GetNeighborIndex it k) →
     NeighborhoodIterator.GetPixel it k = ZeroValue) ∧
  (∀ (img : Image Pixel) (R : Region) (radius center : Coordinate) (c0 c : Pixel)
     (n : nat) (face : Region),
     SameDimension R (m_BufferedRegion img) radius →
     Forall (λ r, 0 ≤ r) radius →
     NeighborhoodAlgorithm.ComputeFaces img R radius !! S n = Some face →
     IsInside face center →
     let it := NeighborhoodIterator.SetLocation
                 (NeighborhoodIterator.OverrideBoundaryCondition
                    (NeighborhoodIterator.Construct radius img face)
                    (NeighborhoodIterator.SetConstant
                       (NeighborhoodIterator.ConstantBoundaryCondition c0) c))
                 center in
     ∃ k : nat,
       Z.of_nat k < NeighborhoodIterator.NeighborhoodSize radius ∧
       ¬ IsInside (m_BufferedRegion img) (NeighborhoodIterator.GetNeighborIndex it k) ∧
       NeighborhoodIterator.GetPixel it k = c).
Proof.
  assert (Hconstant :
            ∀ (it : NeighborhoodIterator.Iterator Pixel) (k : nat) (c : Pixel),
              NeighborhoodIterator.m_BoundaryCondition it
              = NeighborhoodIterator.ConstantBoundaryCondition c →
              ¬ IsInside (m_BufferedRegion (NeighborhoodIterator.m_Image it))
                  (NeighborhoodIterator.GetNeighborIndex it k) →
              NeighborhoodIterator.GetPixel it k = c ∧
              NeighborhoodIterator.Resolve it k
              = NeighborhoodIterator.FromBoundaryCondition
                  (NeighborhoodIterator.GetNeighborIndex it k)).
  { intros it k c Hbc Hout.
    unfold NeighborhoodIterator.GetPixel, NeighborhoodIterator.Resolve.
    destruct (decide (IsInside _ _)); [done|].
    by rewrite Hbc. }
  split; [exact Hconstant|]. split; [|split; [|split]].
  - intros it k c0 c Hout. by apply Hconstant.
  - intros radius img face center k it Hout. by apply Hconstant.
  - intros dimension useBoundaryCondition output input face center k f it Hout.
    by apply Hconstant.
  - intros img R radius center c0 c n face (Hix & Hrad & Hbix & Hbsz) Hpos
      Hface Hcenter it.
    assert (Hlen : length radius = length (Axes R)) by (rewrite Axes_length; lia).
    assert (Hblen : length (Axes (m_BufferedRegion img)) = length (Axes R)).
    { rewrite !Axes_length; lia. }
    assert (Hslab : face ∈ NeighborhoodAlgorithm.BoundarySlabs
                             [] (Axes R) (Axes (m_BufferedRegion img)) radius).
    { unfold NeighborhoodAlgorithm.ComputeFaces in Hface. simpl in Hface.
      apply list_elem_of_lookup_2 in Hface.
      by apply list_elem_of_filter in Hface as [_ Hface]. }
    apply list_elem_of_lookup in Hslab as [m Hslab].
    apply (AllFaces_lookup img R radius center (S m) face Hblen Hlen Hslab)
      in Hcenter as [HcR Hindex].
    assert (Hout : ¬ Forall2 InAxis
                     (zip_with NeighborhoodAlgorithm.ShrinkAxis
                        (Axes (m_BufferedRegion img)) radius) center).
    { intros Hshrunk.
      assert (Hinterior : Forall2 InAxis
                (NeighborhoodAlgorithm.InteriorSpans
                   (Axes R) (Axes (m_BufferedRegion img)) radius) center).
      { by apply InteriorSpans_shrunk. }
      apply InteriorSpans_inside in Hinterior as [_ Hnone]; [|done|done].
      unfold NeighborhoodAlgorithm.FaceIndexOf in Hindex.
      by rewrite Hnone in Hindex. }
    destruct (Outside_neighbor (Axes (m_BufferedRegion img)) radius center)
      as (o & Ho & Hno); [lia| |done|done|].
    { apply Forall2_length in HcR. lia. }
    destruct (GetOffset_surjective radius o Ho) as (k & Hk & Hoff).
    exists (Z.to_nat k). rewrite Z2Nat.id by lia.
    assert (Hidx : NeighborhoodIterator.GetNeighborIndex it (Z.to_nat k)
                   = zip_with Z.add center o).
    { unfold NeighborhoodIterator.GetNeighborIndex. simpl.
      by rewrite Z2Nat.id, Hoff by lia. }
    split; [lia|]. rewrite Hidx. split; [exact Hno|].
    apply Hconstant; [done|]. simpl. by rewrite Hidx.
Qed.

Lemma AnyNeighborWithBoundaryCondition_spec (objectValue : Pixel)
    (iNIter : NeighborhoodIterator.Iterator Pixel) (n : nat) :
  ∀ i, ObjectMorphologyImageFilter.AnyNeighborWithBoundaryCondition
         objectValue iNIter n i = true ↔
       ∃ j, (i ≤ j < i + n)%nat ∧ NeighborhoodIterator.GetPixel iNIter j ≠ objectValue.
Proof.
  induction n as [|n IH]; intros i; simpl.
  - split; [done|]. intros (j & Hj & _). lia.
  - unfold NotExactlyEquals, ExactlyEquals.
    destruct (bool_decide_reflect
                (NeighborhoodIterator.GetPixel iNIter i = objectValue)) as [Heq|Hne];
      simpl.
    + rewrite IH. split; intros (j & Hj & Hv).
      * exists j. split; [lia|done].
      * exists j. split; [|done].
        destruct (decide (j = i)) as [->|]; [done|lia].
    + split; [|done]. intros _. exists i. split; [lia|done].
Qed.

Lemma AnyNeighborInside_spec (objectValue : Pixel)
    (iNIter : NeighborhoodIterator.Iterator Pixel) (n : nat) :
  ∀ i, ObjectMorphologyImageFilter.AnyNeighborInside objectValue iNIter n i = true ↔
       ∃ j, (i ≤ j < i + n)%nat ∧
            IsInside (m_BufferedRegion (NeighborhoodIterator.m_Image iNIter))
              (NeighborhoodIterator.GetNeighborIndex iNIter j) ∧
            NeighborhoodIterator.GetPixel iNIter j ≠ objectValue.
Proof.
  induction n as [|n IH]; intros i; simpl.
  - split; [done|]. intros (j & Hj & _). lia.
  - unfold NeighborhoodIterator.GetPixel_IsInBounds.
    assert (Hstep : ∀ P : nat → Prop,
               (∃ j, (S i ≤ j < S i + n)%nat ∧ P j) → ∃ j, (i ≤ j < i + S n)%nat ∧ P j).
    { intros P (j & Hj & HP). exists j. split; [lia|done]. }
    assert (Hback : ∀ P : nat → Prop, ¬ P i →
               (∃ j, (i ≤ j < i + S n)%nat ∧ P j) → ∃ j, (S i ≤ j < S i + n)%nat ∧ P j).
    { intros P Hni (j & Hj & HP). exists j. split; [|done].
      destruct (decide (j = i)) as [->|]; [done|lia]. }
    destruct (decide (IsInside _ (NeighborhoodIterator.GetNeighborIndex iNIter i)))
      as [Hin|Hout].
    + unfold NotExactlyEquals, ExactlyEquals.
      destruct (bool_decide_reflect
                  (ReadBuffer (NeighborhoodIterator.m_Image iNIter)
                     (ComputeOffset
                        (m_BufferedRegion (NeighborhoodIterator.m_Image iNIter))
                        (NeighborhoodIterator.GetIndex iNIter)
                      + default 0 (NeighborhoodIterator.m_OffsetTable iNIter !! i))
                   = objectValue)) as [Heq|Hne]; simpl.
      * rewrite IH. split; [apply Hstep|apply Hback].
        intros [_ Hv]. apply Hv.
        unfold NeighborhoodIterator.GetPixel, NeighborhoodIterator.Resolve.
        by destruct (decide (IsInside _ _)).
      * split; [|done]. intros _. exists i. split; [lia|split; [done|]].
        unfold NeighborhoodIterator.GetPixel, NeighborhoodIterator.Resolve.
        by destruct (decide (IsInside _ _)).
    + rewrite andb_false_r. rewrite IH. split; [apply Hstep|apply Hback].
      by intros [Hin _].
Qed.

(** C7. The two-argument [GetPixel] gives the same pixel as the one-argument
    [GetPixel] for every neighbor; its flag is true exactly when the absolute
    index of the neighbor lies in the buffered region, and false exactly when
    the value came from the boundary condition; it is total, so a neighbor
    out of bounds raises nothing.  Hence [IsObjectPixelOnBoundary] without
    boundary condition finds exactly the neighbors inside the buffer that
    differ from the object value, skipping the synthesized ones. *)
Theorem GetPixel_IsInBounds_agrees (it : NeighborhoodIterator.Iterator Pixel) (k : nat) :
  (NeighborhoodIterator.GetPixel_IsInBounds it k).1 = NeighborhoodIterator.GetPixel it k ∧
  ((NeighborhoodIterator.GetPixel_IsInBounds it k).2 = true ↔
     IsInside (m_BufferedRegion (NeighborhoodIterator.m_Image it))
       (NeighborhoodIterator.GetNeighborIndex it k)) ∧
  ((NeighborhoodIterator.GetPixel_IsInBounds it k).2 = false ↔
     NeighborhoodIterator.Resolve it k
     = NeighborhoodIterator.FromBoundaryCondition
         (NeighborhoodIterator.GetNeighborIndex it k)) ∧
  (∀ f : ObjectMorphologyImageFilter.Filter Pixel,
     ObjectMorphologyImageFilter.IsObjectPixelOnBoundary f it = true ↔
     ∃ i : nat,
       (i < 3 ^ ObjectMorphologyImageFilter.ImageDimension f)%nat ∧
       (if ObjectMorphologyImageFilter.m_UseBoundaryCondition f then True
        else IsInside (m_BufferedRegion (NeighborhoodIterator.m_Image it))
               (NeighborhoodIterator.GetNeighborIndex it i)) ∧
       NeighborhoodIterator.GetPixel it i ≠ ObjectMorphologyImageFilter.m_ObjectValue f).
Proof.
  unfold NeighborhoodIterator.GetPixel_IsInBounds, NeighborhoodIterator.GetPixel,
    NeighborhoodIterator.Resolve.
  split; [|split; [|split]].
  - by destruct (decide (IsInside _ _)).
  - by destruct (decide (IsInside _ _)).
  - by destruct (decide (IsInside _ _)).
  - intros f. unfold ObjectMorphologyImageFilter.IsObjectPixelOnBoundary.
    destruct (ObjectMorphologyImageFilter.m_UseBoundaryCondition f).
    + rewrite AnyNeighborWithBoundaryCondition_spec.
      split; intros (j & Hj & Hv); exists j; split_all; lia.
    + rewrite AnyNeighborInside_spec.
      split; intros (j & Hj & Hv); exists j; split_all; lia.
Qed.

End NeighborhoodProofs.

(** C5 at work: the 2 x 2 region at (4,4) of a 10 x 10 image is its own
    interior for radius 1; at its corner (4,4) neighbor 0 is the pixel at
    (3,3), outside the region and inside the buffer, and is read from the
    buffer although the strategy installed would answer 7. *)
Lemma Interior_GetPixel_is_direct_read_witness :
  let img : Image Z :=
    {| m_ObjectId := 0; m_LargestPossibleRegion := MakeRegion [0; 0] [10; 10];
       m_RequestedRegion := MakeRegion [0; 0] [10; 10];
       m_BufferedRegion := MakeRegion [0; 0] [10; 10];
       m_Buffer := Z.of_nat <$> seq 100 100 |} in
  let it := NeighborhoodIterator.SetLocation
              (NeighborhoodIterator.OverrideBoundaryCondition
                 (NeighborhoodIterator.Construct [1; 1] img (MakeRegion [4; 4] [2; 2]))
                 (NeighborhoodIterator.ConstantBoundaryCondition 7)) [4; 4] in
  NeighborhoodIterator.GetNeighborIndex it 0 = [3; 3] ∧
  GetPixel img [3; 3] = 133 ∧
  NeighborhoodIterator.GetPixel it 0 = GetPixel img [3; 3].
Proof.
  intros img it. split; [reflexivity|]. split; [reflexivity|].
  apply (Interior_GetPixel_is_direct_read img (MakeRegion [4; 4] [2; 2]) [1; 1] [4; 4]
           (NeighborhoodIterator.ConstantBoundaryCondition 7) 0
           (MakeRegion [4; 4] [2; 2])).
  - repeat split.
  - repeat constructor; lia.
  - reflexivity.
  - unfold IsInside, InAxis. simpl. repeat constructor; simpl; lia.
  - reflexivity.
Defined.

(** C6 at work: at index (0,0) of the 5 x 5 image, whose pixels are 100 to
    124, the neighbor at offset (-1,-1) reads the constant 7 set by
    [SetConstant] on a strategy that held 0, while the center is read from
    the buffer; (0,0) lies in the second face of the decomposition of the
    image, a boundary face. *)
Lemma Constant_boundary_condition_GetPixel_witness :
  let img : Image Z :=
    {| m_ObjectId := 0; m_LargestPossibleRegion := MakeRegion [0; 0] [5; 5];
       m_RequestedRegion := MakeRegion [0; 0] [5; 5];
       m_BufferedRegion := MakeRegion [0; 0] [5; 5];
       m_Buffer := Z.of_nat <$> seq 100 25 |} in
  let face := MakeRegion [0; 0] [1; 5] in
  let it := NeighborhoodIterator.SetLocation
              (NeighborhoodIterator.Construct [1; 1] img face) [0; 0] in
  let it' := NeighborhoodIterator.SetLocation
               (NeighborhoodIterator.OverrideBoundaryCondition
                  (NeighborhoodIterator.Construct [1; 1] img face)
                  (NeighborhoodIterator.SetConstant
                     (NeighborhoodIterator.ConstantBoundaryCondition 0) 7))
               [0; 0] in
  NeighborhoodAlgorithm.ComputeFaces img (MakeRegion [0; 0] [5; 5]) [1; 1] !! 1%nat
  = Some face ∧
  NeighborhoodIterator.GetNeighborIndex it' 0 = [-1; -1] ∧
  NeighborhoodIterator.GetPixel it' 4 = 100 ∧
  NeighborhoodIterator.GetPixel
    (NeighborhoodIterator.OverrideBoundaryCondition it
       (NeighborhoodIterator.SetConstant
          (NeighborhoodIterator.ConstantBoundaryCondition 0) 7)) 0 = 7 ∧
  ∃ k : nat,
    Z.of_nat k < 9 ∧
    ¬ IsInside (MakeRegion [0; 0] [5; 5])
        (NeighborhoodIterator.GetNeighborIndex it' k) ∧
    NeighborhoodIterator.GetPixel it' k = 7.
Proof.
  intros img face it it'.
  split; [reflexivity|]. split; [reflexivity|]. split; [reflexivity|]. split.
  - apply (proj1 (proj2 Constant_boundary_condition_GetPixel) it 0%nat 0 7).
    refine (bool_decide_eq_false_1 _ _). vm_compute. reflexivity.
  - apply (proj2 (proj2 (proj2 (proj2 Constant_boundary_condition_GetPixel)))
             img (MakeRegion [0; 0] [5; 5]) [1; 1] [0; 0] 0 7 0%nat face).
    + repeat split.
    + repeat constructor; lia.
    + reflexivity.
    + unfold IsInside, InAxis. simpl. repeat constructor; simpl; lia.
Defined.

(** ** NeighborhoodOperator *)

(** C9. [SetDirection(d)] throws iff d >= VDimension; when it throws the
    stored direction is unchanged, and when it does not, [GetDirection]
    returns d afterwards. *)
Theorem SetDirection_throws_iff (op : NeighborhoodOperator.Operator) (d : N) :
  ((∃ e op', NeighborhoodOperator.SetDirection op d = Thrown e op')
   ↔ (NeighborhoodOperator.VDimension op ≤ d)%N) ∧
  (∀ e op', NeighborhoodOperator.SetDirection op d = Thrown e op' →
            op' = op ∧
            NeighborhoodOperator.GetDirection op' = NeighborhoodOperator.GetDirection op) ∧
  (∀ op', NeighborhoodOperator.SetDirection op d = Returned op' →
          NeighborhoodOperator.GetDirection op' = d ∧
          NeighborhoodOperator.VDimension op' = NeighborhoodOperator.VDimension op).
Proof.
  unfold NeighborhoodOperator.SetDirection.
  destruct (decide (NeighborhoodOperator.VDimension op ≤ d)%N) as [Hge|Hlt].
  - split; [|split].
    + split; [done|]. intros _. by eexists _, _.
    + intros e op' Heq. by injection Heq as _ <-.
    + intros op' Heq. done.
  - split; [|split].
    + split; [|done]. intros (e & op' & Heq). done.
    + intros e op' Heq. done.
    + intros op' Heq. by injection Heq as <-.
Qed.

(** ** LaplacianOperator *)

Section LaplacianProofs.
Import LaplacianOperator.

Lemma NeighborhoodSize_ones (D : nat) : Size (replicate D 1) = 3 ^ Z.of_nat D.
Proof.
  unfold Size. induction D as [|D IH]; [done|].
  simpl replicate. simpl NeighborhoodIterator.NeighborhoodSize.
  rewrite IH, Nat2Z.inj_succ, Z.pow_succ_r by lia. lia.
Qed.

Lemma StridesFrom_threes (D : nat) :
  ∀ (s : Z) (a : nat), (a < D)%nat →
    StridesFrom s (replicate D 3) !! a = Some (s * 3 ^ Z.of_nat a).
Proof.
  induction D as [|D IH]; intros s a Ha; [lia|].
  destruct a as [|a]; simpl; [f_equal; lia|].
  rewrite IH by lia. f_equal.
  rewrite Nat2Z.inj_succ, Z.pow_succ_r by lia. lia.
Qed.

Lemma GetStride_ones (D a : nat) :
  (a < D)%nat → GetStride (replicate D 1) a = 3 ^ Z.of_nat a.
Proof.
  intros Ha. unfold GetStride, ComputeStrides.
  rewrite fmap_replicate. simpl.
  rewrite StridesFrom_threes by done. simpl. lia.
Qed.

(** Where the two entries of an axis sit around the center of the 3^D
    entries. *)
Lemma Pow3_center (D a : nat) :
  (a < D)%nat →
  0 < 3 ^ Z.of_nat a ∧ 3 ^ Z.of_nat a ≤ 3 ^ Z.of_nat D `div` 2 ∧
  3 ^ Z.of_nat D `div` 2 + 3 ^ Z.of_nat a < 3 ^ Z.of_nat D.
Proof.
  intros Ha.
  assert (H3a : 0 < 3 ^ Z.of_nat a) by (apply Z.pow_pos_nonneg; lia).
  assert (Hle : 3 * 3 ^ Z.of_nat a ≤ 3 ^ Z.of_nat D).
  { rewrite <- Z.pow_succ_r by lia. apply Z.pow_le_mono_r; lia. }
  pose proof (Z.div_mod (3 ^ Z.of_nat D) 2 ltac:(lia)) as Hdm.
  pose proof (Z.mod_pos_bound (3 ^ Z.of_nat D) 2 ltac:(lia)) as Hmod.
  assert (Hodd : 3 ^ Z.of_nat D `mod` 2 = 1).
  { clear. induction D as [|D IH]; [done|].
    rewrite Nat2Z.inj_succ, Z.pow_succ_r by lia.
    rewrite Z.mul_mod, IH by lia. done. }
  lia.
Qed.

Lemma Pow3_lt (a b : nat) : (a < b)%nat → 3 ^ Z.of_nat a < 3 ^ Z.of_nat b.
Proof. intros Hab. apply Z.pow_lt_mono_r; lia. Qed.

Section WithScalar.
Context {T : Type} (zero two : T) (add mul : T → T → T) (opp : T → T).
Variable s : list T.

Let D : nat := length s.
Let w : Z := 3 ^ Z.of_nat D.
Let c : Z := w `div` 2.
Let hsq (si : T) : T := mul si si.
Let Loop : nat → list T * T := LoopState zero two add mul s.

Lemma LoopState_S (m : nat) :
  Loop (S m) = Step zero two add mul (replicate D 1) w s (Loop m) m.
Proof. unfold Loop, LoopState. by rewrite seq_S, fold_left_app. Qed.

(** The state of the loop after the axes below [m]. *)
Lemma Loop_invariant (m : nat) :
  (m ≤ D)%nat →
  length (Loop m).1 = Z.to_nat w ∧
  (∀ a si, (a < m)%nat → s !! a = Some si →
     (Loop m).1 !! Z.to_nat (c + 3 ^ Z.of_nat a) = Some (hsq si) ∧
     (Loop m).1 !! Z.to_nat (c - 3 ^ Z.of_nat a) = Some (hsq si)) ∧
  (∀ j, (j < Z.to_nat w)%nat →
     (∀ a, (a < m)%nat →
        j ≠ Z.to_nat (c + 3 ^ Z.of_nat a) ∧ j ≠ Z.to_nat (c - 3 ^ Z.of_nat a)) →
     (Loop m).1 !! j = Some zero) ∧
  (Loop m).2
  = fold_left (λ acc si, add acc (mul two (hsq si))) (take m s) zero.
Proof.
  induction m as [|m IH]; intros Hm.
  - unfold Loop, LoopState. simpl. split; [by rewrite length_replicate|].
    split; [intros; lia|]. split; [|done].
    intros j Hj _. by apply lookup_replicate.
  - destruct (IH ltac:(lia)) as (Hlen & Hset & Hzero & Hsum). clear IH.
    rewrite LoopState_S. destruct (Loop m) as [coeffP sum]. simpl in *.
    rewrite GetStride_ones by (fold D; lia).
    destruct (lookup_lt_is_Some_2 s m ltac:(fold D; lia)) as [sm Hsm].
    rewrite Hsm. simpl.
    pose proof (Pow3_center D m ltac:(lia)) as (Hm0 & Hm1 & Hm2).
    fold w in Hm1, Hm2. fold c in Hm1, Hm2.
    split; [by rewrite !length_insert|]. split; [|split].
    + intros a si Ha Hsi. destruct (decide (a = m)) as [->|Hne].
      * assert (si = sm) as -> by congruence. split.
        -- rewrite list_lookup_insert_ne by lia.
           apply list_lookup_insert_eq. lia.
        -- apply list_lookup_insert_eq. rewrite length_insert. lia.
      * pose proof (Pow3_lt a m ltac:(lia)) as Hlt.
        pose proof (Pow3_center D a ltac:(lia)) as (Ha0 & Ha1 & Ha2).
        fold w in Ha1, Ha2. fold c in Ha1, Ha2.
        rewrite !list_lookup_insert_ne by lia.
        apply Hset; [lia|done].
    + intros j Hj Hfresh.
      destruct (Hfresh m ltac:(lia)) as [Hj1 Hj2].
      rewrite !list_lookup_insert_ne by done.
      apply Hzero; [done|]. intros a Ha. apply Hfresh. lia.
    + rewrite (take_S_r s m sm Hsm), fold_left_app. simpl. by rewrite Hsum.
Qed.

Lemma GenerateCoefficients_unfold :
  GenerateCoefficients zero two add mul opp s
  = <[Z.to_nat c := opp (Loop D).2]> (Loop D).1.
Proof.
  unfold GenerateCoefficients. rewrite NeighborhoodSize_ones.
  change (fold_left _ _ _) with (Loop D). by destruct (Loop D).
Qed.

Section ExactArithmetic.
Hypothesis add_assoc : ∀ x y z, add x (add y z) = add (add x y) z.
Hypothesis add_comm : ∀ x y, add x y = add y x.
Hypothesis add_zero_l : ∀ x, add zero x = x.
Hypothesis add_opp_r : ∀ x, add x (opp x) = zero.
Hypothesis mul_two_l : ∀ x, mul two x = add x x.

Lemma Sum_from (l : list T) : ∀ a, fold_left add l a = add a (fold_left add l zero).
Proof.
  induction l as [|x l IH]; intros a; simpl.
  - by rewrite add_comm, add_zero_l.
  - rewrite (IH (add a x)), (IH (add zero x)), add_zero_l. by rewrite add_assoc.
Qed.

Lemma Sum_replicate (n : nat) : SumOfCoefficients zero add (replicate n zero) = zero.
Proof.
  unfold SumOfCoefficients. induction n as [|n IH]; simpl; [done|].
  by rewrite add_zero_l.
Qed.

Lemma Sum_insert (l : list T) :
  ∀ (j : nat) (v : T), l !! j = Some zero →
    SumOfCoefficients zero add (<[j := v]> l) = add (SumOfCoefficients zero add l) v.
Proof.
  unfold SumOfCoefficients.
  induction l as [|x l IH]; intros [|j] v Hj; simpl in *; try done.
  - injection Hj as ->. rewrite !add_zero_l.
    rewrite (Sum_from l v), (Sum_from l zero), add_zero_l. apply add_comm.
  - rewrite (Sum_from (<[j := v]> l) (add zero x)), (Sum_from l (add zero x)).
    rewrite add_zero_l, (IH j v Hj). by rewrite add_assoc.
Qed.

Lemma Loop_sum (m : nat) :
  (m ≤ D)%nat → SumOfCoefficients zero add (Loop m).1 = (Loop m).2.
Proof.
  induction m as [|m IH]; intros Hm.
  - unfold Loop, LoopState. simpl. apply Sum_replicate.
  - specialize (IH ltac:(lia)).
    destruct (Loop_invariant m ltac:(lia)) as (Hlen & Hset & Hzero & _).
    rewrite LoopState_S. destruct (Loop m) as [coeffP sum]. simpl in *.
    rewrite GetStride_ones by (fold D; lia).
    pose proof (Pow3_center D m ltac:(lia)) as (Hm0 & Hm1 & Hm2).
    fold w in Hm1, Hm2. fold c in Hm1, Hm2.
    assert (Hfresh : ∀ x : Z, (x = c + 3 ^ Z.of_nat m ∨ x = c - 3 ^ Z.of_nat m) →
              coeffP !! Z.to_nat x = Some zero).
    { intros x Hx. apply Hzero; [lia|]. intros a Ha.
      pose proof (Pow3_lt a m Ha).
      pose proof (Pow3_center D a ltac:(lia)) as (Ha0 & Ha1 & Ha2).
      fold w in Ha1, Ha2. fold c in Ha1, Ha2. lia. }
    rewrite Sum_insert.
    + rewrite Sum_insert by (apply Hfresh; lia).
      rewrite IH, mul_two_l. by rewrite add_assoc.
    + rewrite list_lookup_insert_ne by lia. apply Hfresh. lia.
Qed.

Lemma GenerateCoefficients_sum :
  SumOfCoefficients zero add (GenerateCoefficients zero two add mul opp s) = zero.
Proof.
  rewrite GenerateCoefficients_unfold.
  destruct (Loop_invariant D ltac:(lia)) as (Hlen & _ & Hzero & _).
  pose proof (Loop_sum D ltac:(lia)) as Hsum.
  assert (Hw : 0 < w) by (apply Z.pow_pos_nonneg; lia).
  rewrite Sum_insert.
  - rewrite Hsum. apply add_opp_r.
  - apply Hzero.
    + unfold c. pose proof (Z.div_lt_upper_bound w 2 w ltac:(lia) ltac:(lia)).
      pose proof (Z.div_pos w 2 ltac:(lia) ltac:(lia)). lia.
    + intros a Ha.
      pose proof (Pow3_center D a ltac:(lia)) as (Ha0 & Ha1 & Ha2).
      fold w in Ha1, Ha2. fold c in Ha1, Ha2. lia.
Qed.

End ExactArithmetic.

End WithScalar.

(** C10 (as stated, refuted). With the scalings 1 and 2^-30 in double
    precision the running sum 2 + 2^-59 rounds to 2, the center is -2, and
    the nine coefficients add up to 2^-60, not to zero. *)
Lemma GenerateCoefficients_double_sum_counterexample :
  let tiny : double := S754_finite false 4503599627370496 (-82) in
  GenerateCoefficients_double [double_one; tiny] !! 4%nat = Some (double_opp double_two) ∧
  SumOfCoefficients double_zero double_add
    (GenerateCoefficients_double [double_one; tiny])
  = S754_finite false 4503599627370496 (-112) ∧
  SumOfCoefficients double_zero double_add
    (GenerateCoefficients_double [double_one; tiny]) ≠ double_zero.
Proof. split; [by vm_compute|split; [by vm_compute|]]. vm_compute. discriminate. Qed.

(** C10 (amended). For every dimension D and scalings s_0..s_{D-1},
    [GenerateCoefficients] returns 3^D coefficients (radius 1 on every axis,
    the stride of axis i being 3^i); the two entries at the center plus and
    minus the stride of axis i are both s_i squared, the center entry is the
    negative of the running sum of 2 * s_i squared over the axes, and every
    other entry is zero.  When the coefficient arithmetic is exact (addition
    associative and commutative with zero and opposites, 2x = x + x) the
    coefficients add up to zero; in rounded double arithmetic they need
    not. *)
Theorem GenerateCoefficients_structure {T : Type} (zero two : T)
    (add mul : T → T → T) (opp : T → T) (s : list T) :
  let D := length s in
  let w := 3 ^ Z.of_nat D in
  let c := w `div` 2 in
  let coeff := GenerateCoefficients zero two add mul opp s in
  Size (replicate D 1) = w ∧
  Z.of_nat (length coeff) = w ∧
  (∀ (i : nat) (si : T), s !! i = Some si →
     GetStride (replicate D 1) i = 3 ^ Z.of_nat i ∧
     coeff !! Z.to_nat (c + 3 ^ Z.of_nat i) = Some (mul si si) ∧
     coeff !! Z.to_nat (c - 3 ^ Z.of_nat i) = Some (mul si si)) ∧
  coeff !! Z.to_nat c
  = Some (opp (fold_left (λ acc si, add acc (mul two (mul si si))) s zero)) ∧
  (∀ j : nat, (j < length coeff)%nat → j ≠ Z.to_nat c →
     (∀ i : nat, (i < D)%nat →
        j ≠ Z.to_nat (c + 3 ^ Z.of_nat i) ∧ j ≠ Z.to_nat (c - 3 ^ Z.of_nat i)) →
     coeff !! j = Some zero) ∧
  ((∀ x y z, add x (add y z) = add (add x y) z) →
   (∀ x y, add x y = add y x) →
   (∀ x, add zero x = x) →
   (∀ x, add x (opp x) = zero) →
   (∀ x, mul two x = add x x) →
   SumOfCoefficients zero add coeff = zero).
Proof.
  intros D w c coeff.
  destruct (Loop_invariant zero two add mul s D ltac:(lia))
    as (Hlen & Hset & Hzero & Hsum).
  assert (Hw : 0 < w) by (apply Z.pow_pos_nonneg; lia).
  assert (Hc : 0 ≤ c < w).
  { unfold c. pose proof (Z.div_lt_upper_bound w 2 w ltac:(lia) ltac:(lia)).
    pose proof (Z.div_pos w 2 ltac:(lia) ltac:(lia)). lia. }
  assert (Hexact : (∀ x y z, add x (add y z) = add (add x y) z) →
                   (∀ x y, add x y = add y x) →
                   (∀ x, add zero x = x) →
                   (∀ x, add x (opp x) = zero) →
                   (∀ x, mul two x = add x x) →
                   SumOfCoefficients zero add coeff = zero).
  { intros. by apply GenerateCoefficients_sum. }
  revert Hexact. unfold coeff. rewrite GenerateCoefficients_unfold.
  fold D w c in Hlen, Hset, Hzero, Hsum |- *. intros Hexact.
  split; [apply NeighborhoodSize_ones|].
  split; [rewrite length_insert; lia|].
  split; [|split; [|split]].
  - intros i si Hsi.
    assert (Hi : (i < D)%nat) by (by apply lookup_lt_Some in Hsi).
    pose proof (Pow3_center D i Hi) as (Hi0 & Hi1 & Hi2).
    split; [by apply GetStride_ones|].
    rewrite !list_lookup_insert_ne by (fold w c in Hi1, Hi2; lia).
    by apply Hset.
  - rewrite list_lookup_insert_eq by lia.
    rewrite Hsum. do 3 f_equal. apply firstn_all.
  - intros j Hj Hjc Hfresh. rewrite length_insert in Hj.
    rewrite list_lookup_insert_ne by done.
    apply Hzero; [lia|done].
  - exact Hexact.
Qed.

(** The amended C10 at work in integer arithmetic, scalings 1 and 2. *)
Lemma GenerateCoefficients_structure_witness :
  GenerateCoefficients_exact [1; 2] = [0; 4; 0; 1; -10; 1; 0; 4; 0] ∧
  SumOfCoefficients 0 Z.add (GenerateCoefficients_exact [1; 2]) = 0.
Proof.
  split; [reflexivity|].
  apply (GenerateCoefficients_structure 0 2 Z.add Z.mul Z.opp [1; 2]); intros; lia.
Defined.

End LaplacianProofs.

(** ** ObjectMorphologyImageFilter::BeforeThreadedGenerateData *)

Section BeforeThreadedProofs.
Context `{NumericTraits Pixel}.

Lemma CopyLoop_Walk (objectValue : Pixel) (input : Image Pixel) (fuel : nat) :
  ∀ (it : ImageRegionIterator.Iterator) (output : Image Pixel),
    ImageRegionIterator.IsAtEnd (ImageRegionIterator.Walk fuel it).2 = true →
    ObjectMorphologyImageFilter.CopyLoop (S fuel) objectValue input it it output
    = Some (CopyAll objectValue input (ImageRegionIterator.Walk fuel it).1 output).
Proof.
  induction fuel as [|fuel IH]; intros it output Hend; simpl in *.
  - by rewrite Hend.
  - destruct (ImageRegionIterator.IsAtEnd it) eqn:Hit; [done|].
    destruct (ImageRegionIterator.Walk fuel (ImageRegionIterator.Increment it))
      as [visited it'] eqn:Hwalk.
    simpl in Hend.
    specialize (IH (ImageRegionIterator.Increment it)
                  (CopyStep objectValue input output (ImageRegionIterator.GetIndex it))).
    rewrite Hwalk in IH. simpl in IH. specialize (IH Hend).
    destruct (ImageRegionIterator.IsAtEnd (ImageRegionIterator.Increment it)) eqn:Hinc.
    + destruct fuel; simpl in Hwalk; rewrite ?Hinc in Hwalk;
        injection Hwalk as <- <-; done.
    + exact IH.
Qed.

Lemma ComputeOffset_injective (B : Region) (p q : Coordinate) :
  length (m_Index B) = length (m_Size B) →
  IsInside B p → IsInside B q →
  ComputeOffset B p = ComputeOffset B q → p = q.
Proof.
  intros Hlen Hp Hq Heq.
  pose proof (DecodePosition_RowMajor _ _ _ Hp Hlen) as Hdp.
  pose proof (DecodePosition_RowMajor _ _ _ Hq Hlen) as Hdq.
  rewrite !ComputeOffset_RowMajor in Heq. unfold Axes in Heq.
  rewrite Heq in Hdp. congruence.
Qed.

Lemma GetPixel_SetPixel (B : Region) (img : Image Pixel) (p q : Coordinate) (v : Pixel) :
  length (m_Index B) = length (m_Size B) →
  BufferOf B img → IsInside B p → IsInside B q →
  BufferOf B (SetPixel img p v) ∧
  GetPixel (SetPixel img p v) q = if decide (q = p) then v else GetPixel img q.
Proof.
  intros Hlen [HB Hbuf] Hp Hq.
  pose proof (ComputeOffset_range B p Hlen Hp) as Hrp.
  pose proof (ComputeOffset_range B q Hlen Hq) as Hrq.
  unfold SetPixel, GetPixel, WriteBuffer, ReadBuffer. rewrite HB.
  destruct (decide (0 ≤ ComputeOffset B p)); [|lia]. simpl.
  split; [split; [done|simpl; rewrite length_insert; lia]|].
  rewrite HB. destruct (decide (0 ≤ ComputeOffset B q)); [|lia].
  destruct (decide (q = p)) as [->|Hne].
  - rewrite list_lookup_insert_eq by lia. done.
  - rewrite list_lookup_insert_ne; [done|].
    intros Heq. apply Hne. apply (ComputeOffset_injective B); (done || lia).
Qed.

Lemma CopyAll_invariant (B : Region) (objectValue fillValue : Pixel)
    (input : Image Pixel) (visited : list Coordinate) :
  length (m_Index B) = length (m_Size B) →
  fillValue ≠ objectValue →
  Forall (IsInside B) visited →
  ∀ output,
    BufferOf B output →
    (∀ idx, IsInside B idx →
       GetPixel output idx = fillValue ∨ GetPixel output idx = GetPixel input idx) →
    ∀ idx, idx ∈ visited →
      GetPixel (CopyAll objectValue input visited output) idx = GetPixel input idx.
Proof.
  intros Hlen Hfill Hvis. unfold CopyAll.
  induction Hvis as [|p visited Hp Hvis IH]; intros output Hbuf Hinv idx Hidx.
  { by apply elem_of_nil in Hidx. }
  simpl.
  assert (Hstep : BufferOf B (CopyStep objectValue input output p) ∧
            GetPixel (CopyStep objectValue input output p) p = GetPixel input p ∧
            ∀ q, IsInside B q →
              GetPixel (CopyStep objectValue input output p) q = fillValue ∨
              GetPixel (CopyStep objectValue input output p) q = GetPixel input q).
  { unfold CopyStep, NotExactlyEquals, ExactlyEquals.
    destruct (bool_decide_reflect (GetPixel output p = objectValue)) as [Heq|Hne];
      simpl.
    - split; [done|split; [|done]].
      destruct (Hinv p Hp) as [Hf|Hi]; [congruence|done].
    - split; [by apply (GetPixel_SetPixel B output p p)|split].
      + destruct (GetPixel_SetPixel B output p p (GetPixel input p) Hlen Hbuf Hp Hp)
          as [_ ->]. by destruct (decide (p = p)).
      + intros q Hq.
        destruct (GetPixel_SetPixel B output p q (GetPixel input p) Hlen Hbuf Hp Hq)
          as [_ ->].
        destruct (decide (q = p)) as [->|_]; [by right|by apply Hinv]. }
  destruct Hstep as (Hbuf' & Hp' & Hinv').
  destruct (decide (idx ∈ visited)) as [Hin|Hnotin].
  - by apply IH.
  - apply elem_of_cons in Hidx as [->|Hin]; [|done].
    clear IH. revert Hbuf' Hp' Hinv'.
    generalize (CopyStep objectValue input output p). clear Hbuf Hinv.
    induction Hvis as [|q visited Hq Hvis IH]; intros out Hbuf' Hp' Hinv'; [done|].
    simpl. apply not_elem_of_cons in Hnotin as [Hpq Hnotin].
    apply IH; [done| | |].
    + unfold CopyStep. destruct (NotExactlyEquals _ _); [|done].
      by apply (GetPixel_SetPixel B out q q).
    + unfold CopyStep. destruct (NotExactlyEquals _ _); [|done].
      destruct (GetPixel_SetPixel B out q p (GetPixel input q) Hlen Hbuf' Hq Hp)
        as [_ ->]. by destruct (decide (p = q)).
    + intros r Hr. unfold CopyStep. destruct (NotExactlyEquals _ _); [|by apply Hinv'].
      destruct (GetPixel_SetPixel B out q r (GetPixel input q) Hlen Hbuf' Hq Hr)
        as [_ ->].
      destruct (decide (r = q)) as [->|_]; [by right|by apply Hinv'].
Qed.

(** The walk over a region without a zero-extent axis visits every index of
    the region, and only those. *)
Lemma Walk_covers (R : Region) :
  length (m_Index R) = length (m_Size R) →
  Forall (λ n, 0 < n) (m_Size R) →
  ∃ (fuel0 : nat) (visited : list Coordinate),
    (∀ fuel, (fuel0 ≤ fuel)%nat →
       ImageRegionIterator.Walk fuel (ImageRegionIterator.Construct R)
       = (visited, {| ImageRegionIterator.m_Region := R;
                      ImageRegionIterator.m_State := ImageRegionIterator.AtEnd |})) ∧
    Forall (IsInside R) visited ∧
    (∀ idx, IsInside R idx → idx ∈ visited).
Proof.
  intros Hlen Hpos.
  pose proof (Axes_origin_inside _ _ Hlen Hpos) as Hin. fold (Axes R) in Hin.
  pose proof (RowMajor_range _ _ Hin) as Hrange.
  pose proof (RowMajor_origin (m_Index R) (m_Size R)) as H0. fold (Axes R) in H0.
  destruct (Walk_from R (Z.to_nat (Volume (Axes R)) - 1) (m_Index R) Hin)
    as (visited & Hwalk & Hlength & Hvis & _); [lia|].
  eexists _, visited. split; [|split].
  - intros fuel Hfuel. rewrite Construct_positive by done. apply Hwalk. exact Hfuel.
  - apply Forall_lookup. intros j a Ha. by destruct (Hvis j a Ha).
  - intros idx Hidx.
    pose proof (RowMajor_range _ _ Hidx) as Hr.
    destruct (lookup_lt_is_Some_2 visited (Z.to_nat (RowMajor (Axes R) idx))
                ltac:(lia)) as [a Ha].
    destruct (Hvis _ a Ha) as [Hain Harm].
    assert (a = idx) as ->; [|by eapply list_elem_of_lookup_2].
    apply (ComputeOffset_injective R); [done|done|done|].
    rewrite !ComputeOffset_RowMajor. lia.
Qed.

(** C8. [BeforeThreadedGenerateData] ends, the value it fills the output
    buffer with (1 when the object value is the zero pixel, 0 otherwise)
    differs from the object value, and afterwards every pixel of the
    requested region of the output equals the corresponding input pixel. *)
Theorem BeforeThreadedGenerateData_copies_input
    (f : ObjectMorphologyImageFilter.Filter Pixel) (input : Image Pixel) :
  let output := ObjectMorphologyImageFilter.m_Output f in
  let R := m_RequestedRegion output in
  let B := m_BufferedRegion output in
  let objectValue := ObjectMorphologyImageFilter.m_ObjectValue f in
  ObjectMorphologyImageFilter.m_Input f = Some input →
  length (m_Index R) = length (m_Size R) →
  length (m_Index B) = length (m_Size B) →
  (∀ idx, IsInside R idx → IsInside B idx) →
  Z.of_nat (length (m_Buffer output)) = GetNumberOfPixels B →
  (if ExactlyEquals objectValue ZeroValue then OneValue else ZeroValue) ≠ objectValue ∧
  ∃ (fuel0 : nat) (f' : ObjectMorphologyImageFilter.Filter Pixel),
    (∀ fuel, (fuel0 ≤ fuel)%nat →
       ObjectMorphologyImageFilter.BeforeThreadedGenerateData fuel f = Some f') ∧
    (∀ idx, IsInside R idx →
       GetPixel (ObjectMorphologyImageFilter.m_Output f') idx = GetPixel input idx).
Proof.
  intros output R B objectValue Hinput HR HB Hsub Hbuf.
  set (fillValue := if ExactlyEquals objectValue ZeroValue then OneValue else ZeroValue).
  assert (Hfill : fillValue ≠ objectValue).
  { unfold fillValue, ExactlyEquals.
    destruct (bool_decide_reflect (objectValue = ZeroValue)) as [->|Hne];
      [apply OneValue_ne_ZeroValue|done]. }
  split; [done|].
  set (filled := FillBuffer output fillValue).
  assert (Hfilled : BufferOf B filled ∧ m_RequestedRegion filled = R ∧
                    ∀ idx, IsInside B idx → GetPixel filled idx = fillValue).
  { split; [split; [done|]|split; [done|]].
    - unfold filled, FillBuffer. simpl. rewrite length_replicate. exact Hbuf.
    - intros idx Hidx. pose proof (ComputeOffset_range B idx HB Hidx) as Hr.
      unfold GetPixel, ReadBuffer, filled, FillBuffer. simpl. fold B.
      destruct (decide (0 ≤ ComputeOffset B idx)); [|lia].
      rewrite (proj2 (lookup_replicate _ _ fillValue _)); [done|].
      split; [done|lia]. }
  destruct Hfilled as (Hbufof & Hreq & Hread).
  assert (Hwalk : ∃ (fuel0 : nat) (visited : list Coordinate),
            (∀ fuel, (fuel0 ≤ fuel)%nat →
               ImageRegionIterator.Walk fuel (ImageRegionIterator.Construct R)
               = (visited,
                  {| ImageRegionIterator.m_Region := R;
                     ImageRegionIterator.m_State := ImageRegionIterator.AtEnd |})) ∧
            (∀ idx, IsInside R idx → Forall (IsInside R) visited ∧ idx ∈ visited)).
  { destruct (decide (Forall (λ n, 0 < n) (m_Size R))) as [Hpos|Hempty].
    - destruct (Walk_covers R HR Hpos) as (fuel0 & visited & Hw & Hall & Hcov).
      exists fuel0, visited. split; [done|]. intros idx Hidx. split; [done|auto].
    - destruct (Walk_terminates R HR) as (fuel0 & visited & Hw).
      exists fuel0, visited. split; [done|]. intros idx Hidx. exfalso.
      apply not_Forall_Exists in Hempty; [|apply _].
      revert Hidx. apply NoIndex_of_empty_axis. unfold Axes.
      revert HR Hempty. generalize (m_Index R) (m_Size R). intros ix sz. revert ix.
      induction sz as [|n sz IH]; intros [|i ix] Hlen Hex; simpl in *;
        try lia; inversion Hex as [? ? Hn|? ? Hrest]; subst.
      + left. unfold compose in Hn. simpl. lia.
      + right. apply IH; [lia|done]. }
  destruct Hwalk as (fuel0 & visited & Hw & Hcov).
  exists (S fuel0),
    (ObjectMorphologyImageFilter.SetOutput f (CopyAll objectValue input visited filled)).
  split.
  - intros [|fuel] Hfuel; [lia|].
    unfold ObjectMorphologyImageFilter.BeforeThreadedGenerateData.
    fold output objectValue fillValue.
    replace (if ExactlyEquals objectValue ZeroValue
             then FillBuffer output OneValue else FillBuffer output ZeroValue)
      with filled by (unfold filled, fillValue; by destruct (ExactlyEquals _ _)).
    rewrite Hinput, Hreq. cbn [mbind option_bind].
    rewrite CopyLoop_Walk by (rewrite Hw by lia; done).
    rewrite Hw by lia. done.
  - intros idx Hidx. destruct (Hcov idx Hidx) as [Hall Hin]. simpl.
    apply (CopyAll_invariant B objectValue fillValue input visited HB Hfill);
      [|done| |done].
    + eapply Forall_impl; [exact Hall|]. exact Hsub.
    + intros q Hq. left. by apply Hread.
Qed.

End BeforeThreadedProofs.

(** C8 at work: a 2 x 2 output requested in full, object value 1. *)
Lemma BeforeThreadedGenerateData_copies_input_witness :
  let input : Image Z :=
    {| m_ObjectId := 1; m_LargestPossibleRegion := MakeRegion [0; 0] [2; 2];
       m_RequestedRegion := MakeRegion [0; 0] [2; 2];
       m_BufferedRegion := MakeRegion [0; 0] [2; 2];
       m_Buffer := [5; 1; 0; 7] |} in
  let output : Image Z :=
    {| m_ObjectId := 2; m_LargestPossibleRegion := MakeRegion [0; 0] [2; 2];
       m_RequestedRegion := MakeRegion [0; 0] [2; 2];
       m_BufferedRegion := MakeRegion [0; 0] [2; 2];
       m_Buffer := [9; 9; 9; 9] |} in
  let f := ObjectMorphologyImageFilter.SetInput
             (ObjectMorphologyImageFilter.Construct 2 false output) input in
  ObjectMorphologyImageFilter.BeforeThreadedGenerateData 5 f
  = Some (ObjectMorphologyImageFilter.SetOutput f
            {| m_ObjectId := 2; m_LargestPossibleRegion := MakeRegion [0; 0] [2; 2];
               m_RequestedRegion := MakeRegion [0; 0] [2; 2];
               m_BufferedRegion := MakeRegion [0; 0] [2; 2];
               m_Buffer := [5; 1; 0; 7] |}) ∧
  (0 : Z) ≠ 1.
Proof.
  intros input output f. split; [reflexivity|].
  refine (proj1 (BeforeThreadedGenerateData_copies_input f input _ _ _ _ _)).
  - reflexivity.
  - reflexivity.
  - reflexivity.
  - intros idx Hidx. exact Hidx.
  - reflexivity.
Defined.

(* ===================================================================== *)
(** * Part III: further properties of the code                             *)
(* ===================================================================== *)

(** ** ImageRandomNonRepeatingConstIteratorWithIndex: positions to indices *)

Section RandomIteratorProperties.
Import ImageRandomNonRepeatingConstIteratorWithIndex.

Lemma Product_positive_sizes (sz : Coordinate) :
  Forall (λ n, 0 ≤ n) sz → 0 < foldr Z.mul 1 sz → Forall (λ n, 0 < n) sz.
Proof.
  induction 1 as [|n sz Hn _ IH]; simpl; intros Hprod; [constructor|].
  assert (Hpos : 0 < n).
  { destruct (decide (n = 0)) as [->|]; [|lia]. rewrite Z.mul_0_l in Hprod. lia. }
  constructor; [done|]. apply IH. by apply (Z.mul_pos_cancel_l n).
Qed.

(** Every position below the number of pixels decodes, to an index of the
    region whose row-major offset is the position. *)
Lemma DecodePosition_inverse (sz : Coordinate) :
  ∀ (ix : Coordinate) (position : Z),
    length ix = length sz → Forall (λ n, 0 < n) sz →
    0 ≤ position < foldr Z.mul 1 sz →
    ∃ idx, DecodePosition position sz ix = Some idx ∧
           Forall2 InAxis (zip ix sz) idx ∧
           RowMajor (zip ix sz) idx = position.
Proof.
  induction sz as [|n sz IH]; intros [|i ix] position Hlen Hpos Hrange;
    simpl in *; try lia.
  - exists []. split; [done|split; [constructor|lia]].
  - inversion Hpos as [|? ? Hn Hpos']; subst.
    destruct (decide (n = 0)) as [->|_]; [lia|].
    assert (Hprod : 0 < foldr Z.mul 1 sz) by nia.
    rewrite Z.rem_mod_nonneg by lia.
    pose proof (Z.mod_pos_bound position n Hn) as Hmod.
    pose proof (Z.div_mod position n ltac:(lia)) as Hdm.
    replace ((position - position `mod` n) `quot` n) with (position `div` n).
    2:{ replace (position - position `mod` n) with ((position `div` n) * n) by lia.
        rewrite Z.quot_mul by lia. done. }
    destruct (IH ix (position `div` n) ltac:(lia) Hpos') as (rest & Hdec & Hin & Hrm).
    { split; [apply Z.div_pos; lia|].
      apply Z.div_lt_upper_bound; lia. }
    exists ((position `mod` n + i) :: rest). rewrite Hdec. simpl.
    split; [done|split].
    + constructor; [unfold InAxis; simpl; lia|done].
    + rewrite Hrm. lia.
Qed.

Lemma UpdatePosition_offset (it : Iterator) (position : Z) :
  length (m_Index (m_Region it)) = length (m_Size (m_Region it)) →
  Forall (λ n, 0 < n) (m_Size (m_Region it)) →
  m_BeginIndex it = m_Index (m_Region it) →
  m_NumberOfSamplesRequested it ≠ 0 →
  m_Permutation it
    !! Z.to_nat (m_NumberOfSamplesDone it `rem` m_NumberOfSamplesRequested it)
  = Some position →
  0 ≤ position < GetNumberOfPixels (m_Region it) →
  ∃ it', UpdatePosition it = Some it' ∧
         IsInside (m_Region it) (m_PositionIndex it') ∧
         ComputeOffset (m_Region it) (m_PositionIndex it') = position ∧
         m_Position it' = ComputeOffset (m_BufferedRegion it) (m_PositionIndex it') ∧
         m_Region it' = m_Region it ∧ m_Permutation it' = m_Permutation it.
Proof.
  intros Hlen Hpos Hbegin Hreq Hperm Hrange.
  destruct (DecodePosition_inverse _ _ position Hlen Hpos Hrange)
    as (idx & Hdec & Hin & Hrm).
  unfold UpdatePosition.
  destruct (decide (m_NumberOfSamplesRequested it = 0)); [done|].
  rewrite Hperm. simpl. rewrite Hbegin, Hdec. simpl.
  eexists. split; [done|]. simpl.
  split; [done|]. rewrite ComputeOffset_RowMajor. done.
Qed.

(** X1. [UpdatePosition] lands inside the region: whenever samples were
    requested and the permutation yields a position below the number of
    pixels of a region without empty axis, the call succeeds, the new
    position index lies in the region, its row-major offset in the region is
    the position drawn, and [m_Position] is its offset in the buffer. *)
Theorem UpdatePosition_lands_inside (it : Iterator) (position : Z) :
  length (m_Index (m_Region it)) = length (m_Size (m_Region it)) →
  Forall (λ n, 0 < n) (m_Size (m_Region it)) →
  m_BeginIndex it = m_Index (m_Region it) →
  m_NumberOfSamplesRequested it ≠ 0 →
  m_Permutation it
    !! Z.to_nat (m_NumberOfSamplesDone it `rem` m_NumberOfSamplesRequested it)
  = Some position →
  0 ≤ position < GetNumberOfPixels (m_Region it) →
  ∃ it', UpdatePosition it = Some it' ∧
         IsInside (m_Region it) (m_PositionIndex it') ∧
         ComputeOffset (m_Region it) (m_PositionIndex it') = position ∧
         m_Position it' = ComputeOffset (m_BufferedRegion it) (m_PositionIndex it') ∧
         m_Region it' = m_Region it ∧ m_Permutation it' = m_Permutation it.
Proof. apply UpdatePosition_offset. Qed.

(** X1 at work: position 7 of the 4 x 3 region at (2,4) is the index (5,5). *)
Lemma UpdatePosition_lands_inside_witness :
  let it := {| m_Region := MakeRegion [2; 4] [4; 3]; m_BeginIndex := [2; 4];
               m_BufferedRegion := MakeRegion [0; 0] [10; 10];
               m_PositionIndex := [2; 4]; m_Position := 42;
               m_NumberOfSamplesRequested := 3; m_NumberOfSamplesDone := 4;
               m_NumberOfPixelsInRegion := 12;
               m_Permutation := [0; 7; 11] |} in
  ∃ it', UpdatePosition it = Some it' ∧
         IsInside (m_Region it) (m_PositionIndex it') ∧
         ComputeOffset (m_Region it) (m_PositionIndex it') = 7 ∧
         m_Position it' = ComputeOffset (m_BufferedRegion it) (m_PositionIndex it') ∧
         m_Region it' = m_Region it ∧ m_Permutation it' = m_Permutation it.
Proof.
  intros it. apply (UpdatePosition_lands_inside it 7).
  - reflexivity.
  - repeat constructor.
  - reflexivity.
  - discriminate.
  - reflexivity.
  - split; [lia|reflexivity].
Defined.

(** X2. The iterator does not repeat: two calls of [UpdatePosition] over the
    same region that draw different positions, both below the number of
    pixels, land on different indices. *)
Theorem UpdatePosition_never_repeats (it1 it2 it1' it2' : Iterator) (p1 p2 : Z) :
  m_Region it1 = m_Region it2 →
  m_BeginIndex it1 = m_Index (m_Region it1) →
  m_BeginIndex it2 = m_Index (m_Region it2) →
  length (m_Index (m_Region it1)) = length (m_Size (m_Region it1)) →
  Forall (λ n, 0 < n) (m_Size (m_Region it1)) →
  m_Permutation it1
    !! Z.to_nat (m_NumberOfSamplesDone it1 `rem` m_NumberOfSamplesRequested it1)
  = Some p1 →
  m_Permutation it2
    !! Z.to_nat (m_NumberOfSamplesDone it2 `rem` m_NumberOfSamplesRequested it2)
  = Some p2 →
  0 ≤ p1 < GetNumberOfPixels (m_Region it1) →
  0 ≤ p2 < GetNumberOfPixels (m_Region it1) →
  p1 ≠ p2 →
  UpdatePosition it1 = Some it1' →
  UpdatePosition it2 = Some it2' →
  m_PositionIndex it1' ≠ m_PositionIndex it2'.
Proof.
  intros HR Hb1 Hb2 Hlen Hpos Hp1 Hp2 Hr1 Hr2 Hne Hu1 Hu2 Heq.
  assert (Hreq : ∀ it it', UpdatePosition it = Some it' →
                           m_NumberOfSamplesRequested it ≠ 0).
  { intros it it'. unfold UpdatePosition.
    by destruct (decide (m_NumberOfSamplesRequested it = 0)). }
  destruct (UpdatePosition_offset it1 p1 Hlen Hpos Hb1 (Hreq _ _ Hu1) Hp1 Hr1)
    as (it1'' & Hu1' & _ & Ho1 & _).
  rewrite HR in Hlen, Hpos, Hr2.
  destruct (UpdatePosition_offset it2 p2 Hlen Hpos Hb2 (Hreq _ _ Hu2) Hp2 Hr2)
    as (it2'' & Hu2' & _ & Ho2 & _).
  rewrite Hu1 in Hu1'. rewrite Hu2 in Hu2'.
  injection Hu1' as <-. injection Hu2' as <-.
  rewrite HR, Heq in Ho1. congruence.
Qed.

(** X2 at work: positions 7 and 11 of the 4 x 3 region at (2,4). *)
Lemma UpdatePosition_never_repeats_witness :
  let it1 := {| m_Region := MakeRegion [2; 4] [4; 3]; m_BeginIndex := [2; 4];
                m_BufferedRegion := MakeRegion [0; 0] [10; 10];
                m_PositionIndex := [2; 4]; m_Position := 42;
                m_NumberOfSamplesRequested := 3; m_NumberOfSamplesDone := 1;
                m_NumberOfPixelsInRegion := 12;
                m_Permutation := [0; 7; 11] |} in
  let it2 := {| m_Region := MakeRegion [2; 4] [4; 3]; m_BeginIndex := [2; 4];
                m_BufferedRegion := MakeRegion [0; 0] [10; 10];
                m_PositionIndex := [5; 5]; m_Position := 55;
                m_NumberOfSamplesRequested := 3; m_NumberOfSamplesDone := 2;
                m_NumberOfPixelsInRegion := 12;
                m_Permutation := [0; 7; 11] |} in
  ∃ it1' it2', UpdatePosition it1 = Some it1' ∧ UpdatePosition it2 = Some it2' ∧
               m_PositionIndex it1' = [5; 5] ∧ m_PositionIndex it2' = [5; 6] ∧
               m_PositionIndex it1' ≠ m_PositionIndex it2'.
Proof.
  intros it1 it2. eexists _, _.
  split; [reflexivity|]. split; [reflexivity|].
  split; [reflexivity|]. split; [reflexivity|].
  apply (UpdatePosition_never_repeats it1 it2 _ _ 7 11).
  - reflexivity.
  - reflexivity.
  - reflexivity.
  - reflexivity.
  - repeat constructor.
  - reflexivity.
  - reflexivity.
  - split; [lia|reflexivity].
  - split; [lia|reflexivity].
  - lia.
  - reflexivity.
  - reflexivity.
Defined.

Lemma Product_nonneg (sz : Coordinate) :
  Forall (λ n, 0 ≤ n) sz → 0 ≤ foldr Z.mul 1 sz.
Proof. induction 1 as [|n sz Hn _ IH]; simpl; [lia|]. by apply Z.mul_nonneg_nonneg. Qed.

(** X3. [SetPriorityImage] never divides by zero: over any region whose sizes
    are not negative, an empty region included, every pixel number below the
    number of pixels decodes, so a priority is set for exactly
    [GetNumberOfPixels] pixels, the k-th one read from the priority image at
    the index of the region with row-major offset k. *)
Theorem SetPriorityImage_sets_every_pixel {Priority : Type} (it : Iterator)
    (priorityImage : Coordinate → Priority) :
  length (m_Index (m_Region it)) = length (m_Size (m_Region it)) →
  Forall (λ n, 0 ≤ n) (m_Size (m_Region it)) →
  m_BeginIndex it = m_Index (m_Region it) →
  m_NumberOfPixelsInRegion it = GetNumberOfPixels (m_Region it) →
  ∃ priorities,
    SetPriorityImage it priorityImage = Some priorities ∧
    Z.of_nat (length priorities) = GetNumberOfPixels (m_Region it) ∧
    (∀ (k : nat) (p : Priority), priorities !! k = Some p →
       ∃ idx, IsInside (m_Region it) idx ∧
              ComputeOffset (m_Region it) idx = Z.of_nat k ∧
              p = priorityImage idx).
Proof.
  intros Hlen Hnonneg Hbegin HN.
  pose proof (Product_nonneg _ Hnonneg) as HN0. fold (GetNumberOfPixels (m_Region it)) in HN0.
  assert (Hdec : ∀ pixel : nat,
            Z.of_nat pixel < GetNumberOfPixels (m_Region it) →
            ∃ idx, DecodePosition (Z.of_nat pixel) (m_Size (m_Region it)) (m_BeginIndex it)
                   = Some idx ∧
                   IsInside (m_Region it) idx ∧
                   ComputeOffset (m_Region it) idx = Z.of_nat pixel).
  { intros pixel Hpixel. rewrite Hbegin.
    assert (Hpos : Forall (λ n, 0 < n) (m_Size (m_Region it))).
    { apply Product_positive_sizes; [done|]. unfold GetNumberOfPixels in Hpixel. lia. }
    destruct (DecodePosition_inverse _ _ (Z.of_nat pixel) Hlen Hpos)
      as (idx & Hd & Hin & Hrm); [unfold GetNumberOfPixels in Hpixel; lia|].
    exists idx. split; [done|split; [done|]]. by rewrite ComputeOffset_RowMajor. }
  unfold SetPriorityImage. rewrite HN.
  match goal with |- ∃ _, mapM ?f ?l = _ ∧ _ => destruct (mapM f l) as [priorities|] eqn:Hmap end.
  - exists priorities. split; [done|]. split.
    + apply length_mapM in Hmap. rewrite length_seq in Hmap. lia.
    + intros k p Hk. apply mapM_Some in Hmap.
      destruct (Forall2_lookup_r _ _ _ _ _ Hmap Hk) as (pixel & Hpixel & Hf).
      apply lookup_seq in Hpixel as [-> Hlt]. simpl in Hf.
      destruct (Hdec k ltac:(lia)) as (idx & Hd & Hin & Hoff).
      rewrite Hd in Hf. simpl in Hf. injection Hf as <-. eauto.
  - exfalso. assert (Hsome : is_Some (mapM
        (λ pixel : nat,
           DecodePosition (Z.of_nat pixel) (m_Size (m_Region it)) (m_BeginIndex it)
           ≫= λ positionIndex, Some (priorityImage positionIndex))
        (seq 0 (Z.to_nat (GetNumberOfPixels (m_Region it)))))).
    { apply mapM_is_Some. apply Forall_forall. intros pixel Hpixel.
      apply list_elem_of_lookup in Hpixel as [j Hj].
      apply lookup_seq in Hj as [-> Hlt]. simpl.
      destruct (Hdec j ltac:(lia)) as (idx & Hd & _). unfold compose.
      rewrite Hd. by eexists. }
    rewrite Hmap in Hsome. by destruct Hsome.
Qed.

(** X3 at work: the empty 0 x 3 region, and the 2 x 2 region at (1,1). *)
Lemma SetPriorityImage_sets_every_pixel_witness :
  SetPriorityImage (Construct (MakeRegion [0; 0] [4; 4]) (MakeRegion [0; 0] [0; 3]) [])
    (λ idx : Coordinate, idx) = Some [] ∧
  ∃ priorities,
    SetPriorityImage
      (Construct (MakeRegion [0; 0] [4; 4]) (MakeRegion [1; 1] [2; 2]) [0; 1; 2; 3])
      (λ idx : Coordinate, idx) = Some priorities ∧
    Z.of_nat (length priorities) = 4 ∧
    (∀ (k : nat) (p : Coordinate), priorities !! k = Some p →
       ∃ idx, IsInside (MakeRegion [1; 1] [2; 2]) idx ∧
              ComputeOffset (MakeRegion [1; 1] [2; 2]) idx = Z.of_nat k ∧
              p = idx).
Proof.
  split; [reflexivity|].
  apply (SetPriorityImage_sets_every_pixel
           (Construct (MakeRegion [0; 0] [4; 4]) (MakeRegion [1; 1] [2; 2]) [0; 1; 2; 3])
           (λ idx : Coordinate, idx)).
  - reflexivity.
  - repeat constructor; lia.
  - reflexivity.
  - reflexivity.
Defined.

End RandomIteratorProperties.

(** ** LaplacianOperator: symmetry of the coefficients *)

Section LaplacianSymmetry.
Import LaplacianOperator.
Context {T : Type} (zero two : T) (add mul : T → T → T) (opp : T → T).

Lemma Pow3_odd (D : nat) : 3 ^ Z.of_nat D = 2 * (3 ^ Z.of_nat D `div` 2) + 1.
Proof.
  assert (Hodd : 3 ^ Z.of_nat D `mod` 2 = 1).
  { induction D as [|D IH]; [done|].
    rewrite Nat2Z.inj_succ, Z.pow_succ_r by lia.
    rewrite Z.mul_mod, IH by lia. done. }
  pose proof (Z.div_mod (3 ^ Z.of_nat D) 2 ltac:(lia)). lia.
Qed.

(** The loop keeps the coefficient vector equal to its mirror image. *)
Lemma Loop_symmetric (s : list T) (m : nat) :
  (m ≤ length s)%nat →
  ∀ j : nat, (j < Z.to_nat (3 ^ Z.of_nat (length s)))%nat →
    (LoopState zero two add mul s m).1 !! j
    = (LoopState zero two add mul s m).1
        !! (Z.to_nat (3 ^ Z.of_nat (length s)) - S j)%nat.
Proof.
  induction m as [|m IH]; intros Hm j Hj.
  - unfold LoopState. simpl.
    rewrite !(proj2 (lookup_replicate _ _ zero _)); (done || split; (done || lia)).
  - specialize (IH ltac:(lia)).
    destruct (Loop_invariant zero two add mul s m ltac:(lia)) as (Hlen & _).
    rewrite LoopState_S.
    destruct (LoopState zero two add mul s m) as [coeffP sum]. simpl in *.
    rewrite GetStride_ones by lia.
    pose proof (Pow3_center (length s) m ltac:(lia)) as (Hm0 & Hm1 & Hm2).
    pose proof (Pow3_odd (length s)) as Hodd.
    rewrite !list_lookup_insert. rewrite !length_insert.
    repeat case_decide; try done; try lia.
    all: apply IH; lia.
Qed.

(** X4. The Laplacian coefficients are symmetric about the center: the
    vector [GenerateCoefficients] returns reads the same backwards, in any
    coefficient arithmetic, rounded or exact. *)
Theorem GenerateCoefficients_symmetric (s : list T) :
  reverse (GenerateCoefficients zero two add mul opp s)
  = GenerateCoefficients zero two add mul opp s.
Proof.
  rewrite GenerateCoefficients_unfold.
  destruct (Loop_invariant zero two add mul s (length s) ltac:(lia)) as (Hlen & _).
  pose proof (Loop_symmetric s (length s) ltac:(lia)) as Hsym.
  pose proof (Pow3_odd (length s)) as Hodd.
  assert (Hw : 0 < 3 ^ Z.of_nat (length s)) by (apply Z.pow_pos_nonneg; lia).
  destruct (LoopState zero two add mul s (length s)) as [coeffP sum]. simpl in *.
  apply list_eq. intros j.
  destruct (decide (j < Z.to_nat (3 ^ Z.of_nat (length s)))%nat) as [Hj|Hj].
  - rewrite reverse_lookup by (rewrite length_insert; lia).
    rewrite length_insert, Hlen.
    rewrite !list_lookup_insert, Hlen.
    repeat case_decide; try done; try lia.
    symmetry. apply Hsym. lia.
  - rewrite !lookup_ge_None_2; [done| |].
    + rewrite length_insert. lia.
    + rewrite length_reverse, length_insert. lia.
Qed.

End LaplacianSymmetry.

(** ** GenerateInputRequestedRegion: requests that cannot fail *)

Section ValidRequests.

Lemma PadAxes_contains (axes : list (Z * Z)) :
  ∀ (radius p : Coordinate),
    length axes = length radius →
    Forall (λ r, 0 ≤ r) radius →
    Forall2 InAxis axes p →
    Forall2 InAxis (zip_with PadAxis axes radius) p.
Proof.
  induction axes as [|ax axes IH]; intros [|r radius] p Hlen Hrad Hp;
    simpl in *; try lia; [done|].
  inversion Hp as [|? x ? q Hx Hq]; subst.
  inversion Hrad as [|? ? Hr Hrad']; subst.
  constructor; [|apply IH; (lia || done)].
  unfold InAxis, PadAxis in *. simpl. lia.
Qed.

Lemma PadByRadius_contains (R : Region) (radius p : Coordinate) :
  length (m_Index R) = length (m_Size R) →
  length radius = length (m_Size R) →
  Forall (λ r, 0 ≤ r) radius →
  IsInside R p → IsInside (PadByRadius R radius) p.
Proof.
  intros Hix Hrad Hpos Hp. unfold PadByRadius.
  rewrite IsInside_RegionOfAxes. apply PadAxes_contains; [|done|done].
  rewrite Axes_length by done. lia.
Qed.

Lemma PadCrop_granted {Pixel : Type} (input : Image Pixel) (radius : Coordinate)
    (e : Exception) (q : Coordinate) :
  SameDimension (m_RequestedRegion input) (m_LargestPossibleRegion input) radius →
  Forall (λ r, 0 ≤ r) radius →
  IsInside (m_RequestedRegion input) q →
  IsInside (m_LargestPossibleRegion input) q →
  RequestGranted input
    match Crop (PadByRadius (m_RequestedRegion input) radius)
               (m_LargestPossibleRegion input) with
    | Some cropped => Returned (Some (SetRequestedRegion input cropped))
    | None =>
        Thrown e (Some (SetRequestedRegion input
                          (PadByRadius (m_RequestedRegion input) radius)))
    end.
Proof.
  intros (Hix & Hrad & Hlix & Hlsz) Hpos Hq1 Hq2.
  destruct (PadByRadius_fields _ radius Hix Hrad) as [Hpix Hpsz].
  assert (Hlen : length (Axes (PadByRadius (m_RequestedRegion input) radius))
                 = length (Axes (m_LargestPossibleRegion input))).
  { unfold Axes. rewrite !length_zip, Hpix, Hpsz, !length_zip_with. lia. }
  pose proof (Crop_spec _ _ Hlen) as Hcrop.
  destruct (Crop _ _) as [cropped|].
  - destruct Hcrop as [Hiff _]. exists cropped. split; [done|split].
    + intros p Hp1 Hp2. apply Hiff. split; [|done].
      by apply PadByRadius_contains.
    + intros p Hp. by apply Hiff in Hp as [_ Hp].
  - exfalso. apply (Hcrop q). split; [|done]. by apply PadByRadius_contains.
Qed.

(** X5. A request that meets the image never fails: when some index of the
    input requested region lies in the largest possible region (and the
    kernel radius is not negative), [GenerateInputRequestedRegion] of either
    filter returns without throwing, and the region the input then requests
    keeps every requested index of the largest possible region and nothing
    outside it. *)
Theorem GenerateInputRequestedRegion_valid_request_granted :
  (∀ (Pixel : Type) (traits : NumericTraits Pixel)
     (Superclass : ObjectMorphologyImageFilter.Filter Pixel
                   → ObjectMorphologyImageFilter.Filter Pixel)
     (f : ObjectMorphologyImageFilter.Filter Pixel) (input : Image Pixel)
     (q : Coordinate),
     ObjectMorphologyImageFilter.m_Input (Superclass f) = Some input →
     SameDimension (m_RequestedRegion input) (m_LargestPossibleRegion input)
       (ObjectMorphologyImageFilter.m_KernelRadius (Superclass f)) →
     Forall (λ r, 0 ≤ r) (ObjectMorphologyImageFilter.m_KernelRadius (Superclass f)) →
     IsInside (m_RequestedRegion input) q →
     IsInside (m_LargestPossibleRegion input) q →
     RequestGranted input
       (OutcomeMap ObjectMorphologyImageFilter.m_Input
          (ObjectMorphologyImageFilter.GenerateInputRequestedRegion Superclass f))) ∧
  (∀ (Pixel : Type)
     (Superclass : VectorGradientMagnitudeImageFilter.Filter Pixel
                   → VectorGradientMagnitudeImageFilter.Filter Pixel)
     (f : VectorGradientMagnitudeImageFilter.Filter Pixel) (input output : Image Pixel)
     (q : Coordinate),
     VectorGradientMagnitudeImageFilter.m_Input (Superclass f) = Some input →
     VectorGradientMagnitudeImageFilter.m_Output (Superclass f) = Some output →
     SameDimension (m_RequestedRegion input) (m_LargestPossibleRegion input)
       (replicate (VectorGradientMagnitudeImageFilter.ImageDimension (Superclass f)) 1) →
     IsInside (m_RequestedRegion input) q →
     IsInside (m_LargestPossibleRegion input) q →
     RequestGranted input
       (OutcomeMap VectorGradientMagnitudeImageFilter.m_Input
          (VectorGradientMagnitudeImageFilter.GenerateInputRequestedRegion Superclass f))).
Proof.
  split.
  - intros Pixel traits Superclass f input q Hinput Hdim Hpos Hq1 Hq2.
    unfold ObjectMorphologyImageFilter.GenerateInputRequestedRegion.
    rewrite Hinput.
    pose proof (PadCrop_granted input _
                  (InvalidRequestedRegionError
                     "Requested region is outside largest possible region."
                     (m_ObjectId input)) q Hdim Hpos Hq1 Hq2) as Hspec.
    destruct (Crop _ _); exact Hspec.
  - intros Pixel Superclass f input output q Hinput Houtput Hdim Hq1 Hq2.
    unfold VectorGradientMagnitudeImageFilter.GenerateInputRequestedRegion.
    rewrite Hinput, Houtput.
    assert (Hpos : Forall (λ r, 0 ≤ r)
              (replicate (VectorGradientMagnitudeImageFilter.ImageDimension
                            (Superclass f)) 1)).
    { apply Forall_replicate. lia. }
    pose proof (PadCrop_granted input _
                  (InvalidRequestedRegionError
                     "Requested region is (at least partially) outside the largest possible region."
                     (m_ObjectId input)) q Hdim Hpos Hq1 Hq2) as Hspec.
    destruct (Crop _ _); exact Hspec.
Qed.

(** X5 at work: the gradient filter on a 5 x 5 image whose corner 2 x 2 block
    is requested. *)
Lemma GenerateInputRequestedRegion_valid_request_granted_witness :
  let input : Image Z :=
    {| m_ObjectId := 7; m_LargestPossibleRegion := MakeRegion [0; 0] [5; 5];
       m_RequestedRegion := MakeRegion [0; 0] [2; 2];
       m_BufferedRegion := MakeRegion [0; 0] [5; 5];
       m_Buffer := replicate 25 0 |} in
  let f := {| VectorGradientMagnitudeImageFilter.ImageDimension := 2;
              VectorGradientMagnitudeImageFilter.m_Input := Some input;
              VectorGradientMagnitudeImageFilter.m_Output := Some input |} in
  VectorGradientMagnitudeImageFilter.GenerateInputRequestedRegion id f
  = Returned (VectorGradientMagnitudeImageFilter.SetInput f
                (SetRequestedRegion input (MakeRegion [0; 0] [3; 3]))) ∧
  RequestGranted input
    (OutcomeMap VectorGradientMagnitudeImageFilter.m_Input
       (VectorGradientMagnitudeImageFilter.GenerateInputRequestedRegion id f)).
Proof.
  intros input f. split; [reflexivity|].
  apply (proj2 GenerateInputRequestedRegion_valid_request_granted Z id f input input
           [1; 1]).
  - reflexivity.
  - reflexivity.
  - repeat split.
  - refine (bool_decide_eq_true_1 _ _). vm_compute. reflexivity.
  - refine (bool_decide_eq_true_1 _ _). vm_compute. reflexivity.
Defined.

End ValidRequests.

(** ** BeforeThreadedGenerateData: the whole output buffer *)

Section BeforeThreadedOutside.
Context `{NumericTraits Pixel}.

Lemma CopyStep_frame (objectValue : Pixel) (input output : Image Pixel)
    (idx : Coordinate) :
  let output' := CopyStep objectValue input output idx in
  m_ObjectId output' = m_ObjectId output ∧
  m_LargestPossibleRegion output' = m_LargestPossibleRegion output ∧
  m_RequestedRegion output' = m_RequestedRegion output ∧
  m_BufferedRegion output' = m_BufferedRegion output ∧
  length (m_Buffer output') = length (m_Buffer output).
Proof.
  unfold CopyStep, SetPixel, WriteBuffer.
  destruct (NotExactlyEquals _ _); [|done].
  destruct (decide (0 ≤ _)); [|done]. simpl. by rewrite length_insert.
Qed.

Lemma CopyAll_frame (objectValue : Pixel) (input : Image Pixel)
    (visited : list Coordinate) :
  ∀ output,
    let output' := CopyAll objectValue input visited output in
    m_ObjectId output' = m_ObjectId output ∧
    m_LargestPossibleRegion output' = m_LargestPossibleRegion output ∧
    m_RequestedRegion output' = m_RequestedRegion output ∧
    m_BufferedRegion output' = m_BufferedRegion output ∧
    length (m_Buffer output') = length (m_Buffer output).
Proof.
  unfold CopyAll. induction visited as [|p visited IH]; intros output; simpl; [done|].
  destruct (IH (CopyStep objectValue input output p)) as (-> & -> & -> & -> & ->).
  apply CopyStep_frame.
Qed.

(** The copy loop leaves the pixels it does not visit as they were. *)
Lemma CopyAll_untouched (B : Region) (objectValue : Pixel) (input : Image Pixel)
    (visited : list Coordinate) (idx : Coordinate) :
  length (m_Index B) = length (m_Size B) →
  Forall (IsInside B) visited →
  IsInside B idx → idx ∉ visited →
  ∀ output, BufferOf B output →
    GetPixel (CopyAll objectValue input visited output) idx = GetPixel output idx.
Proof.
  intros Hlen Hvis Hidx. unfold CopyAll.
  induction Hvis as [|p visited Hp Hvis IH]; intros Hnotin output Hbuf; [done|].
  apply not_elem_of_cons in Hnotin as [Hne Hnotin]. simpl.
  assert (Hstep : BufferOf B (CopyStep objectValue input output p) ∧
                  GetPixel (CopyStep objectValue input output p) idx
                  = GetPixel output idx).
  { unfold CopyStep. destruct (NotExactlyEquals _ _); [|done].
    destruct (GetPixel_SetPixel B output p idx (GetPixel input p) Hlen Hbuf Hp Hidx)
      as [Hb ->]. by destruct (decide (idx = p)). }
  destruct Hstep as [Hbuf' <-]. by apply IH.
Qed.

(** X6. [BeforeThreadedGenerateData] decides the whole output buffer: over a
    requested region without empty axis, every pixel of the requested region
    is the input pixel and every other pixel of the buffered region is the
    fill value (1 when the object value is the zero pixel, 0 otherwise),
    whatever the buffer held before; the regions of the output and the size
    of its buffer stay as they were, and so do the input, the kernel radius
    and the object value of the filter. *)
Theorem BeforeThreadedGenerateData_output_buffer
    (f : ObjectMorphologyImageFilter.Filter Pixel) (input : Image Pixel) :
  let output := ObjectMorphologyImageFilter.m_Output f in
  let R := m_RequestedRegion output in
  let B := m_BufferedRegion output in
  let objectValue := ObjectMorphologyImageFilter.m_ObjectValue f in
  let fillValue := if ExactlyEquals objectValue ZeroValue then OneValue else ZeroValue in
  ObjectMorphologyImageFilter.m_Input f = Some input →
  length (m_Index R) = length (m_Size R) →
  Forall (λ n, 0 < n) (m_Size R) →
  length (m_Index B) = length (m_Size B) →
  (∀ idx, IsInside R idx → IsInside B idx) →
  Z.of_nat (length (m_Buffer output)) = GetNumberOfPixels B →
  ∃ (fuel0 : nat) (f' : ObjectMorphologyImageFilter.Filter Pixel),
    (∀ fuel, (fuel0 ≤ fuel)%nat →
       ObjectMorphologyImageFilter.BeforeThreadedGenerateData fuel f = Some f') ∧
    (∀ idx, IsInside B idx →
       GetPixel (ObjectMorphologyImageFilter.m_Output f') idx
       = if decide (IsInside R idx) then GetPixel input idx else fillValue) ∧
    m_RequestedRegion (ObjectMorphologyImageFilter.m_Output f') = R ∧
    m_BufferedRegion (ObjectMorphologyImageFilter.m_Output f') = B ∧
    m_LargestPossibleRegion (ObjectMorphologyImageFilter.m_Output f')
    = m_LargestPossibleRegion output ∧
    length (m_Buffer (ObjectMorphologyImageFilter.m_Output f'))
    = length (m_Buffer output) ∧
    ObjectMorphologyImageFilter.m_Input f' = Some input ∧
    ObjectMorphologyImageFilter.m_KernelRadius f'
    = ObjectMorphologyImageFilter.m_KernelRadius f ∧
    ObjectMorphologyImageFilter.m_ObjectValue f' = objectValue.
Proof.
  intros output R B objectValue fillValue Hinput HR Hpos HB Hsub Hbuf.
  assert (Hfill : fillValue ≠ objectValue).
  { unfold fillValue, ExactlyEquals.
    destruct (bool_decide_reflect (objectValue = ZeroValue)) as [->|Hne];
      [apply OneValue_ne_ZeroValue|done]. }
  set (filled := FillBuffer output fillValue).
  assert (Hbufof : BufferOf B filled).
  { split; [done|]. unfold filled, FillBuffer. simpl.
    rewrite length_replicate. exact Hbuf. }
  assert (Hread : ∀ idx, IsInside B idx → GetPixel filled idx = fillValue).
  { intros idx Hidx. pose proof (ComputeOffset_range B idx HB Hidx) as Hr.
    unfold GetPixel, ReadBuffer, filled, FillBuffer. simpl. fold B.
    destruct (decide (0 ≤ ComputeOffset B idx)); [|lia].
    rewrite (proj2 (lookup_replicate _ _ fillValue _)); [done|].
    split; [done|lia]. }
  destruct (Walk_covers R HR Hpos) as (fuel0 & visited & Hw & Hall & Hcov).
  assert (HallB : Forall (IsInside B) visited).
  { eapply Forall_impl; [exact Hall|]. exact Hsub. }
  destruct (CopyAll_frame objectValue input visited filled)
    as (_ & Hlpr & Hreq & Hbr & Hlength).
  exists (S fuel0),
    (ObjectMorphologyImageFilter.SetOutput f (CopyAll objectValue input visited filled)).
  split; [|split; [|simpl; split_all]].
  - intros [|fuel] Hfuel; [lia|].
    unfold ObjectMorphologyImageFilter.BeforeThreadedGenerateData.
    fold output objectValue.
    replace (if ExactlyEquals objectValue ZeroValue
             then FillBuffer output OneValue else FillBuffer output ZeroValue)
      with filled by (unfold filled, fillValue; by destruct (ExactlyEquals _ _)).
    rewrite Hinput. cbn [mbind option_bind].
    replace (m_RequestedRegion filled) with R by done.
    rewrite CopyLoop_Walk by (rewrite Hw by lia; done).
    rewrite Hw by lia. done.
  - intros idx Hidx. simpl. destruct (decide (IsInside R idx)) as [Hin|Hout].
    + apply (CopyAll_invariant B objectValue fillValue input visited HB Hfill HallB);
        [done| |by apply Hcov].
      intros q Hq. left. by apply Hread.
    + rewrite (CopyAll_untouched B objectValue input visited idx HB HallB Hidx);
        [by apply Hread| |done].
      intros Hin. apply Hout. rewrite Forall_forall in Hall. by apply Hall.
  - unfold filled, FillBuffer in Hlength. simpl in Hlength.
    rewrite length_replicate in Hlength. done.
Qed.

End BeforeThreadedOutside.

(** X6 at work: a 3 x 1 output of which the middle pixel is requested, object
    value 1. *)
Lemma BeforeThreadedGenerateData_output_buffer_witness :
  let input : Image Z :=
    {| m_ObjectId := 1; m_LargestPossibleRegion := MakeRegion [0; 0] [3; 1];
       m_RequestedRegion := MakeRegion [0; 0] [3; 1];
       m_BufferedRegion := MakeRegion [0; 0] [3; 1];
       m_Buffer := [5; 1; 7] |} in
  let output : Image Z :=
    {| m_ObjectId := 2; m_LargestPossibleRegion := MakeRegion [0; 0] [3; 1];
       m_RequestedRegion := MakeRegion [1; 0] [1; 1];
       m_BufferedRegion := MakeRegion [0; 0] [3; 1];
       m_Buffer := [9; 9; 9] |} in
  let f := ObjectMorphologyImageFilter.SetInput
             (ObjectMorphologyImageFilter.Construct 2 false output) input in
  (ObjectMorphologyImageFilter.m_Output
     <$> ObjectMorphologyImageFilter.BeforeThreadedGenerateData 3 f)
  = Some {| m_ObjectId := 2; m_LargestPossibleRegion := MakeRegion [0; 0] [3; 1];
            m_RequestedRegion := MakeRegion [1; 0] [1; 1];
            m_BufferedRegion := MakeRegion [0; 0] [3; 1];
            m_Buffer := [0; 1; 0] |} ∧
  ∃ (fuel0 : nat) (f' : ObjectMorphologyImageFilter.Filter Z),
    (∀ fuel, (fuel0 ≤ fuel)%nat →
       ObjectMorphologyImageFilter.BeforeThreadedGenerateData fuel f = Some f') ∧
    (∀ idx, IsInside (MakeRegion [0; 0] [3; 1]) idx →
       GetPixel (ObjectMorphologyImageFilter.m_Output f') idx
       = if decide (IsInside (MakeRegion [1; 0] [1; 1]) idx)
         then GetPixel input idx else 0).
Proof.
  intros input output f. split; [reflexivity|].
  destruct (BeforeThreadedGenerateData_output_buffer f input)
    as (fuel0 & f' & Hrun & Hpix & _).
  - reflexivity.
  - reflexivity.
  - repeat constructor.
  - reflexivity.
  - intros idx Hidx. inversion Hidx as [|? x ? q Hx Hq]; subst.
    inversion Hq as [|? y ? q' Hy Hq']; subst. inversion Hq'; subst.
    unfold InAxis in Hx, Hy. simpl in Hx, Hy.
    unfold IsInside, InAxis. simpl. repeat constructor; simpl; lia.
  - reflexivity.
  - exists fuel0, f'. split; [exact Hrun|exact Hpix].
Defined.

(** ** IsObjectPixelOnBoundary: the effect of m_UseBoundaryCondition *)

Section BoundaryFlag.
Context `{NumericTraits Pixel}.

(** X7. Switching [m_UseBoundaryCondition] on can only add boundary pixels:
    a pixel that [IsObjectPixelOnBoundary] reports without the boundary
    condition is reported with it; where the two answers differ, some
    neighbor lies outside the buffered region and the value the boundary
    condition gives for it differs from the object value; and when all the
    3^D neighbors lie in the buffered region the flag makes no difference. *)
Theorem IsObjectPixelOnBoundary_flag_only_adds
    (f f' : ObjectMorphologyImageFilter.Filter Pixel)
    (it : NeighborhoodIterator.Iterator Pixel) :
  let B := m_BufferedRegion (NeighborhoodIterator.m_Image it) in
  let D := ObjectMorphologyImageFilter.ImageDimension f in
  ObjectMorphologyImageFilter.ImageDimension f' = D →
  ObjectMorphologyImageFilter.m_ObjectValue f'
  = ObjectMorphologyImageFilter.m_ObjectValue f →
  ObjectMorphologyImageFilter.m_UseBoundaryCondition f = false →
  ObjectMorphologyImageFilter.m_UseBoundaryCondition f' = true →
  (ObjectMorphologyImageFilter.IsObjectPixelOnBoundary f it = true →
   ObjectMorphologyImageFilter.IsObjectPixelOnBoundary f' it = true) ∧
  (ObjectMorphologyImageFilter.IsObjectPixelOnBoundary f' it = true →
   ObjectMorphologyImageFilter.IsObjectPixelOnBoundary f it = false →
   ∃ i : nat,
     (i < 3 ^ D)%nat ∧
     ¬ IsInside B (NeighborhoodIterator.GetNeighborIndex it i) ∧
     NeighborhoodIterator.Evaluate (NeighborhoodIterator.m_BoundaryCondition it)
       (NeighborhoodIterator.m_Image it) (NeighborhoodIterator.GetNeighborIndex it i)
     ≠ ObjectMorphologyImageFilter.m_ObjectValue f) ∧
  ((∀ i : nat, (i < 3 ^ D)%nat →
      IsInside B (NeighborhoodIterator.GetNeighborIndex it i)) →
   ObjectMorphologyImageFilter.IsObjectPixelOnBoundary f' it
   = ObjectMorphologyImageFilter.IsObjectPixelOnBoundary f it).
Proof.
  intros B D HD Hobj Hoff Hon.
  unfold ObjectMorphologyImageFilter.IsObjectPixelOnBoundary.
  rewrite Hoff, Hon, HD, Hobj. fold D.
  set (obj := ObjectMorphologyImageFilter.m_ObjectValue f).
  assert (Hup : ObjectMorphologyImageFilter.AnyNeighborInside obj it (3 ^ D) 0 = true →
                ObjectMorphologyImageFilter.AnyNeighborWithBoundaryCondition
                  obj it (3 ^ D) 0 = true).
  { rewrite AnyNeighborInside_spec, AnyNeighborWithBoundaryCondition_spec.
    intros (j & Hj & _ & Hv). by exists j. }
  split; [exact Hup|split].
  - rewrite AnyNeighborWithBoundaryCondition_spec. intros (j & Hj & Hv) Hno.
    exists j. split; [lia|].
    assert (Hout : ¬ IsInside B (NeighborhoodIterator.GetNeighborIndex it j)).
    { intros Hin.
      assert (Hyes : ObjectMorphologyImageFilter.AnyNeighborInside obj it (3 ^ D) 0
                     = true).
      { apply AnyNeighborInside_spec. by exists j. }
      congruence. }
    split; [exact Hout|].
    unfold NeighborhoodIterator.GetPixel, NeighborhoodIterator.Resolve in Hv.
    fold B in Hv. by destruct (decide (IsInside B _)).
  - intros Hall.
    destruct (ObjectMorphologyImageFilter.AnyNeighborInside obj it (3 ^ D) 0) eqn:Hin.
    + by apply Hup.
    + apply not_true_is_false. intros Hyes. apply not_true_iff_false in Hin.
      apply Hin. apply AnyNeighborInside_spec.
      apply AnyNeighborWithBoundaryCondition_spec in Hyes as (j & Hj & Hv).
      exists j. split; [done|split; [|done]]. apply Hall. lia.
Qed.


End BoundaryFlag.

(** X7 at work: the corner pixel of a 2 x 2 image of object pixels, boundary
    condition constant zero. *)
Lemma IsObjectPixelOnBoundary_flag_only_adds_witness :
  let img : Image Z :=
    {| m_ObjectId := 1; m_LargestPossibleRegion := MakeRegion [0; 0] [2; 2];
       m_RequestedRegion := MakeRegion [0; 0] [2; 2];
       m_BufferedRegion := MakeRegion [0; 0] [2; 2];
       m_Buffer := [1; 1; 1; 1] |} in
  let it := NeighborhoodIterator.SetLocation
              (NeighborhoodIterator.Construct [1; 1] img (MakeRegion [0; 0] [2; 2]))
              [0; 0] in
  let f := ObjectMorphologyImageFilter.Construct 2 false img in
  let f' := ObjectMorphologyImageFilter.Construct 2 true img in
  ObjectMorphologyImageFilter.IsObjectPixelOnBoundary f it = false ∧
  ObjectMorphologyImageFilter.IsObjectPixelOnBoundary f' it = true ∧
  ∃ i : nat,
    (i < 3 ^ 2)%nat ∧
    ¬ IsInside (MakeRegion [0; 0] [2; 2]) (NeighborhoodIterator.GetNeighborIndex it i) ∧
    NeighborhoodIterator.Evaluate (NeighborhoodIterator.m_BoundaryCondition it)
      img (NeighborhoodIterator.GetNeighborIndex it i) ≠ 1.
Proof.
  intros img it f f'. split; [reflexivity|split; [reflexivity|]].
  apply (proj1 (proj2 (IsObjectPixelOnBoundary_flag_only_adds f f' it
                         eq_refl eq_refl eq_refl eq_refl)));
    reflexivity.
Defined.


(** ** NeighborhoodOperator: the direction stays a valid axis *)

(** X11. Whatever calls of [SetDirection] an operator of positive dimension
    has gone through, failed ones included, its dimension is unchanged and
    [GetDirection] is an axis of the neighborhood. *)
Theorem GetDirection_always_valid (dimension : N) (op : NeighborhoodOperator.Operator) :
  (0 < dimension)%N →
  SetDirectionReachable dimension op →
  NeighborhoodOperator.VDimension op = dimension ∧
  (NeighborhoodOperator.GetDirection op < dimension)%N.
Proof.
  intros Hpos Hreach. induction Hreach as [|op direction Hreach [Hdim Hdir]].
  - done.
  - unfold NeighborhoodOperator.SetDirection.
    destruct (decide (NeighborhoodOperator.VDimension op ≤ direction)%N) as [Hge|Hlt];
      simpl; [done|].
    split; [done|]. unfold NeighborhoodOperator.GetDirection. simpl. lia.
Qed.

(** X11 at work: a 3-D operator after [SetDirection(2)] and a failed
    [SetDirection(7)]. *)
Lemma GetDirection_always_valid_witness :
  let op := StateAfter
              (NeighborhoodOperator.SetDirection
                 (StateAfter
                    (NeighborhoodOperator.SetDirection
                       (NeighborhoodOperator.Construct 3) 2)) 7) in
  NeighborhoodOperator.GetDirection op = 2%N ∧
  NeighborhoodOperator.VDimension op = 3%N ∧
  (NeighborhoodOperator.GetDirection op < 3)%N.
Proof.
  intros op. split; [reflexivity|].
  apply (GetDirection_always_valid 3 op).
  - reflexivity.
  - apply Reachable_SetDirection, Reachable_SetDirection, Reachable_Construct.
Defined.

(** ** VectorGradientMagnitudeImageFilter: the weights *)

Section WeightsProperties.
Import VectorGradientMagnitudeWeights.
Context {TRealType : Type} (one : TRealType).
Context (is_negative is_zero : TRealType → bool).
Context (sqrt reciprocal : TRealType → TRealType).

Lemma FillOnes_spec (n : nat) :
  ∀ (i : nat) (weights : list TRealType),
    (i + n ≤ length weights)%nat →
    fold_left (λ weights k, <[k := one]> weights) (seq i n) weights
    = take i weights ++ replicate n one ++ drop (i + n) weights.
Proof.
  induction n as [|n IH]; intros i weights Hlen; simpl.
  - by rewrite Nat.add_0_r, take_drop.
  - rewrite IH by (rewrite length_insert; lia).
    rewrite (take_S_r _ i one) by (apply list_lookup_insert_eq; lia).
    rewrite take_insert_ge by lia. rewrite drop_insert_lt by lia.
    replace (S i + n)%nat with (i + S n)%nat by lia.
    by rewrite <- app_assoc.
Qed.

Lemma CheckedFill_length (bad : TRealType → bool) (value : TRealType → TRealType)
    (source : list TRealType) (indices : list nat) :
  ∀ target,
    length (CheckedFill one bad value source indices target).1 = length target.
Proof.
  induction indices as [|i indices IH]; intros target; simpl; [done|].
  destruct (bad _); [done|]. by rewrite IH, length_insert.
Qed.

(** What one weight loop does, started at index [i] with [n] rounds to go. *)
Lemma CheckedFill_spec (bad : TRealType → bool) (value : TRealType → TRealType)
    (source : list TRealType) (n : nat) :
  ∀ (i : nat) (target : list TRealType),
    (i + n = length source)%nat → length target = length source →
    match CheckedFill one bad value source (seq i n) target with
    | (target', None) =>
        Forall (λ x, bad x = false) (drop i source) ∧
        target' = take i target ++ (value <$> drop i source)
    | (target', Some k) =>
        ∃ x, (i ≤ k)%nat ∧ source !! k = Some x ∧ bad x = true ∧
             Forall (λ x, bad x = false) (take (k - i) (drop i source)) ∧
             target' = take i target ++ (value <$> take (k - i) (drop i source))
                       ++ drop k target
    end.
Proof.
  induction n as [|n IH]; intros i target Hi Hlen; simpl.
  - rewrite drop_ge by lia. rewrite take_ge by lia. by rewrite app_nil_r.
  - destruct (lookup_lt_is_Some_2 source i) as [x Hx]; [lia|].
    rewrite Hx. simpl. destruct (bad x) eqn:Hbad.
    + exists x. rewrite Nat.sub_diag. simpl. rewrite take_drop. done.
    + specialize (IH (S i) (<[i := value x]> target)).
      rewrite length_insert in IH. specialize (IH ltac:(lia) Hlen).
      rewrite (drop_S source x i Hx).
      destruct (CheckedFill _ _ _ _ _ _) as [target' [k|]].
      * destruct IH as (y & Hk & Hy & Hbady & Hall & ->).
        exists y. split; [lia|]. split; [done|]. split; [done|].
        replace (k - i)%nat with (S (k - S i)) by lia. simpl.
        split; [by constructor|].
        rewrite (take_S_r _ i (value x)) by (apply list_lookup_insert_eq; lia).
        rewrite take_insert_ge by lia. rewrite drop_insert_lt by lia.
        by rewrite <- app_assoc.
      * destruct IH as [Hall ->]. split; [by constructor|].
        rewrite (take_S_r _ i (value x)) by (apply list_lookup_insert_eq; lia).
        rewrite take_insert_ge by lia. by rewrite <- app_assoc.
Qed.

(** [BeforeThreadedGenerateData] keeps the flag, the component weights, the
    two dimensions and the sizes of the arrays, also when it throws. *)
Lemma BeforeThreadedGenerateData_frame (spacing : list TRealType)
    (w : Weights TRealType) :
  let w' := StateAfter
              (BeforeThreadedGenerateData one is_negative is_zero sqrt reciprocal
                 spacing w) in
  m_UseImageSpacing w' = m_UseImageSpacing w ∧
  ImageDimension w' = ImageDimension w ∧
  VectorDimension w' = VectorDimension w ∧
  m_ComponentWeights w' = m_ComponentWeights w ∧
  length (m_DerivativeWeights w') = length (m_DerivativeWeights w) ∧
  length (m_SqrtComponentWeights w') = length (m_SqrtComponentWeights w).
Proof.
  unfold BeforeThreadedGenerateData.
  pose proof (CheckedFill_length is_negative sqrt (m_ComponentWeights w)
                (seq 0 (VectorDimension w)) (m_SqrtComponentWeights w)) as Hs.
  destruct (CheckedFill one is_negative sqrt _ _ _) as [sw [k|]]; simpl in *; [done|].
  destruct (m_UseImageSpacing w) eqn:Huse; simpl; [|by rewrite Huse].
  pose proof (CheckedFill_length is_zero reciprocal spacing
                (seq 0 (ImageDimension w)) (m_DerivativeWeights w)) as Hd.
  destruct (CheckedFill one is_zero reciprocal _ _ _) as [dw [k|]]; simpl in *; done.
Qed.

(** X9. [SetUseImageSpacing(f)] leaves the flag at f and is idempotent.  It
    keeps the derivative weights, which the user may have set, except when
    the image spacing was in use and is switched off: then every weight is
    1.  The other weights are never touched.  In particular, switching the
    spacing on, running [BeforeThreadedGenerateData] and switching it off
    again leaves all derivative weights at 1, whatever the spacing was. *)
Theorem SetUseImageSpacing_weights (w : Weights TRealType) (f : bool) :
  length (m_DerivativeWeights w) = ImageDimension w →
  let w' := SetUseImageSpacing one w f in
  m_UseImageSpacing w' = f ∧
  m_DerivativeWeights w'
  = (if m_UseImageSpacing w && negb f
     then replicate (ImageDimension w) one else m_DerivativeWeights w) ∧
  SetUseImageSpacing one w' f = w' ∧
  ImageDimension w' = ImageDimension w ∧
  VectorDimension w' = VectorDimension w ∧
  m_ComponentWeights w' = m_ComponentWeights w ∧
  m_SqrtComponentWeights w' = m_SqrtComponentWeights w ∧
  ∀ (spacing : list TRealType) (w'' : Weights TRealType),
    BeforeThreadedGenerateData one is_negative is_zero sqrt reciprocal spacing
      (SetUseImageSpacing one w true) = Returned w'' →
    m_UseImageSpacing w'' = true ∧
    m_DerivativeWeights (SetUseImageSpacing one w'' false)
    = replicate (ImageDimension w) one.
Proof.
  intros Hlen w'.
  assert (Hones : ∀ v : Weights TRealType,
            length (m_DerivativeWeights v) = ImageDimension v →
            fold_left (λ weights k, <[k := one]> weights)
                      (seq 0 (ImageDimension v)) (m_DerivativeWeights v)
            = replicate (ImageDimension v) one).
  { intros v Hv. rewrite FillOnes_spec by (rewrite Hv; lia). simpl.
    rewrite drop_ge by lia. by rewrite app_nil_r. }
  assert (Hset : ∀ (v : Weights TRealType) (g : bool),
            m_UseImageSpacing (SetUseImageSpacing one v g) = g ∧
            ImageDimension (SetUseImageSpacing one v g) = ImageDimension v ∧
            VectorDimension (SetUseImageSpacing one v g) = VectorDimension v ∧
            m_ComponentWeights (SetUseImageSpacing one v g) = m_ComponentWeights v ∧
            m_SqrtComponentWeights (SetUseImageSpacing one v g)
            = m_SqrtComponentWeights v).
  { intros v g. unfold SetUseImageSpacing.
    destruct (bool_decide_reflect (m_UseImageSpacing v = g)) as [Heq|Hne]; [done|].
    by destruct (negb g && m_UseImageSpacing v). }
  assert (Hweights : ∀ (v : Weights TRealType) (g : bool),
            length (m_DerivativeWeights v) = ImageDimension v →
            m_DerivativeWeights (SetUseImageSpacing one v g)
            = (if m_UseImageSpacing v && negb g
               then replicate (ImageDimension v) one else m_DerivativeWeights v)).
  { intros v g Hv. unfold SetUseImageSpacing.
    destruct (bool_decide_reflect (m_UseImageSpacing v = g)) as [Heq|Hne].
    - rewrite Heq. by destruct g.
    - destruct (m_UseImageSpacing v), g; simpl; try done. by apply Hones. }
  destruct (Hset w f) as (Hflag & HD & HV & Hcw & Hsw).
  split; [exact Hflag|]. split; [by apply Hweights|].
  split; [|split_all].
  - assert (Hsame : ∀ (v : Weights TRealType) (g : bool),
              m_UseImageSpacing v = g → SetUseImageSpacing one v g = v).
    { intros v g Hv. unfold SetUseImageSpacing. by rewrite bool_decide_eq_true_2. }
    by apply Hsame.
  - intros spacing w'' Hrun.
    pose proof (BeforeThreadedGenerateData_frame spacing (SetUseImageSpacing one w true))
      as Hframe.
    rewrite Hrun in Hframe. simpl in Hframe.
    destruct Hframe as (Huse & HD'' & _ & _ & Hlen'' & _).
    destruct (Hset w true) as (Hflag1 & HD1 & _).
    rewrite Hflag1 in Huse. split; [exact Huse|].
    assert (Hlen1 : length (m_DerivativeWeights (SetUseImageSpacing one w true))
                    = ImageDimension w).
    { rewrite Hweights by done.
      destruct (m_UseImageSpacing w && negb true); [|done].
      by rewrite length_replicate. }
    rewrite Hweights by lia. rewrite Huse. simpl. by rewrite HD'', HD1.
Qed.

(** X10. The weights after [BeforeThreadedGenerateData].  The function
    returns only if no component weight is negative and, when the image
    spacing is in use, no spacing is zero; then the square-root weights are
    the square roots of the component weights, and the derivative weights are
    the reciprocals of the spacing when the spacing is in use and what they
    were otherwise.  It throws at the first negative component weight, the
    derivative weights untouched and the square roots written up to that
    component; failing that, at the first zero spacing, naming its axis, the
    derivative weights written up to that axis. *)
Theorem BeforeThreadedGenerateData_weights (spacing : list TRealType)
    (w : Weights TRealType) :
  let componentWeights := m_ComponentWeights w in
  let derivativeWeights := m_DerivativeWeights w in
  length componentWeights = VectorDimension w →
  length (m_SqrtComponentWeights w) = VectorDimension w →
  length derivativeWeights = ImageDimension w →
  length spacing = ImageDimension w →
  match BeforeThreadedGenerateData one is_negative is_zero sqrt reciprocal spacing w with
  | Returned w' =>
      Forall (λ c, is_negative c = false) componentWeights ∧
      (m_UseImageSpacing w = true → Forall (λ s, is_zero s = false) spacing) ∧
      m_SqrtComponentWeights w' = sqrt <$> componentWeights ∧
      m_DerivativeWeights w'
      = (if m_UseImageSpacing w then reciprocal <$> spacing else derivativeWeights)
  | Thrown e w' =>
      (∃ (i : nat) (c : TRealType),
         componentWeights !! i = Some c ∧ is_negative c = true ∧
         Forall (λ c, is_negative c = false) (take i componentWeights) ∧
         e = ExceptionObject "Component weights must be positive numbers" ∧
         m_SqrtComponentWeights w'
         = (sqrt <$> take i componentWeights) ++ drop i (m_SqrtComponentWeights w) ∧
         m_DerivativeWeights w' = derivativeWeights) ∨
      (∃ (i : nat) (s : TRealType),
         Forall (λ c, is_negative c = false) componentWeights ∧
         m_UseImageSpacing w = true ∧
         spacing !! i = Some s ∧ is_zero s = true ∧
         Forall (λ s, is_zero s = false) (take i spacing) ∧
         e = ExceptionObject
               ("Image spacing in dimension " +:+ pretty i +:+ " is zero.") ∧
         m_SqrtComponentWeights w' = sqrt <$> componentWeights ∧
         m_DerivativeWeights w'
         = (reciprocal <$> take i spacing) ++ drop i derivativeWeights)
  end.
Proof.
  intros componentWeights derivativeWeights Hcw Hsw Hdw Hsp.
  unfold BeforeThreadedGenerateData. fold componentWeights.
  pose proof (CheckedFill_spec is_negative sqrt componentWeights (VectorDimension w)
                0 (m_SqrtComponentWeights w) ltac:(lia) ltac:(lia)) as Hfirst.
  destruct (CheckedFill one is_negative sqrt _ _ _) as [sw [k|]].
  - destruct Hfirst as (c & _ & Hc & Hneg & Hall & ->).
    rewrite Nat.sub_0_r, drop_0 in *. simpl.
    left. by exists k, c.
  - destruct Hfirst as [Hall ->]. rewrite drop_0 in *. simpl.
    destruct (m_UseImageSpacing w) eqn:Huse; simpl; [|done].
    fold derivativeWeights.
    pose proof (CheckedFill_spec is_zero reciprocal spacing (ImageDimension w)
                  0 derivativeWeights ltac:(lia) ltac:(lia)) as Hsecond.
    destruct (CheckedFill one is_zero reciprocal _ _ _) as [dw [k|]].
    + destruct Hsecond as (s & _ & Hs & Hzero & Hnz & ->).
      rewrite Nat.sub_0_r, drop_0 in *. simpl.
      right. by exists k, s.
    + destruct Hsecond as [Hnz ->]. rewrite drop_0 in *. simpl. done.
Qed.

End WeightsProperties.

(** X9 at work, in doubles: the spacing was in use with weights 1/2 and 1/4
    and is switched off. *)
Lemma SetUseImageSpacing_weights_witness :
  let w : VectorGradientMagnitudeWeights.Weights LaplacianOperator.double :=
    {| VectorGradientMagnitudeWeights.ImageDimension := 2;
       VectorGradientMagnitudeWeights.VectorDimension := 1;
       VectorGradientMagnitudeWeights.m_UseImageSpacing := true;
       VectorGradientMagnitudeWeights.m_DerivativeWeights :=
         [S754_finite false 4503599627370496 (-53);
          S754_finite false 4503599627370496 (-54)];
       VectorGradientMagnitudeWeights.m_ComponentWeights :=
         [LaplacianOperator.double_one];
       VectorGradientMagnitudeWeights.m_SqrtComponentWeights :=
         [LaplacianOperator.double_one] |} in
  VectorGradientMagnitudeWeights.m_DerivativeWeights
    (VectorGradientMagnitudeWeights.SetUseImageSpacing
       LaplacianOperator.double_one w false)
  = [LaplacianOperator.double_one; LaplacianOperator.double_one].
Proof.
  intros w.
  exact (proj1 (proj2 (SetUseImageSpacing_weights LaplacianOperator.double_one
                         VectorGradientMagnitudeWeights.double_is_negative
                         VectorGradientMagnitudeWeights.double_is_zero
                         VectorGradientMagnitudeWeights.double_sqrt
                         VectorGradientMagnitudeWeights.double_reciprocal
                         w false eq_refl))).
Defined.

(** X10 at work, in doubles: component weight 4, spacing 2 along axis 0 and
    0 along axis 1.  The call throws at axis 1, after the square root 2 and
    the derivative weight 1/2 of axis 0 have been written. *)
Lemma BeforeThreadedGenerateData_weights_witness :
  let w : VectorGradientMagnitudeWeights.Weights LaplacianOperator.double :=
    {| VectorGradientMagnitudeWeights.ImageDimension := 2;
       VectorGradientMagnitudeWeights.VectorDimension := 1;
       VectorGradientMagnitudeWeights.m_UseImageSpacing := true;
       VectorGradientMagnitudeWeights.m_DerivativeWeights :=
         [LaplacianOperator.double_one; LaplacianOperator.double_one];
       VectorGradientMagnitudeWeights.m_ComponentWeights :=
         [S754_finite false 4503599627370496 (-50)];
       VectorGradientMagnitudeWeights.m_SqrtComponentWeights :=
         [LaplacianOperator.double_zero] |} in
  let spacing := [LaplacianOperator.double_two; LaplacianOperator.double_zero] in
  let outcome :=
    VectorGradientMagnitudeWeights.BeforeThreadedGenerateData
      LaplacianOperator.double_one
      VectorGradientMagnitudeWeights.double_is_negative
      VectorGradientMagnitudeWeights.double_is_zero
      VectorGradientMagnitudeWeights.double_sqrt
      VectorGradientMagnitudeWeights.double_reciprocal spacing w in
  outcome
  = Thrown (ExceptionObject "Image spacing in dimension 1 is zero.")
      {| VectorGradientMagnitudeWeights.ImageDimension := 2;
         VectorGradientMagnitudeWeights.VectorDimension := 1;
         VectorGradientMagnitudeWeights.m_UseImageSpacing := true;
         VectorGradientMagnitudeWeights.m_DerivativeWeights :=
           [S754_finite false 4503599627370496 (-53); LaplacianOperator.double_one];
         VectorGradientMagnitudeWeights.m_ComponentWeights :=
           [S754_finite false 4503599627370496 (-50)];
         VectorGradientMagnitudeWeights.m_SqrtComponentWeights :=
           [LaplacianOperator.double_two] |} ∧
  match outcome with
  | Returned _ => False
  | Thrown e w' =>
      (∃ (i : nat) (c : LaplacianOperator.double),
         VectorGradientMagnitudeWeights.m_ComponentWeights w !! i = Some c ∧
         VectorGradientMagnitudeWeights.double_is_negative c = true) ∨
      (∃ (i : nat) (s : LaplacianOperator.double),
         spacing !! i = Some s ∧
         VectorGradientMagnitudeWeights.double_is_zero s = true ∧
         e = ExceptionObject
               ("Image spacing in dimension " +:+ pretty i +:+ " is zero.") ∧
         VectorGradientMagnitudeWeights.m_DerivativeWeights w'
         = (VectorGradientMagnitudeWeights.double_reciprocal <$> take i spacing)
           ++ drop i (VectorGradientMagnitudeWeights.m_DerivativeWeights w))
  end.
Proof.
  intros w spacing outcome. split; [vm_compute; reflexivity|].
  pose proof (BeforeThreadedGenerateData_weights LaplacianOperator.double_one
                VectorGradientMagnitudeWeights.double_is_negative
                VectorGradientMagnitudeWeights.double_is_zero
                VectorGradientMagnitudeWeights.double_sqrt
                VectorGradientMagnitudeWeights.double_reciprocal
                spacing w eq_refl eq_refl eq_refl eq_refl) as Hspec.
  fold outcome in Hspec. destruct outcome as [w'|e w'].
  - destruct Hspec as (_ & Hnonzero & _).
    specialize (Hnonzero eq_refl).
    apply Forall_cons in Hnonzero as [_ Hnonzero].
    apply Forall_cons in Hnonzero as [Hzero _]. discriminate Hzero.
  - destruct Hspec as [(i & c & Hc & Hneg & _)|(i & s & _ & _ & Hs & Hzero & _ & He & _ & Hw)].
    + left. by exists i, c.
    + right. by exists i, s.
Defined.

(** ** ImplicitManifoldNormalVectorFilter: the neighbors read *)

Section ManifoldReads.
Import ImplicitManifoldNormalVectorFilter.

Lemma BitOn_testbit (counter : Z) (k : nat) :
  BitOn counter k = Z.testbit counter (Z.of_nat k).
Proof.
  unfold BitOn, m_Indicator. rewrite Z.shiftl_1_l.
  destruct (Z.testbit counter (Z.of_nat k)) eqn:Hbit.
  - apply negb_true_iff, Z.eqb_neq. intros Hzero.
    assert (Hk : Z.testbit (Z.land counter (2 ^ Z.of_nat k)) (Z.of_nat k) = true).
    { rewrite Z.land_spec, Hbit, Z.pow2_bits_true by lia. done. }
    rewrite Hzero, Z.bits_0 in Hk. done.
  - apply negb_false_iff, Z.eqb_eq. apply Z.bits_inj'. intros n Hn.
    rewrite Z.land_spec, Z.bits_0.
    destruct (decide (n = Z.of_nat k)) as [->|Hne].
    + by rewrite Hbit.
    + rewrite (Z.pow2_bits_false (Z.of_nat k) n) by lia. apply andb_false_r.
Qed.

(** Numbers written with digits 0, 1, 2 in base 3, least digit first. *)
Lemma Digits_range (ds : list Z) :
  Forall (λ d, 0 ≤ d < 3) ds →
  0 ≤ RowMajor (replicate (length ds) (0, 3)) ds < 3 ^ Z.of_nat (length ds).
Proof.
  induction 1 as [|d ds Hd _ IH]; [done|].
  cbn [length replicate RowMajor fst snd].
  rewrite Nat2Z.inj_succ, Z.pow_succ_r by lia. lia.
Qed.

Lemma GetOffset_digits (ds : list Z) :
  Forall (λ d, 0 ≤ d < 3) ds →
  NeighborhoodIterator.GetOffset (replicate (length ds) 1)
    (RowMajor (replicate (length ds) (0, 3)) ds)
  = (λ d, d - 1) <$> ds.
Proof.
  induction 1 as [|d ds Hd _ IH]; [done|].
  cbn [length replicate RowMajor fst snd NeighborhoodIterator.GetOffset fmap list_fmap].
  change (2 * 1 + 1) with 3.
  set (rest := RowMajor (replicate (length ds) (0, 3)) ds) in *.
  replace (d - 0 + 3 * rest) with (d + rest * 3) by lia.
  rewrite Z_mod_plus_full, Z_div_plus_full by lia.
  rewrite Z.mod_small, Z.div_small by lia. rewrite Z.add_0_l. f_equal. exact IH.
Qed.

Lemma Digits_add (f g : nat → Z) (n : nat) :
  ∀ i, RowMajor (replicate n (0, 3)) ((λ k, f k + g k) <$> seq i n)
       = RowMajor (replicate n (0, 3)) (f <$> seq i n)
         + RowMajor (replicate n (0, 3)) (g <$> seq i n).
Proof.
  induction n as [|n IH]; intros i; [done|].
  cbn [seq]. rewrite !fmap_cons. cbn [replicate RowMajor fst snd].
  rewrite IH. lia.
Qed.

Lemma Digits_ones (n : nat) :
  ∀ i, 2 * RowMajor (replicate n (0, 3)) ((λ _, 1) <$> seq i n) + 1 = 3 ^ Z.of_nat n.
Proof.
  induction n as [|n IH]; intros i; [done|].
  cbn [seq]. rewrite !fmap_cons. cbn [replicate RowMajor fst snd].
  specialize (IH (S i)).
  rewrite Nat2Z.inj_succ, Z.pow_succ_r by lia. lia.
Qed.

Lemma Digits_single (a : nat) (x : Z) (n : nat) :
  ∀ i, (i ≤ a < i + n)%nat →
    RowMajor (replicate n (0, 3)) ((λ k, if decide (k = a) then x else 0) <$> seq i n)
    = x * 3 ^ Z.of_nat (a - i).
Proof.
  assert (Hnone : ∀ n i, (a < i)%nat →
            RowMajor (replicate n (0, 3))
              ((λ k, if decide (k = a) then x else 0) <$> seq i n) = 0).
  { clear n. induction n as [|n IH]; intros i Hi; [done|].
    cbn [seq]. rewrite !fmap_cons. cbn [replicate RowMajor fst snd].
    rewrite IH by lia. destruct (decide (i = a)); lia. }
  induction n as [|n IH]; intros i Hi; [lia|].
  cbn [seq]. rewrite !fmap_cons. cbn [replicate RowMajor fst snd].
  destruct (decide (i = a)) as [->|Hne].
  - rewrite Hnone by lia. rewrite Nat.sub_diag. simpl. lia.
  - rewrite IH by lia.
    replace (a - i)%nat with (S (a - S i)) by lia.
    rewrite Nat2Z.inj_succ, Z.pow_succ_r by lia. lia.
Qed.

(** The digit that the loop over k adds at axis k. *)
Lemma VertexPosition_fold (D : nat) (counter : Z) (skip : option nat) (n : nat) :
  ∀ (i : nat) (position : Z),
    (i + n ≤ D)%nat →
    fold_left
      (λ position k,
         if bool_decide (skip ≠ Some k) && BitOn counter k
         then position + stride D k else position)
      (seq i n) position
    = position
      + 3 ^ Z.of_nat i
        * RowMajor (replicate n (0, 3))
            ((λ k, if bool_decide (skip ≠ Some k) && BitOn counter k then 1 else 0)
               <$> seq i n).
Proof.
  induction n as [|n IH]; intros i position Hi.
  - simpl. lia.
  - cbn [seq fold_left]. rewrite !fmap_cons. cbn [replicate RowMajor fst snd].
    rewrite IH by lia.
    unfold stride, m_ManifoldRadius. rewrite GetStride_ones by lia.
    rewrite Nat2Z.inj_succ, Z.pow_succ_r by lia.
    destruct (bool_decide (skip ≠ Some i) && BitOn counter i); lia.
Qed.

Lemma VertexPosition_digits (D : nat) (counter : Z) (skip : option nat) :
  VertexPosition D counter skip
  = RowMajor (replicate D (0, 3))
      ((λ k, 1 + (if bool_decide (skip ≠ Some k) && BitOn counter k then 1 else 0))
         <$> seq 0 D).
Proof.
  unfold VertexPosition. rewrite VertexPosition_fold by lia.
  rewrite Digits_add. simpl (3 ^ Z.of_nat 0).
  pose proof (Digits_ones D 0%nat) as Hones.
  unfold center, m_ManifoldRadius. rewrite NeighborhoodSize_ones.
  pose proof (Pow3_odd D) as Hodd. lia.
Qed.

(** The neighbor at [VertexPosition counter None]: inside the neighborhood,
    at the offset whose components are the bits of [counter]. *)
Lemma VertexPosition_offset (D : nat) (counter : Z) :
  let position := VertexPosition D counter None in
  0 ≤ position < LaplacianOperator.Size (m_ManifoldRadius D) ∧
  NeighborhoodIterator.GetOffset (m_ManifoldRadius D) position
  = (λ k : nat, Z.b2z (Z.testbit counter (Z.of_nat k))) <$> seq 0 D.
Proof.
  intros position. unfold position. rewrite VertexPosition_digits.
  set (ds := (λ k : nat, 1 + (if bool_decide (None ≠ Some k) && BitOn counter k
                             then 1 else 0)) <$> seq 0 D).
  assert (Hlen : length ds = D) by (unfold ds; by rewrite length_fmap, length_seq).
  assert (Hds : Forall (λ d, 0 ≤ d < 3) ds).
  { unfold ds. apply Forall_fmap, Forall_forall. intros k _. simpl.
    case_match; lia. }
  pose proof (Digits_range ds Hds) as Hrange.
  pose proof (GetOffset_digits ds Hds) as Hoffset. rewrite Hlen in Hrange, Hoffset.
  unfold m_ManifoldRadius. rewrite NeighborhoodSize_ones. split; [exact Hrange|].
  rewrite Hoffset. unfold ds. rewrite <- list_fmap_compose.
  apply list_fmap_ext. intros _ k _. simpl. rewrite BitOn_testbit.
  destruct (Z.testbit counter (Z.of_nat k)); simpl; lia.
Qed.

(** The neighbor read when the offset axis is the derivative axis: one step
    along axis i from the vertex that leaves out axis i, forwards when bit i
    of [counter] is on and backwards otherwise. *)
Lemma VertexPosition_offset_along (D : nat) (counter : Z) (i : nat) :
  (i < D)%nat →
  let position :=
    if BitOn counter i then VertexPosition D counter (Some i) + stride D i
    else VertexPosition D counter (Some i) - stride D i in
  0 ≤ position < LaplacianOperator.Size (m_ManifoldRadius D) ∧
  NeighborhoodIterator.GetOffset (m_ManifoldRadius D) position
  = (λ k : nat, if decide (k = i)
                then (if Z.testbit counter (Z.of_nat i) then 1 else -1)
                else Z.b2z (Z.testbit counter (Z.of_nat k))) <$> seq 0 D.
Proof.
  intros Hi position.
  set (ds := (λ k : nat, if decide (k = i)
                         then (if Z.testbit counter (Z.of_nat i) then 2 else 0)
                         else 1 + Z.b2z (Z.testbit counter (Z.of_nat k))) <$> seq 0 D).
  assert (Hlen : length ds = D) by (unfold ds; by rewrite length_fmap, length_seq).
  assert (Hds : Forall (λ d, 0 ≤ d < 3) ds).
  { unfold ds. apply Forall_fmap, Forall_forall. intros k _. simpl.
    destruct (decide (k = i)); [by destruct (Z.testbit _ _)|].
    destruct (Z.testbit counter (Z.of_nat k)); simpl; lia. }
  assert (Hpos : position = RowMajor (replicate D (0, 3)) ds).
  { unfold position. rewrite VertexPosition_digits.
    pose proof (Digits_single i (if Z.testbit counter (Z.of_nat i) then 1 else -1)
                  D 0%nat ltac:(lia)) as Hone.
    rewrite Nat.sub_0_r in Hone.
    unfold stride, m_ManifoldRadius. rewrite GetStride_ones by done.
    rewrite BitOn_testbit.
    set (f := λ k : nat,
                1 + (if bool_decide (Some i ≠ Some k) && BitOn counter k then 1 else 0)).
    set (g := λ k : nat,
                if decide (k = i)
                then (if Z.testbit counter (Z.of_nat i) then 1 else -1) else 0) in *.
    transitivity (RowMajor (replicate D (0, 3)) ((λ k : nat, f k + g k) <$> seq 0 D)).
    { rewrite (Digits_add f g), Hone.
      destruct (Z.testbit counter (Z.of_nat i)); lia. }
    unfold f, g. f_equal. unfold ds. apply list_fmap_ext. intros _ k _. simpl.
    rewrite BitOn_testbit. destruct (decide (k = i)) as [->|Hne].
    - rewrite bool_decide_eq_false_2 by (intros Hn; by apply Hn). simpl.
      destruct (Z.testbit counter (Z.of_nat i)); lia.
    - rewrite bool_decide_eq_true_2 by congruence. simpl.
      destruct (Z.testbit counter (Z.of_nat k)); simpl; lia. }
  pose proof (Digits_range ds Hds) as Hrange.
  pose proof (GetOffset_digits ds Hds) as Hoffset. rewrite Hlen in Hrange, Hoffset.
  rewrite Hpos. unfold m_ManifoldRadius. rewrite NeighborhoodSize_ones.
  split; [exact Hrange|].
  rewrite Hoffset. unfold ds. rewrite <- list_fmap_compose.
  apply list_fmap_ext. intros _ k _. simpl.
  destruct (decide (k = i)); [by destruct (Z.testbit _ _)|].
  destruct (Z.testbit counter (Z.of_nat k)); simpl; lia.
Qed.


Lemma Counters_range (D : nat) (counter : Z) :
  counter ∈ Counters D → 0 ≤ counter < 2 ^ Z.of_nat D.
Proof.
  unfold Counters, m_NumVertex. rewrite Z.shiftl_1_l.
  intros (k & -> & Hk)%list_elem_of_fmap. apply elem_of_seq in Hk.
  assert (0 < 2 ^ Z.of_nat D) by (apply Z.pow_pos_nonneg; lia). lia.
Qed.

Lemma Counter_of_bits (D : nat) (c c' : Z) :
  0 ≤ c < 2 ^ Z.of_nat D → 0 ≤ c' < 2 ^ Z.of_nat D →
  (∀ k : nat, (k < D)%nat → Z.testbit c (Z.of_nat k) = Z.testbit c' (Z.of_nat k)) →
  c = c'.
Proof.
  intros Hc Hc' Hbits. apply Z.bits_inj'. intros n Hn.
  destruct (decide (n < Z.of_nat D)) as [Hlt|Hge].
  - specialize (Hbits (Z.to_nat n) ltac:(lia)). by rewrite Z2Nat.id in Hbits by lia.
  - assert (Hpow : 2 ^ Z.of_nat D ≤ 2 ^ n) by (apply Z.pow_le_mono_r; lia).
    assert (Hhigh : ∀ x, 0 ≤ x < 2 ^ Z.of_nat D → Z.testbit x n = false).
    { intros x Hx. apply Z.testbit_false; [lia|]. by rewrite Z.div_small by lia. }
    by rewrite !Hhigh.
Qed.

Lemma Offset_lookup (D : nat) (f : nat → Z) (k : nat) :
  (k < D)%nat → (f <$> seq 0 D) !! k = Some (f k).
Proof. intros Hk. by rewrite list_lookup_fmap, lookup_seq_lt. Qed.

Lemma Accumulate_ext {NodeValueType : Type} (zero : NodeValueType)
    (add sub : NodeValueType → NodeValueType → NodeValueType)
    (pixels pixels' : Z → NodeValueType) (terms : list (bool * Z)) :
  (∀ plus position, (plus, position) ∈ terms → pixels position = pixels' position) →
  Accumulate zero add sub pixels terms = Accumulate zero add sub pixels' terms.
Proof.
  unfold Accumulate. generalize zero. clear zero.
  induction terms as [|[plus position] terms IH]; intros sum Hagree; [done|].
  simpl. rewrite (Hagree plus position) by left.
  apply IH. intros plus' position' Hin. apply (Hagree plus'). by right.
Qed.

(** X12. The reads of [InitializeNormalBandNode] for the normal vector stay
    in the positive quadrant of the neighborhood: every position read for
    [normalvector[j]] is a neighbor index of the 3^D neighborhood whose
    offset from the center has only components 0 and 1, and its pixel is
    added exactly when the component along the derivative axis j is 1.  The
    2^D positions are all different, so each vertex of the unit cube is read
    once, and the sum depends on no other pixel. *)
Theorem NormalVector_reads_positive_quadrant (D j : nat) :
  (j < D)%nat →
  let radius := m_ManifoldRadius D in
  (∀ (plus : bool) (position : Z),
     (plus, position) ∈ NormalVectorTerms D j →
     0 ≤ position < LaplacianOperator.Size radius ∧
     Forall (λ o, o = 0 ∨ o = 1) (NeighborhoodIterator.GetOffset radius position) ∧
     (plus = true ↔ NeighborhoodIterator.GetOffset radius position !! j = Some 1)) ∧
  Z.of_nat (length (NormalVectorTerms D j)) = 2 ^ Z.of_nat D ∧
  NoDup (snd <$> NormalVectorTerms D j) ∧
  (∀ (NodeValueType : Type) (zero : NodeValueType)
     (add sub : NodeValueType → NodeValueType → NodeValueType)
     (pixels pixels' : Z → NodeValueType),
     (∀ position,
        0 ≤ position < LaplacianOperator.Size radius →
        Forall (λ o, o = 0 ∨ o = 1) (NeighborhoodIterator.GetOffset radius position) →
        pixels position = pixels' position) →
     normalvector D zero add sub pixels j = normalvector D zero add sub pixels' j).
Proof.
  intros Hj radius.
  assert (Hterm : ∀ (plus : bool) (position : Z),
            (plus, position) ∈ NormalVectorTerms D j →
            0 ≤ position < LaplacianOperator.Size radius ∧
            Forall (λ o, o = 0 ∨ o = 1)
              (NeighborhoodIterator.GetOffset radius position) ∧
            (plus = true ↔
             NeighborhoodIterator.GetOffset radius position !! j = Some 1)).
  { intros plus position (counter & [= -> ->] & _)%list_elem_of_fmap.
    destruct (VertexPosition_offset D counter) as [Hrange Hoffset].
    split; [exact Hrange|]. unfold radius. rewrite Hoffset. split.
    - apply Forall_fmap, Forall_forall. intros k _. simpl.
      destruct (Z.testbit counter (Z.of_nat k)); simpl; lia.
    - rewrite Offset_lookup by done. rewrite BitOn_testbit.
      destruct (Z.testbit counter (Z.of_nat j)); simpl; split; congruence. }
  split; [exact Hterm|]. split; [|split].
  - unfold NormalVectorTerms, Counters, m_NumVertex.
    rewrite !length_fmap, length_seq, Z.shiftl_1_l.
    assert (0 < 2 ^ Z.of_nat D) by (apply Z.pow_pos_nonneg; lia). lia.
  - unfold NormalVectorTerms. rewrite <- list_fmap_compose.
    apply NoDup_fmap_2_strong.
    + intros c c' Hc Hc' Heq. simpl in Heq.
      apply (Counter_of_bits D); [by apply Counters_range..|].
      intros k Hk.
      pose proof (proj2 (VertexPosition_offset D c)) as Ho.
      pose proof (proj2 (VertexPosition_offset D c')) as Ho'.
      rewrite Heq, Ho' in Ho. apply (f_equal (.!! k)) in Ho.
      rewrite !Offset_lookup in Ho by done. injection Ho as Ho.
      destruct (Z.testbit c (Z.of_nat k)), (Z.testbit c' (Z.of_nat k)); done.
    + unfold Counters. apply NoDup_fmap_2; [apply _|apply NoDup_seq].
  - intros NodeValueType zero add sub pixels pixels' Hagree.
    unfold normalvector. apply Accumulate_ext. intros plus position Hin.
    destruct (Hterm plus position Hin) as (Hrange & Hquad & _). by apply Hagree.
Qed.

(** X13. The reads of [InitializeNormalBandNode] for the manifold normal
    never leave the neighborhood.  Every position read for
    [m_ManifoldNormal[i][j]] is a neighbor index of the 3^D neighborhood;
    away from the offset axis i its offset has only components 0 and 1.
    For i = j the component along i is +1 for the pixels added and -1 for
    the pixels subtracted; for i /= j it is 0, and a pixel is added exactly
    when its component along j is 1.  The sum depends on no pixel outside
    the neighborhood. *)
Theorem ManifoldNormal_reads_inside_neighborhood (D i j : nat) :
  (i < D)%nat → (j < D)%nat →
  let radius := m_ManifoldRadius D in
  (∀ (plus : bool) (position : Z),
     (plus, position) ∈ ManifoldNormalTerms D i j →
     let offset := NeighborhoodIterator.GetOffset radius position in
     0 ≤ position < LaplacianOperator.Size radius ∧
     (∀ (k : nat) (o : Z), k ≠ i → offset !! k = Some o → o = 0 ∨ o = 1) ∧
     (if decide (i = j)
      then offset !! i = Some (if plus then 1 else -1)
      else offset !! i = Some 0 ∧ (plus = true ↔ offset !! j = Some 1))) ∧
  (∀ (NodeValueType : Type) (zero : NodeValueType)
     (add sub : NodeValueType → NodeValueType → NodeValueType)
     (pixels pixels' : Z → NodeValueType),
     (∀ position,
        0 ≤ position < LaplacianOperator.Size radius →
        pixels position = pixels' position) →
     derivative D zero add sub pixels i j = derivative D zero add sub pixels' i j).
Proof.
  intros Hi Hj radius.
  assert (Hterm : ∀ (plus : bool) (position : Z),
            (plus, position) ∈ ManifoldNormalTerms D i j →
            let offset := NeighborhoodIterator.GetOffset radius position in
            0 ≤ position < LaplacianOperator.Size radius ∧
            (∀ (k : nat) (o : Z), k ≠ i → offset !! k = Some o → o = 0 ∨ o = 1) ∧
            (if decide (i = j)
             then offset !! i = Some (if plus then 1 else -1)
             else offset !! i = Some 0 ∧ (plus = true ↔ offset !! j = Some 1))).
  { intros plus position Hin offset. unfold offset. clear offset.
    unfold ManifoldNormalTerms in Hin.
    destruct (bool_decide_reflect (i ≠ j)) as [Hne|Heq].
    - apply list_elem_of_fmap in Hin as (counter & [= -> ->] & Hc).
      apply list_elem_of_filter in Hc as [Hoff _].
      destruct (VertexPosition_offset D counter) as [Hrange Hoffset].
      split; [exact Hrange|]. unfold radius. rewrite Hoffset. split.
      + intros k o _ Hk. apply lookup_lt_Some in Hk as Hlt.
        rewrite length_fmap, length_seq in Hlt.
        rewrite Offset_lookup in Hk by done. injection Hk as <-.
        destruct (Z.testbit counter (Z.of_nat k)); simpl; lia.
      + rewrite decide_False by done. rewrite !Offset_lookup by done.
        rewrite BitOn_testbit in Hoff. rewrite Hoff, BitOn_testbit.
        split; [done|].
        destruct (Z.testbit counter (Z.of_nat j)); simpl; split; congruence.
    - assert (i = j) as <- by (destruct (decide (i = j)); [done|by destruct Heq]).
      apply list_elem_of_fmap in Hin as (counter & Hpair & _).
      destruct (VertexPosition_offset_along D counter i Hi) as [Hrange Hoffset].
      assert (Hposition :
                position
                = (if BitOn counter i
                   then VertexPosition D counter (Some i) + stride D i
                   else VertexPosition D counter (Some i) - stride D i) ∧
                plus = Z.testbit counter (Z.of_nat i)).
      { rewrite <- BitOn_testbit. simpl in Hpair.
        destruct (BitOn counter i); by injection Hpair as -> ->. }
      destruct Hposition as [-> ->].
      split; [exact Hrange|]. unfold radius. rewrite Hoffset. split.
      + intros k o Hk Hlook. apply lookup_lt_Some in Hlook as Hlt.
        rewrite length_fmap, length_seq in Hlt.
        rewrite Offset_lookup in Hlook by done. injection Hlook as <-.
        rewrite decide_False by done.
        destruct (Z.testbit counter (Z.of_nat k)); simpl; lia.
      + rewrite decide_True by done. rewrite Offset_lookup by done.
        by rewrite decide_True by done. }
  split; [exact Hterm|].
  intros NodeValueType zero add sub pixels pixels' Hagree.
  unfold derivative. apply Accumulate_ext. intros plus position Hin.
  destruct (Hterm plus position Hin) as (Hrange & _). by apply Hagree.
Qed.

End ManifoldReads.

(** X12 at work: in 2-D the normal vector along axis 0 reads the neighbors
    4, 5, 7 and 8 of the 3 x 3 neighborhood. *)
Lemma NormalVector_reads_positive_quadrant_witness :
  ImplicitManifoldNormalVectorFilter.NormalVectorTerms 2 0
  = [(false, 4); (true, 5); (false, 7); (true, 8)] ∧
  NoDup (snd <$> ImplicitManifoldNormalVectorFilter.NormalVectorTerms 2 0).
Proof.
  split; [reflexivity|].
  apply (NormalVector_reads_positive_quadrant 2 0). lia.
Defined.

(** X13 at work: in 2-D the derivative along axis 1 at offset axis 1 reads
    the neighbors 1, 2 (subtracted) and 7, 8 (added). *)
Lemma ManifoldNormal_reads_inside_neighborhood_witness :
  ImplicitManifoldNormalVectorFilter.ManifoldNormalTerms 2 1 1
  = [(false, 1); (false, 2); (true, 7); (true, 8)] ∧
  ∀ (plus : bool) (position : Z),
    (plus, position) ∈ ImplicitManifoldNormalVectorFilter.ManifoldNormalTerms 2 1 1 →
    0 ≤ position < 9.
Proof.
  split; [reflexivity|]. intros plus position Hin.
  apply (proj1 (ManifoldNormal_reads_inside_neighborhood 2 1 1 ltac:(lia) ltac:(lia))
           plus position Hin).
Defined.
